(** * The gdbserver backend of pkg/proc: a shallow embedding

    This development embeds the run-control engine of
    [pkg/proc/gdbserver.go] (the [GdbserverProcess] and [GdbserverThread]
    objects and the [gdbRegisters] bank) and proves properties of it.

    Conventions.
    - Go's [uint64], [int] and [uint8] are [Z] with the wrap-around written
      out where the code can reach it.
    - [[]byte] is [list byte]; a register's [value] slice is a window
      (offset, length) into the bank's [buf], which is how the source shares
      the storage.
    - Go pointers to threads and breakpoints are locations into two stores.
    - A function of the engine is a computation in the monad [M]: it threads
      the process and either finishes or panics.  A Go [error] result is an
      ordinary value.
    - The connection ([gdbConn], file gdbserver_conn.go) is not part of this
      file: the stub is an abstract responder and every request is logged. *)

From Stdlib Require Import ZArith Lia Ascii String.
From Stdlib Require Strings.Byte.
From Stdlib Require Import Init.Byte.
From stdpp Require Import gmap strings list fin_maps pretty.

Open Scope Z_scope.

(** ** Machine integers and byte order *)

Definition wrap64 (z : Z) : Z := z mod 2 ^ 64.

Definition byte_to_Z (b : byte) : Z := Z.of_N (Byte.to_N b).

Definition byte_of_Z (z : Z) : byte :=
  match Byte.of_N (Z.to_N (z mod 256)) with
  | Some b => b
  | None => Byte.x00
  end.

(** [binary.LittleEndian]: the value of a byte string, least significant
    byte first, and the [n] low bytes of a value. *)
Fixpoint le_decode (bs : list byte) : Z :=
  match bs with
  | [] => 0
  | b :: bs' => byte_to_Z b + 256 * le_decode bs'
  end.

Fixpoint le_encode (n : nat) (v : Z) : list byte :=
  match n with
  | O => []
  | S n' => byte_of_Z v :: le_encode n' (v / 256)
  end.

(** [binary.LittleEndian.Uint64(b)]: panics ([None]) when [b] has fewer
    than 8 bytes, and reads the first 8 otherwise. *)
Definition Uint64 (b : list byte) : option Z :=
  if decide (8 <= length b)%nat then Some (le_decode (take 8 b)) else None.

(** [binary.LittleEndian.PutUint64(b, v)]: panics when [b] has fewer than 8
    bytes, and overwrites the first 8 otherwise. *)
Definition PutUint64 (b : list byte) (v : Z) : option (list byte) :=
  if decide (8 <= length b)%nat then Some (le_encode 8 v ++ drop 8 b) else None.

Lemma byte_to_Z_range b : 0 <= byte_to_Z b < 256.
Proof.
  unfold byte_to_Z. pose proof (Byte.to_N_bounded b) as Hb. lia.
Qed.

Lemma byte_to_of_Z z : byte_to_Z (byte_of_Z z) = z mod 256.
Proof.
  unfold byte_to_Z, byte_of_Z.
  pose proof (Z.mod_pos_bound z 256 ltac:(lia)) as Hr.
  destruct (Byte.of_N (Z.to_N (z mod 256))) as [b|] eqn:E.
  - apply Byte.to_of_N in E. rewrite E. lia.
  - apply Byte.of_N_None_iff in E. lia.
Qed.

Lemma le_encode_length n v : length (le_encode n v) = n.
Proof. revert v. induction n as [|n IH]; intros v; simpl; [done|]. by rewrite IH. Qed.

Lemma le_decode_encode n v : le_decode (le_encode n v) = v mod 256 ^ Z.of_nat n.
Proof.
  revert v. induction n as [|n IH]; intros v.
  - simpl. by rewrite Z.mod_1_r.
  - cbn [le_encode le_decode]. rewrite byte_to_of_Z, IH.
    rewrite Nat2Z.inj_succ, Z.pow_succ_r by lia.
    rewrite Z.rem_mul_r by lia. reflexivity.
Qed.

Lemma le_decode_range bs : 0 <= le_decode bs < 256 ^ Z.of_nat (length bs).
Proof.
  induction bs as [|b bs IH].
  - simpl. lia.
  - cbn [le_decode length]. rewrite Nat2Z.inj_succ, Z.pow_succ_r by lia.
    pose proof (byte_to_Z_range b). lia.
Qed.

(** ** Errors

    The error values the engine builds or tests for.  [ProcessExitedError]
    is a struct type; the engine returns a pointer to one when it refuses
    to run ([byref = true]) and tests for the struct itself with
    [err.(ProcessExitedError)] ([byref = false]). *)
Inductive error : Type :=
  | ProcessExitedError (byref : bool) (Pid Status : Z)
  | BreakpointExistsError (file : string) (line : Z) (addr : Z)
  | NoBreakpointError (addr : Z)
  | InvalidAddressError (address : Z)
  | GdbMalformedThreadIDError (tid : string)
  | UnknownRegisterError
  | ProtocolErrorUnsupported
  | ProtocolError (code : Z)
  | ConnectionClosedError
  | errorString (msg : string).

#[global] Instance error_eq_dec : EqDecision error.
Proof. solve_decision. Defined.

(** The type assertion [_, exited := err.(ProcessExitedError)]. *)
Definition is_ProcessExitedError (e : error) : bool :=
  match e with
  | ProcessExitedError false _ _ => true
  | _ => false
  end.

(** Modelled from the spec: [isProtocolErrorUnsupported] is declared with the
    connection; it recognises the error raised for an empty reply to a
    feature probe. *)
Definition isProtocolErrorUnsupported (e : error) : bool :=
  match e with
  | ProtocolErrorUnsupported => true
  | _ => false
  end.

(** ** The register identifiers of golang.org/x/arch/x86/x86asm

    [Reg] is a [uint8] enumeration that starts at 1 with [AL]; the engine
    converts a DWARF register number with [x86asm.Reg(n)]. *)
Module x86asm.

Inductive Reg : Type :=
  | AL | CL | DL | BL | AH | CH | DH | BH | SPB | BPB | SIB | DIB
  | R8B | R9B | R10B | R11B | R12B | R13B | R14B | R15B
  | AX | CX | DX | BX | SP | BP | SI | DI
  | R8W | R9W | R10W | R11W | R12W | R13W | R14W | R15W
  | EAX | ECX | EDX | EBX | ESP | EBP | ESI | EDI
  | R8L | R9L | R10L | R11L | R12L | R13L | R14L | R15L
  | RAX | RCX | RDX | RBX | RSP | RBP | RSI | RDI
  | R8 | R9 | R10 | R11 | R12 | R13 | R14 | R15
  | OtherReg (n : Z).

Definition table : list Reg :=
  [ AL; CL; DL; BL; AH; CH; DH; BH; SPB; BPB; SIB; DIB;
    R8B; R9B; R10B; R11B; R12B; R13B; R14B; R15B;
    AX; CX; DX; BX; SP; BP; SI; DI;
    R8W; R9W; R10W; R11W; R12W; R13W; R14W; R15W;
    EAX; ECX; EDX; EBX; ESP; EBP; ESI; EDI;
    R8L; R9L; R10L; R11L; R12L; R13L; R14L; R15L;
    RAX; RCX; RDX; RBX; RSP; RBP; RSI; RDI;
    R8; R9; R10; R11; R12; R13; R14; R15 ].

(** The conversion [x86asm.Reg(n)] of an [int]: truncation to 8 bits, then
    the enumeration's numbering. *)
Definition Reg_of_int (n : Z) : Reg :=
  let k := n mod 256 in
  if decide (k = 0) then OtherReg 0
  else default (OtherReg k) (table !! Z.to_nat (k - 1)).

End x86asm.

(** ** The register bank *)

(** A [[]byte] that is a sub-slice of the bank's [buf]. *)
Record window : Type := { w_off : nat; w_len : nat }.

Record gdbRegister : Type := { value : window; regnum : Z }.

(** Declared with the connection ([gdbRegisterInfo], filled from the stub's
    [qRegisterInfo] replies): name, number, byte offset and width in bits. *)
Record gdbRegisterInfo : Type :=
  { ri_Name : string; ri_Regnum : Z; ri_Offset : Z; ri_Bitsize : Z }.

Record gdbRegisters : Type :=
  { regs : option (gmap string gdbRegister);
    regsInfo : list gdbRegisterInfo;
    tls : Z;
    gaddr : Z;
    hasgaddr : bool;
    buf : list byte }.

(** Modelled from the spec: the names of the program counter and of the
    count register in the stub's register layout ([regnamePC], [regnameCX]
    are constants of the connection's file; the target is x86-64). *)
Definition regnamePC : string := "rip".
Definition regnameCX : string := "rcx".

(** The zero [gdbRegister]: what indexing the map returns for a name it does
    not hold (a nil [value], register number 0). *)
Definition zero_register : gdbRegister :=
  {| value := {| w_off := 0; w_len := 0 |}; regnum := 0 |}.

Definition reg_lookup (r : gdbRegisters) (name : string) : option gdbRegister :=
  match regs r with
  | Some m => m !! name
  | None => None
  end.

Definition reg_index (r : gdbRegisters) (name : string) : gdbRegister :=
  default zero_register (reg_lookup r name).

Definition read_window (b : list byte) (w : window) : list byte :=
  take (w_len w) (drop (w_off w) b).

Definition write_window (b : list byte) (w : window) (data : list byte) : list byte :=
  take (w_off w) b ++ take (w_len w) data ++ drop (w_off w + w_len w) b.

Definition with_buf (r : gdbRegisters) (b : list byte) : gdbRegisters :=
  {| regs := regs r; regsInfo := regsInfo r; tls := tls r; gaddr := gaddr r;
     hasgaddr := hasgaddr r; buf := b |}.

Definition with_gaddr (r : gdbRegisters) (t g : Z) (h : bool) : gdbRegisters :=
  {| regs := regs r; regsInfo := regsInfo r; tls := t; gaddr := g;
     hasgaddr := h; buf := buf r |}.

(** [regs.PC()], [regs.CX()]: little-endian reads of the register's bytes;
    a register of fewer than 8 bytes (or an absent one) panics. *)
Definition get_u64 (r : gdbRegisters) (name : string) : option Z :=
  Uint64 (read_window (buf r) (value (reg_index r name))).

Definition PC (r : gdbRegisters) : option Z := get_u64 r regnamePC.
Definition CX (r : gdbRegisters) : option Z := get_u64 r regnameCX.

(** [regs.setPC(v)], [regs.setCX(v)]: little-endian writes through the
    register's slice, hence into [buf]. *)
Definition put_u64 (r : gdbRegisters) (name : string) (v : Z) : option gdbRegisters :=
  let w := value (reg_index r name) in
  match PutUint64 (read_window (buf r) w) v with
  | Some bytes => Some (with_buf r (write_window (buf r) w bytes))
  | None => None
  end.

Definition setPC (r : gdbRegisters) (v : Z) : option gdbRegisters := put_u64 r regnamePC v.
Definition setCX (r : gdbRegisters) (v : Z) : option gdbRegisters := put_u64 r regnameCX v.

Definition TLS (r : gdbRegisters) : Z := tls r.
Definition GAddr (r : gdbRegisters) : Z * bool := (gaddr r, hasgaddr r).

(** [regs.byName(name)]: 0 for a name the bank does not hold. *)
Definition byName (r : gdbRegisters) (name : string) : option Z :=
  match reg_lookup r name with
  | None => Some 0
  | Some reg => Uint64 (read_window (buf r) (value reg))
  end.

(** [regs.Get(n)].  The three constants are the source's, under the source's
    names. *)
Definition mask8 : Z := 0x000f.
Definition mask16 : Z := 0x00ff.
Definition mask32 : Z := 0xffff.

Definition low (name : string) (mask : Z) (r : gdbRegisters) : option (Z * option error) :=
  v ← byName r name; Some (Z.land v mask, None).

Definition high (name : string) (mask : Z) (r : gdbRegisters) : option (Z * option error) :=
  v ← byName r name; Some (Z.land (Z.shiftr v 8) mask, None).

Definition full (name : string) (r : gdbRegisters) : option (Z * option error) :=
  v ← byName r name; Some (v, None).

Definition Get (r : gdbRegisters) (n : Z) : option (Z * option error) :=
  match x86asm.Reg_of_int n with
  (* 8-bit *)
  | x86asm.AL => low "rax" mask8 r
  | x86asm.CL => low "rcx" mask8 r
  | x86asm.DL => low "rdx" mask8 r
  | x86asm.BL => low "rbx" mask8 r
  | x86asm.AH => high "rax" mask8 r
  | x86asm.CH => high "rcx" mask8 r
  | x86asm.DH => high "rdx" mask8 r
  | x86asm.BH => high "rbx" mask8 r
  | x86asm.SPB => low "rsp" mask8 r
  | x86asm.BPB => low "rbp" mask8 r
  | x86asm.SIB => low "rsi" mask8 r
  | x86asm.DIB => low "rdi" mask8 r
  | x86asm.R8B => low "r8" mask8 r
  | x86asm.R9B => low "r9" mask8 r
  | x86asm.R10B => low "r10" mask8 r
  | x86asm.R11B => low "r11" mask8 r
  | x86asm.R12B => low "r12" mask8 r
  | x86asm.R13B => low "r13" mask8 r
  | x86asm.R14B => low "r14" mask8 r
  | x86asm.R15B => low "r15" mask8 r
  (* 16-bit *)
  | x86asm.AX => low "rax" mask16 r
  | x86asm.CX => low "rcx" mask16 r
  | x86asm.DX => low "rdx" mask16 r
  | x86asm.BX => low "rbx" mask16 r
  | x86asm.SP => low "rsp" mask16 r
  | x86asm.BP => low "rbp" mask16 r
  | x86asm.SI => low "rsi" mask16 r
  | x86asm.DI => low "rdi" mask16 r
  | x86asm.R8W => low "r8" mask16 r
  | x86asm.R9W => low "r9" mask16 r
  | x86asm.R10W => low "r10" mask16 r
  | x86asm.R11W => low "r11" mask16 r
  | x86asm.R12W => low "r12" mask16 r
  | x86asm.R13W => low "r13" mask16 r
  | x86asm.R14W => low "r14" mask16 r
  | x86asm.R15W => low "r15" mask16 r
  (* 32-bit *)
  | x86asm.EAX => low "rax" mask32 r
  | x86asm.ECX => low "rcx" mask32 r
  | x86asm.EDX => low "rdx" mask32 r
  | x86asm.EBX => low "rbx" mask32 r
  | x86asm.ESP => low "rsp" mask32 r
  | x86asm.EBP => low "rbp" mask32 r
  | x86asm.ESI => low "rsi" mask32 r
  | x86asm.EDI => low "rdi" mask32 r
  | x86asm.R8L => low "r8" mask32 r
  | x86asm.R9L => low "r9" mask32 r
  | x86asm.R10L => low "r10" mask32 r
  | x86asm.R11L => low "r11" mask32 r
  | x86asm.R12L => low "r12" mask32 r
  | x86asm.R13L => low "r13" mask32 r
  | x86asm.R14L => low "r14" mask32 r
  | x86asm.R15L => low "r15" mask32 r
  (* 64-bit *)
  | x86asm.RAX => full "rax" r
  | x86asm.RCX => full "rcx" r
  | x86asm.RDX => full "rdx" r
  | x86asm.RBX => full "rbx" r
  | x86asm.RSP => full "rsp" r
  | x86asm.RBP => full "rbp" r
  | x86asm.RSI => full "rsi" r
  | x86asm.RDI => full "rdi" r
  | x86asm.R8 => full "r8" r
  | x86asm.R9 => full "r9" r
  | x86asm.R10 => full "r10" r
  | x86asm.R11 => full "r11" r
  | x86asm.R12 => full "r12" r
  | x86asm.R13 => full "r13" r
  | x86asm.R14 => full "r14" r
  | x86asm.R15 => full "r15" r
  | x86asm.OtherReg _ => Some (0, Some UnknownRegisterError)
  end.

(** ** Breakpoints, goroutines, threads *)

(** A Go pointer to a thread or to a breakpoint. *)
Definition loc : Type := nat.

(** Modelled from the spec: [BreakpointKind] is declared with the breakpoint
    type; its values are the user's kind, [Next]'s kind and further internal
    kinds. *)
Inductive BreakpointKind : Type :=
  | UserBreakpoint
  | NextBreakpoint
  | OtherBreakpoint.

#[global] Instance BreakpointKind_eq_dec : EqDecision BreakpointKind.
Proof. solve_decision. Defined.

(** [ast.Expr] is opaque to the engine: it stores a user's condition, or the
    condition built by [sameGoroutineCondition]. *)
Inductive Expr : Type :=
  | ExprSource (text : string)
  | ExprSameGoroutine (goid : Z).

Record Breakpoint : Type :=
  { FunctionName : string;
    File : string;
    Line : Z;
    Addr : Z;
    Kind : BreakpointKind;
    Cond : option Expr;
    HitCount : gmap Z Z;
    TotalHitCount : Z;
    Name : string;
    bp_ID : Z }.

(** Modelled from the spec: [Breakpoint.Internal] is declared with the
    breakpoint type; a breakpoint is internal when its kind is not the
    user's. *)
Definition Internal (bp : Breakpoint) : bool :=
  if decide (Kind bp = UserBreakpoint) then false else true.

(** The part of a goroutine descriptor the engine reads: its id, its saved
    PC and the thread it runs on (nil when it is parked). *)
Record G : Type := { g_ID : Z; g_PC : Z; g_thread : option loc }.

Record GdbserverThread : Type :=
  { ID : Z;
    strID : string;
    t_regs : gdbRegisters;
    CurrentBreakpoint : option loc;
    BreakpointConditionMet : bool;
    BreakpointConditionError : option error;
    setbp : bool }.

(** [gosym.Func], as far as the engine looks into it. *)
Record Func : Type := { fn_Name : string }.

(** [BinaryInfo] with its [arch]: an external collaborator, consumed through
    the operations below. *)
Record BinaryInfo : Type :=
  { goos : string;
    BreakpointSize : Z;
    GStructOffset : Z;
    PCToLine : Z -> string * Z * option Func;
    PCToFunc : Z -> option Func;
    bi_Close : option error }.

(** ** The connection *)

(** What the engine sends to the stub. *)
Inductive Packet : Type :=
  | PktResume (sig : Z)
  | PktStep (tid : string)
  | PktSetBreakpoint (addr : Z)
  | PktClearBreakpoint (addr : Z)
  | PktReadRegisters (tid : string)
  | PktReadRegister (tid : string) (regnum : Z)
  | PktWriteRegisters (tid : string) (data : list byte)
  | PktWriteRegister (tid : string) (regnum : Z) (data : list byte)
  | PktReadMemory (addr : Z) (len : nat)
  | PktWriteMemory (addr : Z) (data : list byte)
  | PktAllocMemory (size : nat)
  | PktQueryThreads (first : bool)
  | PktThreadStopInfo (tid : string)
  | PktKill
  | PktDetach
  | PktCtrlC.

(** A stop reply: a [T] packet with the reporting thread, the signal and
    the thread list when the stub inlines it, or an error ([W]/[X] replies
    are the error [ProcessExitedError]). *)
Inductive StopReply : Type :=
  | Stopped (threadID : string) (sig : Z) (threads : option (list string))
  | StopFailed (e : error).

(** The stub, as the engine sees it through [gdbConn]: a state [W] and one
    answer per request.  [stub_interrupt] tells whether another goroutine
    calls [RequestManualStop] while the pending resume blocks. *)
Class Stub (W : Type) : Type :=
  { stub_resume : Z -> W -> StopReply * W;
    stub_step : string -> W -> StopReply * W;
    stub_setBreakpoint : Z -> W -> option error * W;
    stub_clearBreakpoint : Z -> W -> option error * W;
    stub_readRegisters : string -> W -> (error + list byte) * W;
    stub_readRegister : string -> Z -> W -> (error + list byte) * W;
    stub_writeRegisters : string -> list byte -> W -> option error * W;
    stub_writeRegister : string -> Z -> list byte -> W -> option error * W;
    stub_readMemory : Z -> nat -> W -> (error + list byte) * W;
    stub_writeMemory : Z -> list byte -> W -> option error * W;
    stub_allocMemory : nat -> W -> (error + Z) * W;
    stub_queryThreads : bool -> W -> (error + list string) * W;
    stub_threadStopInfo : string -> W -> (error + Z * string) * W;
    stub_kill : W -> option error * W;
    stub_detach : W -> option error * W;
    stub_sendCtrlC : W -> option error * W;
    stub_interrupt : W -> bool }.

(** The fields of [gdbConn] the engine reads, the stub behind it and the
    log of the requests the engine has issued. *)
Record gdbConn (W : Type) : Type :=
  { pid : Z;
    isDebugserver : bool;
    conn_regsInfo : list gdbRegisterInfo;
    stub : W;
    sent : list Packet }.

Arguments pid {W}.
Arguments isDebugserver {W}.
Arguments conn_regsInfo {W}.
Arguments stub {W}.
Arguments sent {W}.

(** ** The process *)

Record GdbserverProcess (W : Type) : Type :=
  { bi : BinaryInfo;
    conn : gdbConn W;
    thread_store : gmap loc GdbserverThread;
    threads : gmap Z loc;
    currentThread : option loc;
    selectedGoroutine : option G;
    exited : bool;
    ctrlC : bool;
    breakpoint_store : gmap loc Breakpoint;
    breakpoints : gmap Z loc;
    breakpointIDCounter : Z;
    internalBreakpointIDCounter : Z;
    gcmdok : bool;
    threadStopInfo : bool;
    loadGInstrAddr : Z;
    allGCache : list G }.

Arguments bi {W}.
Arguments conn {W}.
Arguments thread_store {W}.
Arguments threads {W}.
Arguments currentThread {W}.
Arguments selectedGoroutine {W}.
Arguments exited {W}.
Arguments ctrlC {W}.
Arguments breakpoint_store {W}.
Arguments breakpoints {W}.
Arguments breakpointIDCounter {W}.
Arguments internalBreakpointIDCounter {W}.
Arguments gcmdok {W}.
Arguments threadStopInfo {W}.
Arguments loadGInstrAddr {W}.
Arguments allGCache {W}.

(** ** Field updates

    [set_f v p] is the process [p] after the assignment [p.f = v]. *)
Section Updates.
Context {W : Type}.

Definition set_bi (v : BinaryInfo) (p : GdbserverProcess W) : GdbserverProcess W :=
  {| bi := v;
     conn := conn p;
     thread_store := thread_store p;
     threads := threads p;
     currentThread := currentThread p;
     selectedGoroutine := selectedGoroutine p;
     exited := exited p;
     ctrlC := ctrlC p;
     breakpoint_store := breakpoint_store p;
     breakpoints := breakpoints p;
     breakpointIDCounter := breakpointIDCounter p;
     internalBreakpointIDCounter := internalBreakpointIDCounter p;
     gcmdok := gcmdok p;
     threadStopInfo := threadStopInfo p;
     loadGInstrAddr := loadGInstrAddr p;
     allGCache := allGCache p |}.

Definition set_conn (v : gdbConn W) (p : GdbserverProcess W) : GdbserverProcess W :=
  {| bi := bi p;
     conn := v;
     thread_store := thread_store p;
     threads := threads p;
     currentThread := currentThread p;
     selectedGoroutine := selectedGoroutine p;
     exited := exited p;
     ctrlC := ctrlC p;
     breakpoint_store := breakpoint_store p;
     breakpoints := breakpoints p;
     breakpointIDCounter := breakpointIDCounter p;
     internalBreakpointIDCounter := internalBreakpointIDCounter p;
     gcmdok := gcmdok p;
     threadStopInfo := threadStopInfo p;
     loadGInstrAddr := loadGInstrAddr p;
     allGCache := allGCache p |}.

Definition set_thread_store (v : gmap loc GdbserverThread) (p : GdbserverProcess W) : GdbserverProcess W :=
  {| bi := bi p;
     conn := conn p;
     thread_store := v;
     threads := threads p;
     currentThread := currentThread p;
     selectedGoroutine := selectedGoroutine p;
     exited := exited p;
     ctrlC := ctrlC p;
     breakpoint_store := breakpoint_store p;
     breakpoints := breakpoints p;
     breakpointIDCounter := breakpointIDCounter p;
     internalBreakpointIDCounter := internalBreakpointIDCounter p;
     gcmdok := gcmdok p;
     threadStopInfo := threadStopInfo p;
     loadGInstrAddr := loadGInstrAddr p;
     allGCache := allGCache p |}.

Definition set_threads (v : gmap Z loc) (p : GdbserverProcess W) : GdbserverProcess W :=
  {| bi := bi p;
     conn := conn p;
     thread_store := thread_store p;
     threads := v;
     currentThread := currentThread p;
     selectedGoroutine := selectedGoroutine p;
     exited := exited p;
     ctrlC := ctrlC p;
     breakpoint_store := breakpoint_store p;
     breakpoints := breakpoints p;
     breakpointIDCounter := breakpointIDCounter p;
     internalBreakpointIDCounter := internalBreakpointIDCounter p;
     gcmdok := gcmdok p;
     threadStopInfo := threadStopInfo p;
     loadGInstrAddr := loadGInstrAddr p;
     allGCache := allGCache p |}.

Definition set_currentThread (v : option loc) (p : GdbserverProcess W) : GdbserverProcess W :=
  {| bi := bi p;
     conn := conn p;
     thread_store := thread_store p;
     threads := threads p;
     currentThread := v;
     selectedGoroutine := selectedGoroutine p;
     exited := exited p;
     ctrlC := ctrlC p;
     breakpoint_store := breakpoint_store p;
     breakpoints := breakpoints p;
     breakpointIDCounter := breakpointIDCounter p;
     internalBreakpointIDCounter := internalBreakpointIDCounter p;
     gcmdok := gcmdok p;
     threadStopInfo := threadStopInfo p;
     loadGInstrAddr := loadGInstrAddr p;
     allGCache := allGCache p |}.

Definition set_selectedGoroutine (v : option G) (p : GdbserverProcess W) : GdbserverProcess W :=
  {| bi := bi p;
     conn := conn p;
     thread_store := thread_store p;
     threads := threads p;
     currentThread := currentThread p;
     selectedGoroutine := v;
     exited := exited p;
     ctrlC := ctrlC p;
     breakpoint_store := breakpoint_store p;
     breakpoints := breakpoints p;
     breakpointIDCounter := breakpointIDCounter p;
     internalBreakpointIDCounter := internalBreakpointIDCounter p;
     gcmdok := gcmdok p;
     threadStopInfo := threadStopInfo p;
     loadGInstrAddr := loadGInstrAddr p;
     allGCache := allGCache p |}.

Definition set_exited (v : bool) (p : GdbserverProcess W) : GdbserverProcess W :=
  {| bi := bi p;
     conn := conn p;
     thread_store := thread_store p;
     threads := threads p;
     currentThread := currentThread p;
     selectedGoroutine := selectedGoroutine p;
     exited := v;
     ctrlC := ctrlC p;
     breakpoint_store := breakpoint_store p;
     breakpoints := breakpoints p;
     breakpointIDCounter := breakpointIDCounter p;
     internalBreakpointIDCounter := internalBreakpointIDCounter p;
     gcmdok := gcmdok p;
     threadStopInfo := threadStopInfo p;
     loadGInstrAddr := loadGInstrAddr p;
     allGCache := allGCache p |}.

Definition set_ctrlC (v : bool) (p : GdbserverProcess W) : GdbserverProcess W :=
  {| bi := bi p;
     conn := conn p;
     thread_store := thread_store p;
     threads := threads p;
     currentThread := currentThread p;
     selectedGoroutine := selectedGoroutine p;
     exited := exited p;
     ctrlC := v;
     breakpoint_store := breakpoint_store p;
     breakpoints := breakpoints p;
     breakpointIDCounter := breakpointIDCounter p;
     internalBreakpointIDCounter := internalBreakpointIDCounter p;
     gcmdok := gcmdok p;
     threadStopInfo := threadStopInfo p;
     loadGInstrAddr := loadGInstrAddr p;
     allGCache := allGCache p |}.

Definition set_breakpoint_store (v : gmap loc Breakpoint) (p : GdbserverProcess W) : GdbserverProcess W :=
  {| bi := bi p;
     conn := conn p;
     thread_store := thread_store p;
     threads := threads p;
     currentThread := currentThread p;
     selectedGoroutine := selectedGoroutine p;
     exited := exited p;
     ctrlC := ctrlC p;
     breakpoint_store := v;
     breakpoints := breakpoints p;
     breakpointIDCounter := breakpointIDCounter p;
     internalBreakpointIDCounter := internalBreakpointIDCounter p;
     gcmdok := gcmdok p;
     threadStopInfo := threadStopInfo p;
     loadGInstrAddr := loadGInstrAddr p;
     allGCache := allGCache p |}.

Definition set_breakpoints (v : gmap Z loc) (p : GdbserverProcess W) : GdbserverProcess W :=
  {| bi := bi p;
     conn := conn p;
     thread_store := thread_store p;
     threads := threads p;
     currentThread := currentThread p;
     selectedGoroutine := selectedGoroutine p;
     exited := exited p;
     ctrlC := ctrlC p;
     breakpoint_store := breakpoint_store p;
     breakpoints := v;
     breakpointIDCounter := breakpointIDCounter p;
     internalBreakpointIDCounter := internalBreakpointIDCounter p;
     gcmdok := gcmdok p;
     threadStopInfo := threadStopInfo p;
     loadGInstrAddr := loadGInstrAddr p;
     allGCache := allGCache p |}.

Definition set_breakpointIDCounter (v : Z) (p : GdbserverProcess W) : GdbserverProcess W :=
  {| bi := bi p;
     conn := conn p;
     thread_store := thread_store p;
     threads := threads p;
     currentThread := currentThread p;
     selectedGoroutine := selectedGoroutine p;
     exited := exited p;
     ctrlC := ctrlC p;
     breakpoint_store := breakpoint_store p;
     breakpoints := breakpoints p;
     breakpointIDCounter := v;
     internalBreakpointIDCounter := internalBreakpointIDCounter p;
     gcmdok := gcmdok p;
     threadStopInfo := threadStopInfo p;
     loadGInstrAddr := loadGInstrAddr p;
     allGCache := allGCache p |}.

Definition set_internalBreakpointIDCounter (v : Z) (p : GdbserverProcess W) : GdbserverProcess W :=
  {| bi := bi p;
     conn := conn p;
     thread_store := thread_store p;
     threads := threads p;
     currentThread := currentThread p;
     selectedGoroutine := selectedGoroutine p;
     exited := exited p;
     ctrlC := ctrlC p;
     breakpoint_store := breakpoint_store p;
     breakpoints := breakpoints p;
     breakpointIDCounter := breakpointIDCounter p;
     internalBreakpointIDCounter := v;
     gcmdok := gcmdok p;
     threadStopInfo := threadStopInfo p;
     loadGInstrAddr := loadGInstrAddr p;
     allGCache := allGCache p |}.

Definition set_gcmdok (v : bool) (p : GdbserverProcess W) : GdbserverProcess W :=
  {| bi := bi p;
     conn := conn p;
     thread_store := thread_store p;
     threads := threads p;
     currentThread := currentThread p;
     selectedGoroutine := selectedGoroutine p;
     exited := exited p;
     ctrlC := ctrlC p;
     breakpoint_store := breakpoint_store p;
     breakpoints := breakpoints p;
     breakpointIDCounter := breakpointIDCounter p;
     internalBreakpointIDCounter := internalBreakpointIDCounter p;
     gcmdok := v;
     threadStopInfo := threadStopInfo p;
     loadGInstrAddr := loadGInstrAddr p;
     allGCache := allGCache p |}.

Definition set_threadStopInfo (v : bool) (p : GdbserverProcess W) : GdbserverProcess W :=
  {| bi := bi p;
     conn := conn p;
     thread_store := thread_store p;
     threads := threads p;
     currentThread := currentThread p;
     selectedGoroutine := selectedGoroutine p;
     exited := exited p;
     ctrlC := ctrlC p;
     breakpoint_store := breakpoint_store p;
     breakpoints := breakpoints p;
     breakpointIDCounter := breakpointIDCounter p;
     internalBreakpointIDCounter := internalBreakpointIDCounter p;
     gcmdok := gcmdok p;
     threadStopInfo := v;
     loadGInstrAddr := loadGInstrAddr p;
     allGCache := allGCache p |}.

Definition set_loadGInstrAddr (v : Z) (p : GdbserverProcess W) : GdbserverProcess W :=
  {| bi := bi p;
     conn := conn p;
     thread_store := thread_store p;
     threads := threads p;
     currentThread := currentThread p;
     selectedGoroutine := selectedGoroutine p;
     exited := exited p;
     ctrlC := ctrlC p;
     breakpoint_store := breakpoint_store p;
     breakpoints := breakpoints p;
     breakpointIDCounter := breakpointIDCounter p;
     internalBreakpointIDCounter := internalBreakpointIDCounter p;
     gcmdok := gcmdok p;
     threadStopInfo := threadStopInfo p;
     loadGInstrAddr := v;
     allGCache := allGCache p |}.

Definition set_allGCache (v : list G) (p : GdbserverProcess W) : GdbserverProcess W :=
  {| bi := bi p;
     conn := conn p;
     thread_store := thread_store p;
     threads := threads p;
     currentThread := currentThread p;
     selectedGoroutine := selectedGoroutine p;
     exited := exited p;
     ctrlC := ctrlC p;
     breakpoint_store := breakpoint_store p;
     breakpoints := breakpoints p;
     breakpointIDCounter := breakpointIDCounter p;
     internalBreakpointIDCounter := internalBreakpointIDCounter p;
     gcmdok := gcmdok p;
     threadStopInfo := threadStopInfo p;
     loadGInstrAddr := loadGInstrAddr p;
     allGCache := v |}.

Definition set_stub (w : W) (c : gdbConn W) : gdbConn W :=
  {| pid := pid c; isDebugserver := isDebugserver c;
     conn_regsInfo := conn_regsInfo c; stub := w; sent := sent c |}.

Definition log_packet (k : Packet) (c : gdbConn W) : gdbConn W :=
  {| pid := pid c; isDebugserver := isDebugserver c;
     conn_regsInfo := conn_regsInfo c; stub := stub c; sent := sent c ++ [k] |}.

End Updates.


Definition set_regs (r : gdbRegisters) (t : GdbserverThread) : GdbserverThread :=
  {| ID := ID t; strID := strID t; t_regs := r;
     CurrentBreakpoint := CurrentBreakpoint t;
     BreakpointConditionMet := BreakpointConditionMet t;
     BreakpointConditionError := BreakpointConditionError t;
     setbp := setbp t |}.

Definition set_CurrentBreakpoint (b : option loc) (t : GdbserverThread) : GdbserverThread :=
  {| ID := ID t; strID := strID t; t_regs := t_regs t;
     CurrentBreakpoint := b;
     BreakpointConditionMet := BreakpointConditionMet t;
     BreakpointConditionError := BreakpointConditionError t;
     setbp := setbp t |}.

Definition set_condition (met : bool) (e : option error) (t : GdbserverThread) : GdbserverThread :=
  {| ID := ID t; strID := strID t; t_regs := t_regs t;
     CurrentBreakpoint := CurrentBreakpoint t;
     BreakpointConditionMet := met;
     BreakpointConditionError := e;
     setbp := setbp t |}.

Definition set_setbp (b : bool) (t : GdbserverThread) : GdbserverThread :=
  {| ID := ID t; strID := strID t; t_regs := t_regs t;
     CurrentBreakpoint := CurrentBreakpoint t;
     BreakpointConditionMet := BreakpointConditionMet t;
     BreakpointConditionError := BreakpointConditionError t;
     setbp := b |}.

(** ** The collaborators outside the core

    Go leaves the order of a [range] over a map unspecified: [range_order]
    is an arbitrary permutation, which may depend on the environment.
    [GetG], [checkCondition] and [FindGoroutine] belong to the goroutine and
    evaluation layers; they read the process and talk to the stub on their
    own. *)
Class Runtime (W : Type) : Type :=
  { range_order : forall {A : Type}, W -> list (Z * A) -> list (Z * A);
    range_order_perm :
      forall (A : Type) (w : W) (l : list (Z * A)), range_order w l ≡ₚ l;
    GetG : loc -> GdbserverProcess W -> (error + G) * W;
    checkCondition : loc -> loc -> GdbserverProcess W -> (bool * option error) * W;
    FindGoroutine : Z -> GdbserverProcess W -> (error + option G) * W;
    sameGoroutineCondition : G -> Expr }.

(** ** Text helpers: [strings.Index(b, ".")] and [strconv.ParseUint(b, 16, 32)] *)

Fixpoint after_period (s : string) : option string :=
  match s with
  | EmptyString => None
  | String c s' => if decide (c = "."%char) then Some s' else after_period s'
  end.

Definition hex_digit (c : ascii) : option Z :=
  let n := Z.of_nat (nat_of_ascii c) in
  if decide (48 <= n <= 57) then Some (n - 48)
  else if decide (97 <= n <= 102) then Some (n - 87)
  else if decide (65 <= n <= 70) then Some (n - 55)
  else None.

Fixpoint parse_hex (s : string) (acc : Z) : option Z :=
  match s with
  | EmptyString => Some acc
  | String c s' =>
      match hex_digit c with
      | Some d => parse_hex s' (16 * acc + d)
      | None => None
      end
  end.

Definition ParseUint_16_32 (s : string) : option Z :=
  match s with
  | EmptyString => None
  | _ =>
      match parse_hex s 0 with
      | Some n => if decide (n < 2 ^ 32) then Some n else None
      | None => None
      end
  end.

(** ** The signals of the continue loop *)

Definition interruptSignal : Z := 0x2.
Definition breakpointSignal : Z := 0x5.
Definition childSignal : Z := 0x11.
Definition stopSignal : Z := 0x13.

(** ** The monad of the engine *)

(** Sequencing in the monad of the engine, declared here and given its
    meaning in the section below. *)
Declare Scope engine_scope.
Delimit Scope engine_scope with engine.

(** How a call ends: it returns [a] and leaves the process [p], it panics,
    or a loop of the model has used up its fuel. *)
Inductive outcome (W A : Type) : Type :=
  | Done (a : A) (p : GdbserverProcess W)
  | Panicked
  | OutOfFuel.

Arguments Done {W A}.
Arguments Panicked {W A}.
Arguments OutOfFuel {W A}.

Section Engine.
Context {W : Type} `{!Stub W} `{!Runtime W}.

Definition M (A : Type) : Type := GdbserverProcess W -> outcome W A.

Definition ret {A : Type} (a : A) : M A := fun p => Done a p.

Definition bind {A B : Type} (m : M A) (f : A -> M B) : M B := fun p =>
  match m p with
  | Done a p' => f a p'
  | Panicked => Panicked
  | OutOfFuel => OutOfFuel
  end.

Notation "x ← y ; z" := (bind y (fun x => z))
  (at level 20, y at level 100, z at level 200, only parsing) : engine_scope.
Notation "' x ← y ; z" := (bind y (fun x => z))
  (at level 20, x pattern, y at level 100, z at level 200, only parsing) : engine_scope.
Notation "x ;; z" := (bind x (fun _ => z))
  (at level 100, z at level 200, only parsing, right associativity) : engine_scope.
Local Open Scope engine_scope.

Definition gets {A : Type} (f : GdbserverProcess W -> A) : M A :=
  fun p => Done (f p) p.

Definition modify (f : GdbserverProcess W -> GdbserverProcess W) : M unit :=
  fun p => Done tt (f p).

Definition panic {A : Type} : M A := fun _ => Panicked.

Definition out_of_fuel {A : Type} : M A := fun _ => OutOfFuel.

(** A partial operation of the language (an index out of range, a nil
    dereference): its failure is a panic. *)
Definition must {A : Type} (o : option A) : M A :=
  match o with
  | Some a => ret a
  | None => panic
  end.

(** A call into a collaborator: it sees the process and moves the stub. *)
Definition consult {A : Type} (f : GdbserverProcess W -> A * W) : M A :=
  fun p => let '(a, w) := f p in Done a (set_conn (set_stub w (conn p)) p).

(** [for k, v := range m]: the entries in the order the runtime picks. *)
Definition go_range {A : Type} (m : GdbserverProcess W -> gmap Z A) : M (list (Z * A)) :=
  fun p => Done (range_order (stub (conn p)) (map_to_list (m p))) p.

(** ** The requests of [gdbConn]

    Modelled from the spec: the methods of the connection are declared in
    its own file.  Each one logs its request and returns the stub's answer;
    a read stores the answer's bytes into the slice it was given. *)
Definition transact {A : Type} (k : Packet) (f : W -> A * W) : M A :=
  fun p =>
    let '(a, w) := f (stub (conn p)) in
    Done a (set_conn (set_stub w (log_packet k (conn p))) p).

Definition conn_setBreakpoint (addr : Z) : M (option error) :=
  transact (PktSetBreakpoint addr) (stub_setBreakpoint addr).

Definition conn_clearBreakpoint (addr : Z) : M (option error) :=
  transact (PktClearBreakpoint addr) (stub_clearBreakpoint addr).

Definition conn_readRegisters (tid : string) : M (error + list byte) :=
  transact (PktReadRegisters tid) (stub_readRegisters tid).

Definition conn_readRegister (tid : string) (regnum : Z) : M (error + list byte) :=
  transact (PktReadRegister tid regnum) (stub_readRegister tid regnum).

Definition conn_writeRegisters (tid : string) (data : list byte) : M (option error) :=
  transact (PktWriteRegisters tid data) (stub_writeRegisters tid data).

Definition conn_writeRegister (tid : string) (regnum : Z) (data : list byte) : M (option error) :=
  transact (PktWriteRegister tid regnum data) (stub_writeRegister tid regnum data).

Definition conn_readMemory (addr : Z) (len : nat) : M (error + list byte) :=
  transact (PktReadMemory addr len) (stub_readMemory addr len).

Definition conn_writeMemory (addr : Z) (data : list byte) : M (option error) :=
  transact (PktWriteMemory addr data) (stub_writeMemory addr data).

Definition conn_allocMemory (size : nat) : M (error + Z) :=
  transact (PktAllocMemory size) (stub_allocMemory size).

Definition conn_queryThreads (first : bool) : M (error + list string) :=
  transact (PktQueryThreads first) (stub_queryThreads first).

Definition conn_threadStopInfo (tid : string) : M (error + Z * string) :=
  transact (PktThreadStopInfo tid) (stub_threadStopInfo tid).

Definition conn_kill : M (option error) := transact PktKill stub_kill.

Definition conn_detach : M (option error) := transact PktDetach stub_detach.

Definition conn_sendCtrlC : M (option error) := transact PktCtrlC stub_sendCtrlC.

(** The bytes of an answer, stored into a slice of the same length. *)
Definition fill (data answer : list byte) : list byte :=
  take (length data) (answer ++ drop (length answer) data).

(** ** Threads as objects *)

(** The thread a pointer refers to. *)
Definition thread (t : loc) : M GdbserverThread :=
  th ← gets (fun p => thread_store p !! t); must th.

Definition put_thread (t : loc) (th : GdbserverThread) : M unit :=
  modify (fun p => set_thread_store (<[t := th]> (thread_store p)) p).

Definition thread_regs (t : loc) : M gdbRegisters :=
  th ← thread t; ret (t_regs th).

Definition put_regs (t : loc) (r : gdbRegisters) : M unit :=
  th ← thread t; put_thread t (set_regs r th).

(** [t.regs.PC()], [t.regs.CX()], [t.regs.setPC(v)], [t.regs.setCX(v)]. *)
Definition regs_PC (t : loc) : M Z := r ← thread_regs t; must (PC r).
Definition regs_CX (t : loc) : M Z := r ← thread_regs t; must (CX r).
Definition regs_setPC (t : loc) (v : Z) : M unit :=
  r ← thread_regs t; r' ← must (setPC r v); put_regs t r'.
Definition regs_setCX (t : loc) (v : Z) : M unit :=
  r ← thread_regs t; r' ← must (setCX r v); put_regs t r'.

(** The bytes of the named register, and its number. *)
Definition reg_value (r : gdbRegisters) (name : string) : list byte :=
  read_window (buf r) (value (reg_index r name)).

Definition reg_store (r : gdbRegisters) (name : string) (answer : list byte) : gdbRegisters :=
  let w := value (reg_index r name) in
  with_buf r (write_window (buf r) w (fill (read_window (buf r) w) answer)).

(** ** [threadUpdater] *)

Record threadUpdater : Type := { seen : gset Z; done : bool }.

Definition new_threadUpdater : threadUpdater := {| seen := ∅; done := false |}.

Definition new_thread (tid : Z) (threadID : string) : GdbserverThread :=
  {| ID := tid; strID := threadID;
     t_regs := {| regs := None; regsInfo := []; tls := 0; gaddr := 0;
                  hasgaddr := false; buf := [] |};
     CurrentBreakpoint := None;
     BreakpointConditionMet := false;
     BreakpointConditionError := None;
     setbp := false |}.

(** The body of the loop of [threadUpdater.Add], over the ids still to add. *)
Fixpoint Add_loop (sn : gset Z) (ids : list string) : M (gset Z * option error) :=
  match ids with
  | [] => ret (sn, None)
  | threadID :: rest =>
      let b := default threadID (after_period threadID) in
      match ParseUint_16_32 b with
      | None => ret (sn, Some (GdbMalformedThreadIDError threadID))
      | Some tid =>
          found ← gets (fun p => threads p !! tid);
          match found with
          | Some _ => ret tt
          | None =>
              modify (fun p =>
                let t := fresh (dom (thread_store p)) in
                set_threads (<[tid := t]> (threads p))
                  (set_thread_store (<[t := new_thread tid threadID]> (thread_store p)) p))
          end;;
          Add_loop ({[tid]} ∪ sn) rest
      end
  end.

Definition Add (tu : threadUpdater) (ids : list string) : M (threadUpdater * option error) :=
  if done tu then panic
  else
    '(sn, err) ← Add_loop (seen tu) ids;
    ret ({| seen := sn; done := done tu |}, err).

(** The first loop of [threadUpdater.Finish]: threads that were not seen
    leave the table; [tu.p.currentThread.ID] dereferences the current
    thread, which panics once it is nil. *)
Fixpoint Finish_loop (sn : gset Z) (entries : list (Z * loc)) : M unit :=
  match entries with
  | [] => ret tt
  | (threadID, _) :: rest =>
      (if decide (threadID ∈ sn) then ret tt
       else
         modify (fun p => set_threads (delete threadID (threads p)) p);;
         cur ← gets currentThread;
         c ← must cur;
         th ← thread c;
         if decide (ID th = threadID) then modify (set_currentThread None)
         else ret tt);;
      Finish_loop sn rest
  end.

Definition Finish (tu : threadUpdater) : M threadUpdater :=
  entries ← go_range threads;
  Finish_loop (seen tu) entries;;
  cur ← gets currentThread;
  match cur with
  | Some _ => ret tt
  | None =>
      entries' ← go_range threads;
      match entries' with
      | (_, t) :: _ => modify (set_currentThread (Some t))
      | [] => ret tt
      end
  end;;
  ret {| seen := seen tu; done := true |}.

(** Modelled from the spec: [conn.resume] and [conn.step] are declared with
    the connection.  They block until the stop reply; a thread list inlined
    in the reply is pushed into the updater, which marks it done.  A
    [RequestManualStop] of another goroutine can only run while [resume]
    blocks. *)
Definition absorb_threads (tu : option threadUpdater) (inlined : option (list string))
    : M (option threadUpdater) :=
  match tu, inlined with
  | Some u, Some ids =>
      '(u1, _) ← Add u ids;
      u2 ← Finish u1;
      ret (Some u2)
  | _, _ => ret tu
  end.

Definition RequestManualStop : M (option error) :=
  modify (set_ctrlC true);;
  conn_sendCtrlC.

Definition conn_resume (sig : Z) (tu : option threadUpdater)
    : M (string * Z * option error * option threadUpdater) :=
  modify (fun p => set_conn (log_packet (PktResume sig) (conn p)) p);;
  manual ← gets (fun p => stub_interrupt (stub (conn p)));
  (if manual then RequestManualStop;; ret tt else ret tt);;
  reply ← consult (fun p => stub_resume sig (stub (conn p)));
  match reply with
  | Stopped threadID sig' inlined =>
      tu' ← absorb_threads tu inlined;
      ret (threadID, sig', None, tu')
  | StopFailed e => ret (EmptyString, 0, Some e, tu)
  end.

Definition conn_step (threadID : string) (tu : option threadUpdater)
    : M (string * Z * option error * option threadUpdater) :=
  reply ← transact (PktStep threadID) (stub_step threadID);
  match reply with
  | Stopped tid sig' inlined =>
      tu' ← absorb_threads tu inlined;
      ret (tid, sig', None, tu')
  | StopFailed e => ret (EmptyString, 0, Some e, tu)
  end.

(** ** Register traffic of a thread *)

(** [t.p.conn.readRegisters(t.strID, t.regs.buf)]: one [g] request fills the
    whole buffer. *)
Definition readRegisters_buf (t : loc) : M (option error) :=
  th ← thread t;
  ans ← conn_readRegisters (strID th);
  match ans with
  | inl e => ret (Some e)
  | inr bytes =>
      put_regs t (with_buf (t_regs th) (fill (buf (t_regs th)) bytes));;
      ret None
  end.

(** [t.p.conn.readRegister(t.strID, regs[name].regnum, regs[name].value)]. *)
Definition readRegister_named (t : loc) (name : string) : M (option error) :=
  th ← thread t;
  ans ← conn_readRegister (strID th) (regnum (reg_index (t_regs th) name));
  match ans with
  | inl e => ret (Some e)
  | inr bytes => put_regs t (reg_store (t_regs th) name bytes);; ret None
  end.

Definition writeRegister_named (t : loc) (name : string) : M (option error) :=
  th ← thread t;
  conn_writeRegister (strID th) (regnum (reg_index (t_regs th) name))
    (reg_value (t_regs th) name).

(** A loop that returns the first error of its body. *)
Fixpoint each {A : Type} (body : A -> M (option error)) (l : list A) : M (option error) :=
  match l with
  | [] => ret None
  | a :: rest =>
      err ← body a;
      match err with
      | Some e => ret (Some e)
      | None => each body rest
      end
  end.

Definition writeSomeRegisters (t : loc) (regNames : list string) : M (option error) :=
  ok ← gets gcmdok;
  if ok then
    th ← thread t;
    conn_writeRegisters (strID th) (buf (t_regs th))
  else each (writeRegister_named t) regNames.

Definition readSomeRegisters (t : loc) (regNames : list string) : M (option error) :=
  ok ← gets gcmdok;
  if ok then readRegisters_buf t
  else each (readRegister_named t) regNames.

(** ** The G-address resolver *)

Definition loadGInstr_of (b : BinaryInfo) : option (list byte) :=
  if decide (goos b = "windows") then None
  else if decide (goos b = "linux") then
    if decide (GStructOffset b = 0xfffffffffffffff8 \/ GStructOffset b = 0x0) then
      Some [x64; x48; x8b; x0c; x25; xf8; xff; xff; xff]
    else if decide (GStructOffset b = 0xfffffffffffffff0) then
      Some [x64; x48; x8b; x0c; x25; xf0; xff; xff; xff]
    else None
  else if decide (goos b = "darwin") then
    Some [x65; x48; x8b; x0c; x25; xa0; x08; x00; x00]
  else None.

Definition loadGInstr : M (list byte) := b ← gets bi; must (loadGInstr_of b).

Definition blocked_function (name : string) : bool :=
  if decide (name = "runtime.futex" \/ name = "runtime.usleep" \/ name = "runtime.clone")
  then true
  else if decide (name = "runtime.kevent") then true
  else if decide (name = "runtime.mach_semaphore_wait"
                  \/ name = "runtime.mach_semaphore_timedwait") then true
  else false.

Definition gdbserverThreadBlocked (t : loc) : M bool :=
  pc ← regs_PC t;
  b ← gets bi;
  match PCToFunc b pc with
  | None => ret false
  | Some fn => ret (blocked_function (fn_Name fn))
  end.

(** The three assignments of the blocked-thread shortcut. *)
Definition no_G (t : loc) : M unit :=
  r ← thread_regs t; put_regs t (with_gaddr r 0 0 true).

(** [t.regs.gaddr = t.regs.CX(); t.regs.hasgaddr = true]. *)
Definition record_G (t : loc) : M unit :=
  cx ← regs_CX t;
  r ← thread_regs t;
  put_regs t (with_gaddr r (tls r) cx true).

(** The loop of [reloadGAtPC] over the breakpoint table: every breakpoint
    in [pc, pc+len(movinstr)] is cleared in the stub and a deferred
    [setBreakpoint] is pushed for it.  The result is the error that ends
    the loop, if any, and the pushed addresses, last one first. *)
Fixpoint clear_under (pc : Z) (n : nat) (entries : list (Z * loc)) (pushed : list Z)
    : M (option error * list Z) :=
  match entries with
  | [] => ret (None, pushed)
  | (addr, _) :: rest =>
      if decide (addr >= pc /\ addr <= wrap64 (pc + Z.of_nat n)) then
        err ← conn_clearBreakpoint addr;
        match err with
        | Some e => ret (Some e, pushed)
        | None => clear_under pc n rest (addr :: pushed)
        end
      else clear_under pc n rest pushed
  end.

(** The deferred [t.p.conn.setBreakpoint(addr)] calls: their results are
    dropped. *)
Fixpoint run_deferred_setBreakpoint (pushed : list Z) : M unit :=
  match pushed with
  | [] => ret tt
  | addr :: rest => conn_setBreakpoint addr;; run_deferred_setBreakpoint rest
  end.

(** The deferred closure of [reloadGAtPC].  It assigns the errors [err0]
    and [err1] of the restoring writes to the local [err]; the function's
    result is unnamed, so [return] has already copied the result out and
    the assignment reaches nobody: both errors are dropped. *)
Definition restore_at_pc (t : loc) (pc cx : Z) (savedcode : list byte) : M unit :=
  conn_writeMemory pc savedcode;;
  regs_setPC t pc;;
  regs_setCX t cx;;
  writeSomeRegisters t [regnamePC; regnameCX];;
  ret tt.

(** The part of [reloadGAtPC] that runs between the registration of the
    closure and the return: its value is what [return] copies out. *)
Definition step_and_read (t : loc) (regNames : list string) : M (option error) :=
  th ← thread t;
  '(_, _, err, _) ← conn_step (strID th) None;
  match err with
  | Some e => ret (Some e)
  | None =>
      err' ← readSomeRegisters t regNames;
      match err' with
      | Some e => ret (Some e)
      | None => record_G t;; ret None
      end
  end.

Definition reloadGAtPC (t : loc) : M (option error) :=
  movinstr ← loadGInstr;
  blocked ← gdbserverThreadBlocked t;
  if blocked then no_G t;; ret None
  else
    cx ← regs_CX t;
    pc ← regs_PC t;
    entries ← go_range breakpoints;
    '(err, pushed) ← clear_under pc (length movinstr) entries [];
    result ←
      match err with
      | Some e => ret (Some e)
      | None =>
          saved ← conn_readMemory pc (length movinstr);
          match saved with
          | inl e => ret (Some e)
          | inr answer =>
              let savedcode := fill (replicate (length movinstr) x00) answer in
              err ← conn_writeMemory pc movinstr;
              match err with
              | Some e => ret (Some e)
              | None =>
                  result ← step_and_read t [regnamePC; regnameCX];
                  restore_at_pc t pc cx savedcode;;
                  ret result
              end
          end
      end;
    run_deferred_setBreakpoint pushed;;
    ret result.

(** The deferred closure of [reloadGAlloc]; as in [reloadGAtPC] the error
    of its write is dropped. *)
Definition restore_registers (t : loc) (pc cx : Z) : M unit :=
  regs_setPC t pc;;
  regs_setCX t cx;;
  writeSomeRegisters t [regnamePC; regnameCX];;
  ret tt.

Definition reloadGAlloc (t : loc) : M (option error) :=
  blocked ← gdbserverThreadBlocked t;
  if blocked then no_G t;; ret None
  else
    cx ← regs_CX t;
    pc ← regs_PC t;
    addr ← gets loadGInstrAddr;
    regs_setPC t addr;;
    err ← writeSomeRegisters t [regnamePC];
    match err with
    | Some e => ret (Some e)
    | None =>
        result ← step_and_read t [regnameCX];
        restore_registers t pc cx;;
        ret result
    end.

(** ** Reloading the registers of a thread *)

(** The size of the buffer: the largest [Offset + Bitsize/8]. *)
Definition regs_size (infos : list gdbRegisterInfo) : Z :=
  foldl (fun regsz reginfo =>
           let endoff := ri_Offset reginfo + Z.quot (ri_Bitsize reginfo) 8 in
           if decide (endoff > regsz) then endoff else regsz)
        0 infos.

(** The slices [buf[Offset : Offset+Bitsize/8]] of the registers; a slice
    with a negative bound panics. *)
Fixpoint regs_index (infos : list gdbRegisterInfo) (m : gmap string gdbRegister)
    : option (gmap string gdbRegister) :=
  match infos with
  | [] => Some m
  | reginfo :: rest =>
      let n := Z.quot (ri_Bitsize reginfo) 8 in
      if decide (0 <= ri_Offset reginfo /\ 0 <= n) then
        regs_index rest
          (<[ri_Name reginfo :=
               {| value := {| w_off := Z.to_nat (ri_Offset reginfo); w_len := Z.to_nat n |};
                  regnum := ri_Regnum reginfo |}]> m)
      else None
  end.

Definition init_regs (t : loc) : M unit :=
  r ← thread_regs t;
  match regs r with
  | Some _ => ret tt
  | None =>
      infos ← gets (fun p => conn_regsInfo (conn p));
      m ← must (regs_index infos ∅);
      put_regs t
        {| regs := Some m; regsInfo := infos; tls := tls r; gaddr := gaddr r;
           hasgaddr := hasgaddr r;
           buf := replicate (Z.to_nat (regs_size infos)) x00 |}
  end.

(** [t.p.conn.readRegister(t.strID, reginfo.Regnum, t.regs.regs[reginfo.Name].value)]. *)
Definition readRegister_info (t : loc) (reginfo : gdbRegisterInfo) : M (option error) :=
  th ← thread t;
  ans ← conn_readRegister (strID th) (ri_Regnum reginfo);
  match ans with
  | inl e => ret (Some e)
  | inr bytes => put_regs t (reg_store (t_regs th) (ri_Name reginfo) bytes);; ret None
  end.

Definition reloadRegisters (t : loc) : M (option error) :=
  init_regs t;;
  ok ← gets gcmdok;
  err ←
    (if ok then
       err ← readRegisters_buf t;
       match err with
       | Some e =>
           if isProtocolErrorUnsupported e
           then modify (set_gcmdok false);; ret None
           else ret (Some e)
       | None => ret None
       end
     else ret None);
  match err with
  | Some e => ret (Some e)
  | None =>
      ok ← gets gcmdok;
      err ←
        (if ok then ret None
         else
           infos ← gets (fun p => conn_regsInfo (conn p));
           each (readRegister_info t) infos);
      match err with
      | Some e => ret (Some e)
      | None =>
          addr ← gets loadGInstrAddr;
          if decide (addr > 0) then reloadGAlloc t else reloadGAtPC t
      end
  end.

(** ** Stepping a thread *)

(** A [range] over the thread table whose body may change the table: an
    entry that has left the table is not visited. *)
Fixpoint each_thread (body : loc -> M (option error)) (entries : list (Z * loc))
    : M (option error) :=
  match entries with
  | [] => ret None
  | (tid, _) :: rest =>
      cur ← gets (fun p => threads p !! tid);
      match cur with
      | None => each_thread body rest
      | Some t =>
          err ← body t;
          match err with
          | Some e => ret (Some e)
          | None => each_thread body rest
          end
      end
  end.

Definition stepInstruction (t : loc) (tu : threadUpdater) : M (option error) :=
  pc ← regs_PC t;
  th ← thread t;
  atbp ← gets (fun p => breakpoints p !! pc);
  match atbp with
  | Some _ =>
      err ← conn_clearBreakpoint pc;
      match err with
      | Some e => ret (Some e)
      | None =>
          '(_, _, err, _) ← conn_step (strID th) (Some tu);
          conn_setBreakpoint pc;;
          ret err
      end
  | None =>
      '(_, _, err, _) ← conn_step (strID th) (Some tu);
      ret err
  end.

Definition thread_StepInstruction (t : loc) : M (option error) :=
  err ← stepInstruction t new_threadUpdater;
  match err with
  | Some e => ret (Some e)
  | None => reloadRegisters t
  end.

Definition clearBreakpointState (t : loc) : M unit :=
  th ← thread t;
  put_thread t
    {| ID := ID th; strID := strID th; t_regs := t_regs th;
       CurrentBreakpoint := None;
       BreakpointConditionMet := false;
       BreakpointConditionError := None;
       setbp := false |}.

(** ** Breakpoints *)

Definition breakpoint (b : loc) : M Breakpoint :=
  bp ← gets (fun p => breakpoint_store p !! b); must bp.

Definition put_breakpoint (b : loc) (bp : Breakpoint) : M unit :=
  modify (fun p => set_breakpoint_store (<[b := bp]> (breakpoint_store p)) p).

Definition FindBreakpoint (pc : Z) : M (option loc) :=
  bps ← gets breakpoints;
  size ← gets (fun p => BreakpointSize (bi p));
  (* Check to see if address is past the breakpoint, (i.e. breakpoint was hit). *)
  match bps !! wrap64 (pc - wrap64 size) with
  | Some bp => ret (Some bp)
  | None =>
      (* Directly use addr to lookup breakpoint. *)
      match bps !! pc with
      | Some bp => ret (Some bp)
      | None => ret None
      end
  end.

(** Go's [int]: 64 bits, two's complement. *)
Definition wrap_int (z : Z) : Z := (z + 2 ^ 63) mod 2 ^ 64 - 2 ^ 63.

Definition SetBreakpoint (addr : Z) (kind : BreakpointKind) (cond : option Expr)
    : M (option loc * option error) :=
  existing ← gets (fun p => breakpoints p !! addr);
  match existing with
  | Some b =>
      bp ← breakpoint b;
      ret (None, Some (BreakpointExistsError (File bp) (Line bp) (Addr bp)))
  | None =>
      b ← gets bi;
      let '(f, l, fn) := PCToLine b addr in
      match fn with
      | None => ret (None, Some (InvalidAddressError addr))
      | Some fn =>
          id ←
            (if decide (kind <> UserBreakpoint) then
               modify (fun p =>
                 set_internalBreakpointIDCounter
                   (wrap_int (internalBreakpointIDCounter p + 1)) p);;
               gets internalBreakpointIDCounter
             else
               modify (fun p =>
                 set_breakpointIDCounter (wrap_int (breakpointIDCounter p + 1)) p);;
               gets breakpointIDCounter);
          let newBreakpoint :=
            {| FunctionName := fn_Name fn; File := f; Line := l; Addr := addr;
               Kind := kind; Cond := cond; HitCount := ∅; TotalHitCount := 0;
               Name := EmptyString; bp_ID := id |} in
          err ← conn_setBreakpoint addr;
          match err with
          | Some e => ret (None, Some e)
          | None =>
              new ← gets (fun p => fresh (dom (breakpoint_store p)));
              put_breakpoint new newBreakpoint;;
              modify (fun p => set_breakpoints (<[addr := new]> (breakpoints p)) p);;
              ret (Some new, None)
          end
      end
  end.

Definition ClearBreakpoint (addr : Z) : M (option loc * option error) :=
  ex ← gets exited;
  if ex then
    pid ← gets (fun p => pid (conn p));
    ret (None, Some (ProcessExitedError true pid 0))
  else
    bp ← gets (fun p => breakpoints p !! addr);
    match bp with
    | None => ret (None, Some (NoBreakpointError addr))
    | Some b =>
        err ← conn_clearBreakpoint addr;
        match err with
        | Some e => ret (None, Some e)
        | None =>
            modify (fun p => set_breakpoints (delete addr (breakpoints p)) p);;
            ret (Some b, None)
        end
    end.

(** The first loop of [ClearInternalBreakpoints]; its body deletes from
    the table it ranges over. *)
Fixpoint clear_internal (entries : list (Z * loc)) : M (option error) :=
  match entries with
  | [] => ret None
  | (addr, _) :: rest =>
      cur ← gets (fun p => breakpoints p !! addr);
      match cur with
      | None => clear_internal rest
      | Some b =>
          bp ← breakpoint b;
          if Internal bp then
            '(_, err) ← ClearBreakpoint (Addr bp);
            match err with
            | Some e => ret (Some e)
            | None => clear_internal rest
            end
          else clear_internal rest
      end
  end.

Definition drop_internal_current (t : loc) : M (option error) :=
  th ← thread t;
  match CurrentBreakpoint th with
  | Some b =>
      bp ← breakpoint b;
      (if Internal bp then put_thread t (set_CurrentBreakpoint None th) else ret tt);;
      ret None
  | None => ret None
  end.

Definition ClearInternalBreakpoints : M (option error) :=
  entries ← go_range breakpoints;
  err ← clear_internal entries;
  match err with
  | Some e => ret (Some e)
  | None =>
      ths ← go_range threads;
      each_thread drop_internal_current ths
  end.

(** [regs.SetPC(thread, pc)]. *)
Definition SetPC (t : loc) (pc : Z) : M (option error) :=
  regs_setPC t pc;;
  ok ← gets gcmdok;
  th ← thread t;
  if ok then conn_writeRegisters (strID th) (buf (t_regs th))
  else
    let reg := reg_index (t_regs th) regnamePC in
    conn_writeRegister (strID th) (regnum reg) (read_window (buf (t_regs th)) (value reg)).

(** The two counters of a hit: [HitCount[g.ID]++] when the goroutine is
    known, and [TotalHitCount++]. *)
Definition count_hit (g : error + G) (bp : Breakpoint) : Breakpoint :=
  {| FunctionName := FunctionName bp; File := File bp; Line := Line bp;
     Addr := Addr bp; Kind := Kind bp; Cond := Cond bp;
     HitCount :=
       match g with
       | inr g => <[g_ID g := wrap64 (default 0 (HitCount bp !! g_ID g) + 1)]> (HitCount bp)
       | inl _ => HitCount bp
       end;
     TotalHitCount := wrap64 (TotalHitCount bp + 1);
     Name := Name bp; bp_ID := bp_ID bp |}.

Definition SetCurrentBreakpoint (t : loc) : M (option error) :=
  th ← thread t;
  put_thread t (set_CurrentBreakpoint None th);;
  pc ← regs_PC t;
  found ← FindBreakpoint pc;
  match found with
  | None => ret None
  | Some b =>
      bp ← breakpoint b;
      pc' ← regs_PC t;
      err ← (if decide (pc' <> Addr bp) then SetPC t (Addr bp) else ret None);
      match err with
      | Some e => ret (Some e)
      | None =>
          th ← thread t;
          put_thread t (set_CurrentBreakpoint (Some b) th);;
          '(met, cerr) ← consult (checkCondition b t);
          th ← thread t;
          put_thread t (set_condition met cerr th);;
          (if met then
             g ← consult (GetG t);
             bp ← breakpoint b;
             put_breakpoint b (count_hit g bp)
           else ret tt);;
          ret None
      end
  end.

(** ** Refreshing the thread table *)

(** The query loop of [updateThreadList]: one request per page of thread
    ids, until an empty page. *)
Fixpoint query_loop (fuel : nat) (first : bool) (tu : threadUpdater)
    : M (error + threadUpdater) :=
  match fuel with
  | O => out_of_fuel
  | S fuel' =>
      ans ← conn_queryThreads first;
      match ans with
      | inl e => ret (inl e)
      | inr ids =>
          match ids with
          | [] => ret (inr tu)
          | _ =>
              '(tu', err) ← Add tu ids;
              match err with
              | Some e => ret (inl e)
              | None => query_loop fuel' false tu'
              end
          end
      end
  end.

(** The loop of [updateThreadList] that asks every thread for its stop
    reason; an unsupported reply switches the capability off and leaves the
    loop. *)
Fixpoint stop_info_loop (entries : list (Z * loc)) : M (option error) :=
  match entries with
  | [] => ret None
  | (_, t) :: rest =>
      th ← thread t;
      ans ← conn_threadStopInfo (strID th);
      match ans with
      | inl e =>
          if isProtocolErrorUnsupported e
          then modify (set_threadStopInfo false);; ret None
          else ret (Some e)
      | inr (sig, reason) =>
          th ← thread t;
          put_thread t
            (set_setbp
               (bool_decide (reason = "breakpoint"
                             \/ (reason = EmptyString /\ sig = breakpointSignal)))
               th);;
          stop_info_loop rest
      end
  end.

Definition updateThreadList (fuel : nat) (tu : threadUpdater) : M (option error) :=
  err ←
    (if done tu then ret None
     else
       r ← query_loop fuel true tu;
       match r with
       | inl e => ret (Some e)
       | inr tu' => Finish tu';; ret None
       end);
  match err with
  | Some e => ret (Some e)
  | None =>
      supported ← gets threadStopInfo;
      err ←
        (if supported then
           entries ← go_range threads;
           stop_info_loop entries
         else ret None);
      match err with
      | Some e => ret (Some e)
      | None =>
          entries ← go_range threads;
          each_thread reloadRegisters entries
      end
  end.

Definition setCurrentBreakpoints : M (option error) :=
  supported ← gets threadStopInfo;
  err ←
    (if supported then
       entries ← go_range threads;
       each_thread
         (fun t => th ← thread t;
                   if setbp th then SetCurrentBreakpoint t else ret None)
         entries
     else ret None);
  match err with
  | Some e => ret (Some e)
  | None =>
      supported ← gets threadStopInfo;
      if supported then ret None
      else
        entries ← go_range threads;
        each_thread
          (fun t => th ← thread t;
                    match CurrentBreakpoint th with
                    | None => SetCurrentBreakpoint t
                    | Some _ => ret None
                    end)
          entries
  end.

(** ** The continue loop *)

(** The [switch sig] of the loop: [true] is [break continueLoop]. *)
Definition leaves_loop (sig : Z) (ctrlC isDebugserver : bool) : bool :=
  if decide (sig = interruptSignal) then
    (* interrupt *)
    if ctrlC then true else false
  else if decide (sig = breakpointSignal) then
    (* breakpoint *)
    true
  else if decide (sig = childSignal) then
    (* stop on debugserver but SIGCHLD on lldb-server/linux *)
    if isDebugserver then true else false
  else if decide (sig = stopSignal) then
    (* stop *)
    true
  else if decide (sig = 0x91 \/ sig = 0x92 \/ sig = 0x93
                  \/ sig = 0x94 \/ sig = 0x95 \/ sig = 0x96) then
    true
  else
    (* any other signal is always propagated to inferior *)
    false.

Fixpoint continueLoop (fuel : nat) (sig : Z) (tu : threadUpdater)
    : M (error + string * threadUpdater) :=
  match fuel with
  | O => out_of_fuel
  | S fuel' =>
      let tu := {| seen := seen tu; done := false |} in
      '(threadID, sig, err, tu') ← conn_resume sig (Some tu);
      let tu := default tu tu' in
      match err with
      | Some e =>
          (if is_ProcessExitedError e then modify (set_exited true) else ret tt);;
          ret (inl e)
      | None =>
          c ← gets ctrlC;
          d ← gets (fun p => isDebugserver (conn p));
          if leaves_loop sig c d then ret (inr (threadID, tu))
          else continueLoop fuel' sig tu
      end
  end.

(** The last loop of [ContinueOnce]: the thread whose id is the reporting
    thread's. *)
Fixpoint find_thread (threadID : string) (entries : list (Z * loc)) : M (option loc) :=
  match entries with
  | [] => ret None
  | (_, t) :: rest =>
      th ← thread t;
      if decide (strID th = threadID) then ret (Some t)
      else find_thread threadID rest
  end.

Definition refuse_exited : M error :=
  pid ← gets (fun p => pid (conn p));
  ret (ProcessExitedError true pid 0).

Definition ContinueOnce (fuel : nat) : M (option loc * option error) :=
  ex ← gets exited;
  if ex then e ← refuse_exited; ret (None, Some e)
  else
    (* step threads stopped at any breakpoint over their breakpoint *)
    entries ← go_range threads;
    err ←
      each_thread
        (fun t => th ← thread t;
                  match CurrentBreakpoint th with
                  | Some _ => stepInstruction t new_threadUpdater
                  | None => ret None
                  end)
        entries;
    match err with
    | Some e => ret (None, Some e)
    | None =>
        modify (set_allGCache []);;
        entries ← go_range threads;
        each_thread (fun t => clearBreakpointState t;; ret None) entries;;
        modify (set_ctrlC false);;
        (* resume all threads *)
        r ← continueLoop fuel 0 new_threadUpdater;
        match r with
        | inl e => ret (None, Some e)
        | inr (threadID, tu) =>
            err ← updateThreadList fuel tu;
            match err with
            | Some e => ret (None, Some e)
            | None =>
                err ← setCurrentBreakpoints;
                match err with
                | Some e => ret (None, Some e)
                | None =>
                    entries ← go_range threads;
                    found ← find_thread threadID entries;
                    match found with
                    | Some t => ret (Some t, None)
                    | None =>
                        ret (None,
                             Some (errorString ("could not find thread " +:+ threadID)))
                    end
                end
            end
        end
    end.

(** ** The remaining operations of the process *)

(** What [StepInstruction] does at its end: it returns, or it hands over to
    [Continue], the generic loop of the package around [ContinueOnce]. *)
Inductive step_result : Type :=
  | Returns (err : option error)
  | CallsContinue.

Definition StepInstruction : M step_result :=
  sel ← gets selectedGoroutine;
  match sel with
  | None => ret (Returns (Some (errorString "cannot single step: no selected goroutine")))
  | Some g =>
      match g_thread g with
      | None =>
          '(_, err) ← SetBreakpoint (g_PC g) NextBreakpoint (Some (sameGoroutineCondition g));
          match err with
          | Some e => ret (Returns (Some e))
          | None => ret CallsContinue
          end
      | Some t =>
          modify (set_allGCache []);;
          ex ← gets exited;
          if ex then e ← refuse_exited; ret (Returns (Some e))
          else
            clearBreakpointState t;;
            err ← thread_StepInstruction t;
            match err with
            | Some e => ret (Returns (Some e))
            | None => err ← SetCurrentBreakpoint t; ret (Returns err)
            end
      end
  end.

Definition select_G (g : error + G) : option G :=
  match g with
  | inr g => Some g
  | inl _ => None
  end.

Definition SwitchThread (tid : Z) : M (option error) :=
  found ← gets (fun p => threads p !! tid);
  match found with
  | Some th =>
      modify (set_currentThread (Some th));;
      g ← consult (GetG th);
      modify (set_selectedGoroutine (select_G g));;
      ret None
  | None => ret (Some (errorString ("thread " +:+ pretty tid +:+ " does not exist")))
  end.

Definition SwitchGoroutine (gid : Z) : M (option error) :=
  r ← consult (FindGoroutine gid);
  match r with
  | inl e => ret (Some e)
  | inr None =>
      (* user specified -1 and selectedGoroutine is nil *)
      ret None
  | inr (Some g) =>
      match g_thread g with
      | Some t => th ← thread t; SwitchThread (ID th)
      | None => modify (set_selectedGoroutine (Some g));; ret None
      end
  end.

Definition Halt : M (option error) :=
  modify (set_ctrlC true);;
  conn_sendCtrlC.

Definition Kill : M (option error) :=
  ex ← gets exited;
  if ex then ret None
  else
    err ← conn_kill;
    match err with
    | Some e =>
        if is_ProcessExitedError e then modify (set_exited true);; ret None
        else ret (Some e)
    | None => ret None
    end.

(** [Detach]; the two calls that reap the stub's own process have no effect
    on the engine and are left out. *)
Definition Detach (kill : bool) : M (option error) :=
  err ←
    (if kill then
       err ← Kill;
       match err with
       | Some e => if is_ProcessExitedError e then ret None else ret (Some e)
       | None => ret None
       end
     else ret None);
  match err with
  | Some e => ret (Some e)
  | None =>
      ex ← gets exited;
      err ← (if ex then ret None else conn_detach);
      match err with
      | Some e => ret (Some e)
      | None => gets (fun p => bi_Close (bi p))
      end
  end.

Definition Exited : M bool := gets exited.

Definition Breakpoints : M (gmap Z loc) := gets breakpoints.

(** ** Connecting *)

(** The process [GdbserverConnect] builds before the handshake. *)
Definition new_GdbserverProcess (c : gdbConn W) (b : BinaryInfo) : GdbserverProcess W :=
  {| bi := b; conn := c;
     thread_store := ∅; threads := ∅; currentThread := None;
     selectedGoroutine := None; exited := false; ctrlC := false;
     breakpoint_store := ∅; breakpoints := ∅;
     breakpointIDCounter := 0; internalBreakpointIDCounter := 0;
     gcmdok := true; threadStopInfo := true;
     loadGInstrAddr := 0; allGCache := [] |}.

(** The step of [GdbserverConnect] that tries to place the [MOV] in memory
    allocated in the inferior; a failure is not an error. *)
Definition alloc_loadGInstr : M unit :=
  ans ← conn_allocMemory 256;
  match ans with
  | inr addr =>
      movinstr ← loadGInstr;
      err ← conn_writeMemory addr movinstr;
      match err with
      | None => modify (set_loadGInstrAddr addr)
      | Some _ => ret tt
      end
  | inl _ => ret tt
  end.

(** The last step of [GdbserverConnect], given what [FindFunctionLocation]
    answers for [runtime.startpanic]. *)
Definition set_panic_breakpoint (panicpc : error + Z) : M unit :=
  match panicpc with
  | inl _ => ret tt
  | inr pc =>
      '(bp, err) ← SetBreakpoint pc UserBreakpoint None;
      match err with
      | Some _ => ret tt
      | None =>
          b ← must bp;
          old ← breakpoint b;
          put_breakpoint b
            {| FunctionName := FunctionName old; File := File old; Line := Line old;
               Addr := Addr old; Kind := Kind old; Cond := Cond old;
               HitCount := HitCount old; TotalHitCount := TotalHitCount old;
               Name := "unrecovered-panic"; bp_ID := -1 |};;
          modify (fun p => set_breakpointIDCounter (wrap_int (breakpointIDCounter p - 1)) p)
      end
  end.

(** ** A session

    The calls a client of the engine can make, and the processes a
    sequence of calls goes through; a call that does not finish ends the
    session. *)
Inductive Operation : Type :=
  | OpContinueOnce (fuel : nat)
  | OpStepInstruction
  | OpSwitchThread (tid : Z)
  | OpSwitchGoroutine (gid : Z)
  | OpRequestManualStop
  | OpHalt
  | OpKill
  | OpDetach (kill : bool)
  | OpSetBreakpoint (addr : Z) (kind : BreakpointKind) (cond : option Expr)
  | OpClearBreakpoint (addr : Z)
  | OpClearInternalBreakpoints
  | OpUpdateThreadList (fuel : nat)
  | OpAllocLoadGInstr
  | OpSetPanicBreakpoint (panicpc : error + Z)
  | OpThreadStepInstruction (t : loc)
  | OpSetCurrentBreakpoint (t : loc)
  | OpSetPC (t : loc) (pc : Z)
  | OpReadMemory (addr : Z) (len : nat).

Definition run (op : Operation) : M unit :=
  match op with
  | OpContinueOnce fuel => ContinueOnce fuel;; ret tt
  | OpStepInstruction => StepInstruction;; ret tt
  | OpSwitchThread tid => SwitchThread tid;; ret tt
  | OpSwitchGoroutine gid => SwitchGoroutine gid;; ret tt
  | OpRequestManualStop => RequestManualStop;; ret tt
  | OpHalt => Halt;; ret tt
  | OpKill => Kill;; ret tt
  | OpDetach kill => Detach kill;; ret tt
  | OpSetBreakpoint addr kind cond => SetBreakpoint addr kind cond;; ret tt
  | OpClearBreakpoint addr => ClearBreakpoint addr;; ret tt
  | OpClearInternalBreakpoints => ClearInternalBreakpoints;; ret tt
  | OpUpdateThreadList fuel => updateThreadList fuel new_threadUpdater;; ret tt
  | OpAllocLoadGInstr => alloc_loadGInstr
  | OpSetPanicBreakpoint panicpc => set_panic_breakpoint panicpc
  | OpThreadStepInstruction t => thread_StepInstruction t;; ret tt
  | OpSetCurrentBreakpoint t => SetCurrentBreakpoint t;; ret tt
  | OpSetPC t pc => SetPC t pc;; ret tt
  | OpReadMemory addr len => conn_readMemory addr len;; ret tt
  end.

Fixpoint session (ops : list Operation) (p : GdbserverProcess W)
    : list (GdbserverProcess W) :=
  p :: match ops with
       | [] => []
       | op :: rest =>
           match run op p with
           | Done _ p' => session rest p'
           | Panicked | OutOfFuel => []
           end
       end.

End Engine.

Arguments M W A : clear implicits.

(** ** A simulated stub

    A small inferior with one thread and three registers, used to run the
    engine on concrete inputs: memory, a register file, the traps the stub
    holds, the stop replies it will give to [resume], and switches for the
    features a stub may lack.  [sim_writes_left] bounds the memory writes
    the link carries before it breaks. *)
Record sim : Type :=
  { sim_mem : gmap Z byte;
    sim_regs : list byte;
    sim_traps : gset Z;
    sim_replies : list StopReply;
    sim_thread_ids : list string;
    sim_g : Z;
    sim_gcmd : bool;
    sim_stopinfo : bool;
    sim_writes_left : option nat;
    sim_manual_stop : bool }.

Definition sim_layout : list gdbRegisterInfo :=
  [ {| ri_Name := "rax"; ri_Regnum := 0; ri_Offset := 0; ri_Bitsize := 64 |};
    {| ri_Name := "rcx"; ri_Regnum := 1; ri_Offset := 8; ri_Bitsize := 64 |};
    {| ri_Name := "rip"; ri_Regnum := 2; ri_Offset := 16; ri_Bitsize := 64 |} ].

Definition sim_with (s : sim) (mem : gmap Z byte) (rs : list byte) (traps : gset Z)
    (replies : list StopReply) (left : option nat) : sim :=
  {| sim_mem := mem; sim_regs := rs; sim_traps := traps; sim_replies := replies;
     sim_thread_ids := sim_thread_ids s; sim_g := sim_g s; sim_gcmd := sim_gcmd s;
     sim_stopinfo := sim_stopinfo s; sim_writes_left := left;
     sim_manual_stop := sim_manual_stop s |}.

Definition sim_set_mem (mem : gmap Z byte) (left : option nat) (s : sim) : sim :=
  sim_with s mem (sim_regs s) (sim_traps s) (sim_replies s) left.

Definition sim_set_regs (rs : list byte) (s : sim) : sim :=
  sim_with s (sim_mem s) rs (sim_traps s) (sim_replies s) (sim_writes_left s).

Definition sim_set_traps (traps : gset Z) (s : sim) : sim :=
  sim_with s (sim_mem s) (sim_regs s) traps (sim_replies s) (sim_writes_left s).

Definition sim_set_replies (replies : list StopReply) (s : sim) : sim :=
  sim_with s (sim_mem s) (sim_regs s) (sim_traps s) replies (sim_writes_left s).

Definition sim_peek (mem : gmap Z byte) (addr : Z) (len : nat) : list byte :=
  (fun i => default x00 (mem !! (addr + i))) <$> seqZ 0 (Z.of_nat len).

Definition sim_poke (mem : gmap Z byte) (addr : Z) (data : list byte) : gmap Z byte :=
  list_to_map (imap (fun i b => (addr + Z.of_nat i, b)) data) ∪ mem.

Definition sim_reg (rs : list byte) (n : Z) : list byte :=
  take 8 (drop (Z.to_nat (8 * n)) rs).

Definition sim_put_reg (rs : list byte) (n : Z) (data : list byte) : list byte :=
  take (Z.to_nat (8 * n)) rs ++ take 8 data ++ drop (Z.to_nat (8 * n) + 8) rs.

(** One instruction of the inferior, as far as the resolver cares: the
    [MOV] loads the G address into rcx and the PC moves past it. *)
Definition sim_execute (s : sim) : sim :=
  let rs := sim_put_reg (sim_regs s) 1 (le_encode 8 (sim_g s)) in
  let pc := le_decode (sim_reg rs 2) in
  sim_set_regs (sim_put_reg rs 2 (le_encode 8 (pc + 9))) s.

#[global] Instance sim_stub : Stub sim :=
  {| stub_resume := fun _ s =>
       match sim_replies s with
       | reply :: rest => (reply, sim_set_replies rest s)
       | [] => (StopFailed ConnectionClosedError, s)
       end;
     stub_step := fun tid s => (Stopped tid breakpointSignal None, sim_execute s);
     stub_setBreakpoint := fun addr s => (None, sim_set_traps ({[addr]} ∪ sim_traps s) s);
     stub_clearBreakpoint := fun addr s => (None, sim_set_traps (sim_traps s ∖ {[addr]}) s);
     stub_readRegisters := fun _ s =>
       if sim_gcmd s then (inr (sim_regs s), s) else (inl ProtocolErrorUnsupported, s);
     stub_readRegister := fun _ n s => (inr (sim_reg (sim_regs s) n), s);
     stub_writeRegisters := fun _ data s =>
       if sim_gcmd s then (None, sim_set_regs data s) else (Some ProtocolErrorUnsupported, s);
     stub_writeRegister := fun _ n data s => (None, sim_set_regs (sim_put_reg (sim_regs s) n data) s);
     stub_readMemory := fun addr len s => (inr (sim_peek (sim_mem s) addr len), s);
     stub_writeMemory := fun addr data s =>
       match sim_writes_left s with
       | Some O => (Some ConnectionClosedError, s)
       | Some (S n) => (None, sim_set_mem (sim_poke (sim_mem s) addr data) (Some n) s)
       | None => (None, sim_set_mem (sim_poke (sim_mem s) addr data) None s)
       end;
     stub_allocMemory := fun _ s => (inl ProtocolErrorUnsupported, s);
     stub_queryThreads := fun first s =>
       if first then (inr (sim_thread_ids s), s) else (inr [], s);
     stub_threadStopInfo := fun _ s =>
       if sim_stopinfo s then (inr (breakpointSignal, "breakpoint"), s)
       else (inl ProtocolErrorUnsupported, s);
     stub_kill := fun s => (None, s);
     stub_detach := fun s => (None, s);
     stub_sendCtrlC := fun s => (None, s);
     stub_interrupt := sim_manual_stop |}.

(** The collaborators of the simulation: maps are ranged over in key order,
    no goroutine is ever found and every condition holds. *)
#[global] Instance sim_runtime : Runtime sim :=
  {| range_order := fun _ _ l => l;
     range_order_perm := fun _ _ l => Permutation_refl l;
     GetG := fun _ p => (inl (errorString "no G"), stub (conn p));
     checkCondition := fun _ _ p => ((true, None), stub (conn p));
     FindGoroutine := fun _ p => (inr None, stub (conn p));
     sameGoroutineCondition := fun g => ExprSameGoroutine (g_ID g) |}.

Definition sim_conn (s : sim) : gdbConn sim :=
  {| pid := 42; isDebugserver := false; conn_regsInfo := sim_layout;
     stub := s; sent := [] |}.

Definition sim_bi : BinaryInfo :=
  {| goos := "linux"; BreakpointSize := 1; GStructOffset := 0xfffffffffffffff8;
     PCToLine := fun pc =>
       if (0x401000 <=? pc) && (0x402000 >? pc)
       then ("main.go", 10, Some {| fn_Name := "main.main" |})
       else (EmptyString, 0, None);
     PCToFunc := fun pc =>
       if (0x401000 <=? pc) && (0x402000 >? pc) then Some {| fn_Name := "main.main" |}
       else if (0x402000 <=? pc) && (0x403000 >? pc)
            then Some {| fn_Name := "runtime.futex" |}
       else None;
     bi_Close := None |}.

(** An inferior stopped at [pc], with the given value in rax and rcx. *)
Definition sim_at (pc rax rcx : Z) : sim :=
  {| sim_mem := ∅;
     sim_regs := le_encode 8 rax ++ le_encode 8 rcx ++ le_encode 8 pc;
     sim_traps := ∅; sim_replies := []; sim_thread_ids := ["1"]; sim_g := 0xc000000180;
     sim_gcmd := true; sim_stopinfo := true; sim_writes_left := None;
     sim_manual_stop := false |}.

Definition sim_process (s : sim) : GdbserverProcess sim :=
  new_GdbserverProcess (sim_conn s) sim_bi.

(** The register bank the engine builds for the simulated layout. *)
Definition sim_bank (rax rcx pc : Z) : gdbRegisters :=
  {| regs := regs_index sim_layout ∅; regsInfo := sim_layout;
     tls := 0; gaddr := 0; hasgaddr := false;
     buf := le_encode 8 rax ++ le_encode 8 rcx ++ le_encode 8 pc |}.

(** * Properties *)

(** ** Frame reasoning

    [preserves R m]: every finished run of [m] relates the process before
    to the process after by [R].  A preorder that the assignments of the
    engine respect is respected by the functions of the engine; the
    assignments come in three groups, so that a relation which only some of
    them respect still gets the functions that stay within those. *)
Section Frames.
Context {W : Type} `{!Stub W} `{!Runtime W}.
Local Open Scope engine_scope.

Definition preserves {A : Type} (R : relation (GdbserverProcess W)) (m : M W A) : Prop :=
  forall p a p', m p = Done a p' -> R p p'.

(** The connection, the threads and the flags of the run control. *)
Class FrameBase (R : relation (GdbserverProcess W)) : Prop :=
  { frame_preorder :: PreOrder R;
    frame_stub : forall p w, R p (set_conn (set_stub w (conn p)) p);
    frame_log : forall p k, R p (set_conn (log_packet k (conn p)) p);
    frame_thread_store : forall p v, R p (set_thread_store v p);
    frame_threads : forall p v, R p (set_threads v p);
    frame_currentThread : forall p v, R p (set_currentThread v p);
    frame_selectedGoroutine : forall p v, R p (set_selectedGoroutine v p);
    frame_exited : forall p, R p (set_exited true p);
    frame_ctrlC : forall p v, R p (set_ctrlC v p);
    frame_loadGInstrAddr : forall p v, R p (set_loadGInstrAddr v p);
    frame_allGCache : forall p v, R p (set_allGCache v p) }.

(** The two capability downgrades. *)
Class FrameFlags (R : relation (GdbserverProcess W)) : Prop :=
  { frame_gcmdok_false : forall p, R p (set_gcmdok false p);
    frame_threadStopInfo_false : forall p, R p (set_threadStopInfo false p) }.

(** The breakpoint table, its objects and its counters. *)
Class FrameBreakpointFields (R : relation (GdbserverProcess W)) : Prop :=
  { frame_breakpoint_store : forall p v, R p (set_breakpoint_store v p);
    frame_breakpoints : forall p v, R p (set_breakpoints v p);
    frame_breakpointIDCounter : forall p v, R p (set_breakpointIDCounter v p);
    frame_internalBreakpointIDCounter :
      forall p v, R p (set_internalBreakpointIDCounter v p) }.

(** The functions that assign to the breakpoint table. *)
Class FrameBreakpoints (R : relation (GdbserverProcess W)) : Prop :=
  { frame_SetBreakpoint : forall addr kind cond, preserves R (SetBreakpoint addr kind cond);
    frame_ClearBreakpoint : forall addr, preserves R (ClearBreakpoint addr);
    frame_SetCurrentBreakpoint : forall t, preserves R (SetCurrentBreakpoint t);
    frame_set_panic_breakpoint : forall panicpc, preserves R (set_panic_breakpoint panicpc) }.

(** [FrameBase] in parts: what the engine keeps for itself, the traffic
    with the stub, and the mark of an exited process. *)
Class FrameCore (R : relation (GdbserverProcess W)) : Prop :=
  { core_preorder :: PreOrder R;
    core_thread_store : forall p v, R p (set_thread_store v p);
    core_threads : forall p v, R p (set_threads v p);
    core_currentThread : forall p v, R p (set_currentThread v p);
    core_selectedGoroutine : forall p v, R p (set_selectedGoroutine v p);
    core_ctrlC : forall p v, R p (set_ctrlC v p);
    core_loadGInstrAddr : forall p v, R p (set_loadGInstrAddr v p);
    core_allGCache : forall p v, R p (set_allGCache v p) }.

Class FrameConn (R : relation (GdbserverProcess W)) : Prop :=
  { conn_stub : forall p w, R p (set_conn (set_stub w (conn p)) p);
    conn_log : forall p k, R p (set_conn (log_packet k (conn p)) p) }.

Class FrameExited (R : relation (GdbserverProcess W)) : Prop :=
  { exited_set : forall p, R p (set_exited true p) }.

#[global] Instance frame_base_core R : FrameBase R -> FrameCore R.
Proof.
  intros H. split;
    [ apply _ | apply frame_thread_store | apply frame_threads
    | apply frame_currentThread | apply frame_selectedGoroutine | apply frame_ctrlC
    | apply frame_loadGInstrAddr | apply frame_allGCache ].
Qed.

#[global] Instance frame_base_conn R : FrameBase R -> FrameConn R.
Proof. intros H. split; [apply frame_stub | apply frame_log]. Qed.

#[global] Instance frame_base_exited R : FrameBase R -> FrameExited R.
Proof. intros H. split. apply frame_exited. Qed.

Section Generic.
Context (R : relation (GdbserverProcess W)) `{!FrameCore R}.

Lemma preserves_ret {A : Type} (a : A) : preserves R (ret a).
Proof. intros p a' p' E. inversion E. reflexivity. Qed.

Lemma preserves_bind {A B : Type} (m : M W A) (f : A -> M W B) :
  preserves R m -> (forall a, preserves R (f a)) -> preserves R (bind m f).
Proof.
  intros Hm Hf p b p' E. unfold bind in E.
  destruct (m p) as [a p1| |] eqn:Em; try discriminate.
  transitivity p1; [eapply Hm | eapply Hf]; eassumption.
Qed.

Lemma preserves_gets {A : Type} (f : GdbserverProcess W -> A) : preserves R (gets f).
Proof. intros p a p' E. inversion E. reflexivity. Qed.

Lemma preserves_panic {A : Type} : preserves R (panic (A := A)).
Proof. intros p a p' E. discriminate. Qed.

Lemma preserves_out_of_fuel {A : Type} : preserves R (out_of_fuel (A := A)).
Proof. intros p a p' E. discriminate. Qed.

Lemma preserves_must {A : Type} (o : option A) : preserves R (must o).
Proof. destruct o; [apply preserves_ret | apply preserves_panic]. Qed.

Lemma preserves_modify (f : GdbserverProcess W -> GdbserverProcess W) :
  (forall p, R p (f p)) -> preserves R (modify f).
Proof. intros Hf p a p' E. inversion E. apply Hf. Qed.

Lemma preserves_consult `{!FrameConn R} {A : Type} (f : GdbserverProcess W -> A * W) :
  preserves R (consult f).
Proof.
  intros p a p' E. unfold consult in E. destruct (f p) as [a' w].
  inversion E. apply conn_stub.
Qed.

Lemma preserves_transact `{!FrameConn R} {A : Type} (k : Packet) (f : W -> A * W) :
  preserves R (transact k f).
Proof.
  intros p a p' E. unfold transact in E. destruct (f (stub (conn p))) as [a' w].
  inversion E.
  transitivity (set_conn (log_packet k (conn p)) p); [apply conn_log|].
  apply (conn_stub (set_conn (log_packet k (conn p)) p) w).
Qed.

Lemma preserves_go_range {A : Type} (m : GdbserverProcess W -> gmap Z A) :
  preserves R (go_range m).
Proof. intros p a p' E. inversion E. reflexivity. Qed.

End Generic.
End Frames.

Ltac frame_field :=
  first
    [ apply conn_stub | apply conn_log | apply core_thread_store
    | apply core_threads | apply core_currentThread
    | apply core_selectedGoroutine | apply exited_set | apply core_ctrlC
    | apply frame_breakpoint_store | apply frame_breakpoints
    | apply frame_breakpointIDCounter | apply frame_internalBreakpointIDCounter
    | apply frame_gcmdok_false | apply frame_threadStopInfo_false
    | apply core_loadGInstrAddr | apply core_allGCache ].

Ltac frame_side :=
  intros; cbv beta zeta;
  repeat first
    [ reflexivity | solve [ apply _ ] | frame_field
    | (etransitivity; [ | frame_field ]) ].

Create HintDb frame.

#[global] Hint Extern 1 (FrameBase _) => solve [ apply _ ] : frame.
#[global] Hint Extern 1 (FrameCore _) => solve [ apply _ ] : frame.
#[global] Hint Extern 1 (FrameConn _) => solve [ apply _ ] : frame.
#[global] Hint Extern 1 (FrameExited _) => solve [ apply _ ] : frame.
#[global] Hint Extern 1 (FrameFlags _) => solve [ apply _ ] : frame.
#[global] Hint Extern 1 (FrameBreakpointFields _) => solve [ apply _ ] : frame.
#[global] Hint Extern 1 (FrameBreakpoints _) => solve [ apply _ ] : frame.

Ltac frame :=
  repeat match goal with
  | |- FrameBase _ => solve [ apply _ ]
  | |- FrameCore _ => solve [ apply _ ]
  | |- FrameConn _ => solve [ apply _ ]
  | |- FrameExited _ => solve [ apply _ ]
  | |- FrameFlags _ => solve [ apply _ ]
  | |- FrameBreakpointFields _ => solve [ apply _ ]
  | |- FrameBreakpoints _ => solve [ apply _ ]
  | |- preserves _ _ => solve [ eauto 3 with frame ]
  | |- preserves _ (ret _) => apply preserves_ret
  | |- preserves _ (bind _ _) =>
      apply preserves_bind; try solve [ apply _ ]; [ | intros ? ]
  | |- preserves _ (gets _) => apply preserves_gets
  | |- preserves _ panic => apply preserves_panic
  | |- preserves _ out_of_fuel => apply preserves_out_of_fuel
  | |- preserves _ (must _) => apply preserves_must
  | |- preserves _ (modify _) => apply preserves_modify; solve [ frame_side ]
  | |- preserves _ (consult _) => apply preserves_consult
  | |- preserves _ (transact _ _) => apply preserves_transact
  | |- preserves _ (go_range _) => apply preserves_go_range
  | |- preserves _ (SetBreakpoint _ _ _) => apply frame_SetBreakpoint
  | |- preserves _ (ClearBreakpoint _) => apply frame_ClearBreakpoint
  | |- preserves _ (SetCurrentBreakpoint _) => apply frame_SetCurrentBreakpoint
  | |- preserves _ (set_panic_breakpoint _) => apply frame_set_panic_breakpoint
  | |- preserves _ (match ?x with _ => _ end) => destruct x
  end.

Section FrameLoops.
Context {W : Type} `{!Stub W} `{!Runtime W}.
Context (R : relation (GdbserverProcess W)) `{!FrameCore R}.

Lemma frame_each {A : Type} (body : A -> M W (option error)) (l : list A) :
  (forall a, preserves R (body a)) -> preserves R (each body l).
Proof. intros Hbody. induction l as [|a rest IH]; simpl; frame. Qed.

Lemma frame_each_thread (body : loc -> M W (option error)) (entries : list (Z * loc)) :
  (forall t, preserves R (body t)) -> preserves R (each_thread body entries).
Proof. intros Hbody. induction entries as [|[tid t] rest IH]; simpl; frame. Qed.

End FrameLoops.

Ltac frame_all :=
  repeat first
    [ progress frame
    | match goal with
      | |- preserves _ (each _ _) =>
          apply frame_each; try solve [ apply _ ]; intros ?
      | |- preserves _ (each_thread _ _) =>
          apply frame_each_thread; try solve [ apply _ ]; intros ?
      end ].

Section FrameFunctions.
Context {W : Type} `{!Stub W} `{!Runtime W}.
Context (R : relation (GdbserverProcess W)) `{!FrameCore R}.
Local Open Scope engine_scope.

Lemma frame_thread t : preserves R (thread t).
Proof. unfold thread. frame. Qed.
#[local] Hint Resolve frame_thread : frame.

Lemma frame_put_thread t th : preserves R (put_thread t th).
Proof. unfold put_thread. frame. Qed.
#[local] Hint Resolve frame_put_thread : frame.

Lemma frame_thread_regs t : preserves R (thread_regs t).
Proof. unfold thread_regs. frame. Qed.
#[local] Hint Resolve frame_thread_regs : frame.

Lemma frame_put_regs t r : preserves R (put_regs t r).
Proof. unfold put_regs. frame. Qed.
#[local] Hint Resolve frame_put_regs : frame.

Lemma frame_regs_PC t : preserves R (regs_PC t).
Proof. unfold regs_PC. frame. Qed.
#[local] Hint Resolve frame_regs_PC : frame.

Lemma frame_regs_CX t : preserves R (regs_CX t).
Proof. unfold regs_CX. frame. Qed.
#[local] Hint Resolve frame_regs_CX : frame.

Lemma frame_regs_setPC t v : preserves R (regs_setPC t v).
Proof. unfold regs_setPC. frame. Qed.
#[local] Hint Resolve frame_regs_setPC : frame.

Lemma frame_regs_setCX t v : preserves R (regs_setCX t v).
Proof. unfold regs_setCX. frame. Qed.
#[local] Hint Resolve frame_regs_setCX : frame.

Lemma frame_Add_loop sn ids : preserves R (Add_loop sn ids).
Proof. revert sn. induction ids as [|threadID rest IH]; intros sn; simpl; frame. Qed.
#[local] Hint Resolve frame_Add_loop : frame.

Lemma frame_Add tu ids : preserves R (Add tu ids).
Proof. unfold Add. frame. Qed.
#[local] Hint Resolve frame_Add : frame.

Lemma frame_Finish_loop sn entries : preserves R (Finish_loop sn entries).
Proof. induction entries as [|[threadID t] rest IH]; simpl; frame. Qed.
#[local] Hint Resolve frame_Finish_loop : frame.

Lemma frame_Finish tu : preserves R (Finish tu).
Proof. unfold Finish. frame. Qed.
#[local] Hint Resolve frame_Finish : frame.

Lemma frame_absorb_threads tu inlined : preserves R (absorb_threads tu inlined).
Proof. unfold absorb_threads. frame. Qed.
#[local] Hint Resolve frame_absorb_threads : frame.

Lemma frame_conn_sendCtrlC `{!FrameConn R} : preserves R conn_sendCtrlC.
Proof. unfold conn_sendCtrlC. frame. Qed.
#[local] Hint Resolve frame_conn_sendCtrlC : frame.

Lemma frame_RequestManualStop `{!FrameConn R} : preserves R RequestManualStop.
Proof. unfold RequestManualStop. frame. Qed.
#[local] Hint Resolve frame_RequestManualStop : frame.

Lemma frame_conn_setBreakpoint `{!FrameConn R} addr : preserves R (conn_setBreakpoint addr).
Proof. unfold conn_setBreakpoint. frame. Qed.
#[local] Hint Resolve frame_conn_setBreakpoint : frame.

Lemma frame_conn_clearBreakpoint `{!FrameConn R} addr : preserves R (conn_clearBreakpoint addr).
Proof. unfold conn_clearBreakpoint. frame. Qed.
#[local] Hint Resolve frame_conn_clearBreakpoint : frame.

Lemma frame_conn_readRegisters `{!FrameConn R} tid : preserves R (conn_readRegisters tid).
Proof. unfold conn_readRegisters. frame. Qed.
#[local] Hint Resolve frame_conn_readRegisters : frame.

Lemma frame_conn_readRegister `{!FrameConn R} tid n : preserves R (conn_readRegister tid n).
Proof. unfold conn_readRegister. frame. Qed.
#[local] Hint Resolve frame_conn_readRegister : frame.

Lemma frame_conn_writeRegisters `{!FrameConn R} tid data : preserves R (conn_writeRegisters tid data).
Proof. unfold conn_writeRegisters. frame. Qed.
#[local] Hint Resolve frame_conn_writeRegisters : frame.

Lemma frame_conn_writeRegister `{!FrameConn R} tid n data : preserves R (conn_writeRegister tid n data).
Proof. unfold conn_writeRegister. frame. Qed.
#[local] Hint Resolve frame_conn_writeRegister : frame.

Lemma frame_conn_readMemory `{!FrameConn R} addr len : preserves R (conn_readMemory addr len).
Proof. unfold conn_readMemory. frame. Qed.
#[local] Hint Resolve frame_conn_readMemory : frame.

Lemma frame_conn_allocMemory `{!FrameConn R} size : preserves R (conn_allocMemory size).
Proof. unfold conn_allocMemory. frame. Qed.
#[local] Hint Resolve frame_conn_allocMemory : frame.

Lemma frame_conn_writeMemory `{!FrameConn R} addr data : preserves R (conn_writeMemory addr data).
Proof. unfold conn_writeMemory. frame. Qed.
#[local] Hint Resolve frame_conn_writeMemory : frame.

Lemma frame_conn_queryThreads `{!FrameConn R} first : preserves R (conn_queryThreads first).
Proof. unfold conn_queryThreads. frame. Qed.
#[local] Hint Resolve frame_conn_queryThreads : frame.

Lemma frame_conn_threadStopInfo `{!FrameConn R} tid : preserves R (conn_threadStopInfo tid).
Proof. unfold conn_threadStopInfo. frame. Qed.
#[local] Hint Resolve frame_conn_threadStopInfo : frame.

Lemma frame_conn_kill `{!FrameConn R} : preserves R conn_kill.
Proof. unfold conn_kill. frame. Qed.
#[local] Hint Resolve frame_conn_kill : frame.

Lemma frame_conn_detach `{!FrameConn R} : preserves R conn_detach.
Proof. unfold conn_detach. frame. Qed.
#[local] Hint Resolve frame_conn_detach : frame.

Lemma frame_conn_resume `{!FrameConn R} sig tu : preserves R (conn_resume sig tu).
Proof. unfold conn_resume. frame. Qed.
#[local] Hint Resolve frame_conn_resume : frame.

Lemma frame_conn_step `{!FrameConn R} threadID tu : preserves R (conn_step threadID tu).
Proof. unfold conn_step. frame. Qed.
#[local] Hint Resolve frame_conn_step : frame.

Lemma frame_readRegisters_buf `{!FrameConn R} t : preserves R (readRegisters_buf t).
Proof. unfold readRegisters_buf. frame. Qed.
#[local] Hint Resolve frame_readRegisters_buf : frame.

Lemma frame_readRegister_named `{!FrameConn R} t name : preserves R (readRegister_named t name).
Proof. unfold readRegister_named. frame. Qed.
#[local] Hint Resolve frame_readRegister_named : frame.

Lemma frame_writeRegister_named `{!FrameConn R} t name : preserves R (writeRegister_named t name).
Proof. unfold writeRegister_named. frame. Qed.
#[local] Hint Resolve frame_writeRegister_named : frame.

Lemma frame_writeSomeRegisters `{!FrameConn R} t regNames : preserves R (writeSomeRegisters t regNames).
Proof. unfold writeSomeRegisters. frame_all. Qed.
#[local] Hint Resolve frame_writeSomeRegisters : frame.

Lemma frame_readSomeRegisters `{!FrameConn R} t regNames : preserves R (readSomeRegisters t regNames).
Proof. unfold readSomeRegisters. frame_all. Qed.
#[local] Hint Resolve frame_readSomeRegisters : frame.

Lemma frame_loadGInstr : preserves R loadGInstr.
Proof. unfold loadGInstr. frame_all. Qed.
#[local] Hint Resolve frame_loadGInstr : frame.

Lemma frame_gdbserverThreadBlocked t : preserves R (gdbserverThreadBlocked t).
Proof. unfold gdbserverThreadBlocked. frame_all. Qed.
#[local] Hint Resolve frame_gdbserverThreadBlocked : frame.

Lemma frame_no_G t : preserves R (no_G t).
Proof. unfold no_G. frame_all. Qed.
#[local] Hint Resolve frame_no_G : frame.

Lemma frame_record_G t : preserves R (record_G t).
Proof. unfold record_G. frame_all. Qed.
#[local] Hint Resolve frame_record_G : frame.

Lemma frame_clear_under `{!FrameConn R} pc n entries pushed : preserves R (clear_under pc n entries pushed).
Proof. revert pushed. induction entries as [|[addr b] rest IH]; intros pushed; simpl; frame. Qed.
#[local] Hint Resolve frame_clear_under : frame.

Lemma frame_run_deferred_setBreakpoint `{!FrameConn R} pushed : preserves R (run_deferred_setBreakpoint pushed).
Proof. induction pushed as [|addr rest IH]; simpl; frame. Qed.
#[local] Hint Resolve frame_run_deferred_setBreakpoint : frame.

Lemma frame_restore_at_pc `{!FrameConn R} t pc cx savedcode : preserves R (restore_at_pc t pc cx savedcode).
Proof. unfold restore_at_pc. frame_all. Qed.
#[local] Hint Resolve frame_restore_at_pc : frame.

Lemma frame_step_and_read `{!FrameConn R} t regNames : preserves R (step_and_read t regNames).
Proof. unfold step_and_read. frame_all. Qed.
#[local] Hint Resolve frame_step_and_read : frame.

Lemma frame_reloadGAtPC `{!FrameConn R} t : preserves R (reloadGAtPC t).
Proof. unfold reloadGAtPC. frame_all. Qed.
#[local] Hint Resolve frame_reloadGAtPC : frame.

Lemma frame_restore_registers `{!FrameConn R} t pc cx : preserves R (restore_registers t pc cx).
Proof. unfold restore_registers. frame_all. Qed.
#[local] Hint Resolve frame_restore_registers : frame.

Lemma frame_reloadGAlloc `{!FrameConn R} t : preserves R (reloadGAlloc t).
Proof. unfold reloadGAlloc. frame_all. Qed.
#[local] Hint Resolve frame_reloadGAlloc : frame.

Lemma frame_init_regs t : preserves R (init_regs t).
Proof. unfold init_regs. frame_all. Qed.
#[local] Hint Resolve frame_init_regs : frame.

Lemma frame_readRegister_info `{!FrameConn R} t reginfo : preserves R (readRegister_info t reginfo).
Proof. unfold readRegister_info. frame_all. Qed.
#[local] Hint Resolve frame_readRegister_info : frame.

Lemma frame_reloadRegisters `{!FrameConn R} `{!FrameFlags R} t : preserves R (reloadRegisters t).
Proof. unfold reloadRegisters. frame_all. Qed.
#[local] Hint Resolve frame_reloadRegisters : frame.

Lemma frame_stepInstruction `{!FrameConn R} t tu : preserves R (stepInstruction t tu).
Proof. unfold stepInstruction. frame_all. Qed.
#[local] Hint Resolve frame_stepInstruction : frame.

Lemma frame_thread_StepInstruction `{!FrameConn R} `{!FrameFlags R} t : preserves R (thread_StepInstruction t).
Proof. unfold thread_StepInstruction. frame_all. Qed.
#[local] Hint Resolve frame_thread_StepInstruction : frame.

Lemma frame_clearBreakpointState t : preserves R (clearBreakpointState t).
Proof. unfold clearBreakpointState. frame_all. Qed.
#[local] Hint Resolve frame_clearBreakpointState : frame.

Lemma frame_breakpoint b : preserves R (breakpoint b).
Proof. unfold breakpoint. frame_all. Qed.
#[local] Hint Resolve frame_breakpoint : frame.

Lemma frame_FindBreakpoint pc : preserves R (FindBreakpoint pc).
Proof. unfold FindBreakpoint. frame_all. Qed.
#[local] Hint Resolve frame_FindBreakpoint : frame.

Lemma frame_SetPC `{!FrameConn R} t pc : preserves R (SetPC t pc).
Proof. unfold SetPC. frame_all. Qed.
#[local] Hint Resolve frame_SetPC : frame.

Lemma frame_clear_internal `{!FrameBreakpoints R} entries : preserves R (clear_internal entries).
Proof. induction entries as [|[addr b] rest IH]; simpl; frame. Qed.
#[local] Hint Resolve frame_clear_internal : frame.

Lemma frame_drop_internal_current t : preserves R (drop_internal_current t).
Proof. unfold drop_internal_current. frame_all. Qed.
#[local] Hint Resolve frame_drop_internal_current : frame.

Lemma frame_ClearInternalBreakpoints `{!FrameBreakpoints R} : preserves R ClearInternalBreakpoints.
Proof. unfold ClearInternalBreakpoints. frame_all. Qed.
#[local] Hint Resolve frame_ClearInternalBreakpoints : frame.

Lemma frame_query_loop `{!FrameConn R} fuel first tu : preserves R (query_loop fuel first tu).
Proof. revert first tu. induction fuel as [|fuel IH]; intros first tu; simpl; frame. Qed.
#[local] Hint Resolve frame_query_loop : frame.

Lemma frame_stop_info_loop `{!FrameConn R} `{!FrameFlags R} entries : preserves R (stop_info_loop entries).
Proof. induction entries as [|[tid t] rest IH]; simpl; frame. Qed.
#[local] Hint Resolve frame_stop_info_loop : frame.

Lemma frame_updateThreadList `{!FrameConn R} `{!FrameFlags R} fuel tu : preserves R (updateThreadList fuel tu).
Proof. unfold updateThreadList. frame_all. Qed.
#[local] Hint Resolve frame_updateThreadList : frame.

Lemma frame_setCurrentBreakpoints `{!FrameBreakpoints R} : preserves R setCurrentBreakpoints.
Proof. unfold setCurrentBreakpoints. frame_all. Qed.
#[local] Hint Resolve frame_setCurrentBreakpoints : frame.

Lemma frame_continueLoop `{!FrameConn R} `{!FrameExited R} fuel sig tu : preserves R (continueLoop fuel sig tu).
Proof. revert sig tu. induction fuel as [|fuel IH]; intros sig tu; simpl; frame. Qed.
#[local] Hint Resolve frame_continueLoop : frame.

Lemma frame_find_thread threadID entries : preserves R (find_thread threadID entries).
Proof. induction entries as [|[tid t] rest IH]; simpl; frame. Qed.
#[local] Hint Resolve frame_find_thread : frame.

Lemma frame_refuse_exited : preserves R refuse_exited.
Proof. unfold refuse_exited. frame_all. Qed.
#[local] Hint Resolve frame_refuse_exited : frame.

Lemma frame_ContinueOnce `{!FrameConn R} `{!FrameExited R} `{!FrameFlags R} `{!FrameBreakpoints R} fuel : preserves R (ContinueOnce fuel).
Proof. unfold ContinueOnce. frame_all. Qed.
#[local] Hint Resolve frame_ContinueOnce : frame.

Lemma frame_StepInstruction `{!FrameConn R} `{!FrameFlags R} `{!FrameBreakpoints R} : preserves R StepInstruction.
Proof. unfold StepInstruction. frame_all. Qed.
#[local] Hint Resolve frame_StepInstruction : frame.

Lemma frame_SwitchThread `{!FrameConn R} tid : preserves R (SwitchThread tid).
Proof. unfold SwitchThread. frame_all. Qed.
#[local] Hint Resolve frame_SwitchThread : frame.

Lemma frame_SwitchGoroutine `{!FrameConn R} gid : preserves R (SwitchGoroutine gid).
Proof. unfold SwitchGoroutine. frame_all. Qed.
#[local] Hint Resolve frame_SwitchGoroutine : frame.

Lemma frame_Halt `{!FrameConn R} : preserves R Halt.
Proof. unfold Halt. frame_all. Qed.
#[local] Hint Resolve frame_Halt : frame.

Lemma frame_Kill `{!FrameConn R} `{!FrameExited R} : preserves R Kill.
Proof. unfold Kill. frame_all. Qed.
#[local] Hint Resolve frame_Kill : frame.

Lemma frame_Detach `{!FrameConn R} `{!FrameExited R} kill : preserves R (Detach kill).
Proof. unfold Detach. frame_all. Qed.
#[local] Hint Resolve frame_Detach : frame.

Lemma frame_Exited : preserves R Exited.
Proof. unfold Exited. frame_all. Qed.
#[local] Hint Resolve frame_Exited : frame.

Lemma frame_Breakpoints : preserves R Breakpoints.
Proof. unfold Breakpoints. frame_all. Qed.
#[local] Hint Resolve frame_Breakpoints : frame.

Lemma frame_alloc_loadGInstr `{!FrameConn R} : preserves R alloc_loadGInstr.
Proof. unfold alloc_loadGInstr. frame_all. Qed.
#[local] Hint Resolve frame_alloc_loadGInstr : frame.

(** A relation that the assignments to the breakpoint table respect is
    respected by the functions that make them. *)
Lemma frame_put_breakpoint `{!FrameBreakpointFields R} b bp : preserves R (put_breakpoint b bp).
Proof. unfold put_breakpoint. frame. Qed.
#[local] Hint Resolve frame_put_breakpoint : frame.

#[global] Instance frame_fields_breakpoints `{!FrameConn R} `{!FrameBreakpointFields R} :
  FrameBreakpoints R.
Proof.
  split; intros.
  - unfold SetBreakpoint. frame.
  - unfold ClearBreakpoint. frame.
  - unfold SetCurrentBreakpoint. frame.
  - unfold set_panic_breakpoint. frame.
    unfold SetBreakpoint. frame.
Qed.

Lemma frame_run `{!FrameConn R} `{!FrameExited R} `{!FrameFlags R} `{!FrameBreakpoints R} op :
  preserves R (run op).
Proof. destruct op; simpl; frame_all. Qed.

End FrameFunctions.

#[global] Hint Resolve
  frame_thread frame_put_thread frame_thread_regs frame_put_regs frame_regs_PC
  frame_regs_CX frame_regs_setPC frame_regs_setCX frame_Add_loop frame_Add
  frame_Finish_loop frame_Finish frame_absorb_threads frame_conn_sendCtrlC
  frame_RequestManualStop frame_conn_setBreakpoint frame_conn_clearBreakpoint
  frame_conn_readRegisters frame_conn_readRegister frame_conn_writeRegisters
  frame_conn_writeRegister frame_conn_readMemory frame_conn_allocMemory
  frame_conn_writeMemory frame_conn_queryThreads frame_conn_threadStopInfo
  frame_conn_kill frame_conn_detach frame_conn_resume frame_conn_step
  frame_readRegisters_buf frame_readRegister_named frame_writeRegister_named
  frame_writeSomeRegisters frame_readSomeRegisters frame_loadGInstr
  frame_gdbserverThreadBlocked frame_no_G frame_record_G frame_clear_under
  frame_run_deferred_setBreakpoint frame_restore_at_pc frame_step_and_read
  frame_reloadGAtPC frame_restore_registers frame_reloadGAlloc frame_init_regs
  frame_readRegister_info frame_reloadRegisters frame_stepInstruction
  frame_thread_StepInstruction frame_clearBreakpointState frame_breakpoint
  frame_FindBreakpoint frame_SetPC frame_clear_internal
  frame_drop_internal_current frame_ClearInternalBreakpoints frame_query_loop
  frame_stop_info_loop frame_updateThreadList frame_setCurrentBreakpoints
  frame_continueLoop frame_find_thread frame_refuse_exited frame_ContinueOnce
  frame_StepInstruction frame_SwitchThread frame_SwitchGoroutine frame_Halt
  frame_Kill frame_Detach frame_Exited frame_Breakpoints
  frame_alloc_loadGInstr frame_put_breakpoint frame_run
  : frame.

(* end of frame reasoning *)

(** ** The capability flags only go down *)
Section Capabilities.
Context {W : Type} `{!Stub W} `{!Runtime W}.

(** A flag that is set after was set before. *)
Definition downgrades_only (p p' : GdbserverProcess W) : Prop :=
  (gcmdok p' = true -> gcmdok p = true)
  /\ (threadStopInfo p' = true -> threadStopInfo p = true).

#[local] Instance downgrades_only_base : FrameBase downgrades_only.
Proof.
  split.
  - split.
    + intros p. split; auto.
    + intros p q r [H1 H2] [H3 H4]. split; auto.
  - intros; split; simpl; auto.
  - intros; split; simpl; auto.
  - intros; split; simpl; auto.
  - intros; split; simpl; auto.
  - intros; split; simpl; auto.
  - intros; split; simpl; auto.
  - intros; split; simpl; auto.
  - intros; split; simpl; auto.
  - intros; split; simpl; auto.
  - intros; split; simpl; auto.
Qed.

#[local] Instance downgrades_only_flags : FrameFlags downgrades_only.
Proof. split; intros; split; simpl; auto; discriminate. Qed.

#[local] Instance downgrades_only_breakpoints : FrameBreakpointFields downgrades_only.
Proof. split; intros; split; simpl; auto. Qed.





End Capabilities.

(** ** The continue loop *)
Section ContinueLoop.
Context {W : Type} `{!Stub W} `{!Runtime W}.
Local Open Scope engine_scope.

(** The log of requests only grows. *)
Definition log_grows (p p' : GdbserverProcess W) : Prop :=
  sent (conn p) `prefix_of` sent (conn p').

#[local] Instance log_grows_base : FrameBase log_grows.
Proof.
  split.
  - split.
    + intros p. unfold log_grows. reflexivity.
    + intros p q r. unfold log_grows. intros H1 H2. by transitivity (sent (conn q)).
  - intros. unfold log_grows. simpl. reflexivity.
  - intros. unfold log_grows. simpl. by apply prefix_app_r.
  - intros. unfold log_grows. simpl. reflexivity.
  - intros. unfold log_grows. simpl. reflexivity.
  - intros. unfold log_grows. simpl. reflexivity.
  - intros. unfold log_grows. simpl. reflexivity.
  - intros. unfold log_grows. simpl. reflexivity.
  - intros. unfold log_grows. simpl. reflexivity.
  - intros. unfold log_grows. simpl. reflexivity.
  - intros. unfold log_grows. simpl. reflexivity.
Qed.

#[local] Instance log_grows_flags : FrameFlags log_grows.
Proof. split; intros; unfold log_grows; simpl; reflexivity. Qed.

#[local] Instance log_grows_breakpoints : FrameBreakpointFields log_grows.
Proof. split; intros; unfold log_grows; simpl; reflexivity. Qed.

(** The decision of the [switch], case by case. *)
Lemma leaves_loop_spec (sig : Z) (c d : bool) :
  leaves_loop sig c d = true <->
    (sig = 0x2 /\ c = true) \/ sig = 0x5 \/ sig = 0x13
    \/ 0x91 <= sig <= 0x96 \/ (sig = 0x11 /\ d = true).
Proof.
  unfold leaves_loop, interruptSignal, breakpointSignal, childSignal, stopSignal.
  repeat case_decide; destruct c, d; split; intros; try done; try lia;
    intuition (try discriminate; try lia).
Qed.

(** A run of the loop starts by sending the resume request with the signal
    it was handed. *)
Lemma bind_assoc {A B C : Type} (m : M W A) (f : A -> M W B) (g : B -> M W C) p :
  bind (bind m f) g p = bind m (fun a => bind (f a) g) p.
Proof. unfold bind. destruct (m p); reflexivity. Qed.

Lemma bind_modify {A : Type} (f : GdbserverProcess W -> GdbserverProcess W)
    (k : unit -> M W A) p :
  bind (modify f) k p = k tt (f p).
Proof. reflexivity. Qed.

Lemma continueLoop_first_request fuel sig tu p r p2 :
  continueLoop fuel sig tu p = Done r p2 ->
  exists rest, sent (conn p2) = sent (conn p) ++ PktResume sig :: rest.
Proof.
  destruct fuel as [|fuel]; [discriminate|].
  cbn [continueLoop]. unfold conn_resume.
  rewrite bind_assoc, bind_modify. intros E.
  assert (Hq : log_grows (set_conn (log_packet (PktResume sig) (conn p)) p) p2).
  { match type of E with
    | ?m ?q = Done r p2 => assert (Hm : preserves log_grows m)
    end.
    { frame_all. }
    exact (Hm _ r p2 E). }
  destruct Hq as [k Hk]. exists k. rewrite Hk. simpl.
  by rewrite <- app_assoc.
Qed.

(** C2.  Once [resume] has answered with a signal, what the loop does is a
    function of the signal, of [ctrlC] and of [isDebugserver]: it leaves on
    0x2 iff [ctrlC] is set, always on 0x5, 0x13 and 0x91..0x96, on 0x11 iff
    the stub is debugserver; on any other signal it goes round again and
    the next request it sends is the resume with that signal. *)
Theorem continue_loop_decision_C2
    (fuel : nat) (sig0 : Z) (tu : threadUpdater) (p : GdbserverProcess W)
    (threadID : string) (sig : Z) (tu' : option threadUpdater)
    (p1 : GdbserverProcess W) :
  conn_resume sig0 (Some {| seen := seen tu; done := false |}) p
    = Done (threadID, sig, None, tu') p1 ->
  let tu1 := default {| seen := seen tu; done := false |} tu' in
  let leaves := leaves_loop sig (ctrlC p1) (isDebugserver (conn p1)) in
  (leaves = true <->
     (sig = 0x2 /\ ctrlC p1 = true) \/ sig = 0x5 \/ sig = 0x13
     \/ 0x91 <= sig <= 0x96 \/ (sig = 0x11 /\ isDebugserver (conn p1) = true))
  /\ (leaves = true ->
      continueLoop (S fuel) sig0 tu p = Done (inr (threadID, tu1)) p1)
  /\ (leaves = false ->
      continueLoop (S fuel) sig0 tu p = continueLoop fuel sig tu1 p1
      /\ forall r p2, continueLoop fuel sig tu1 p1 = Done r p2 ->
           exists rest, sent (conn p2) = sent (conn p1) ++ PktResume sig :: rest).
Proof.
  intros E tu1 leaves. split; [apply leaves_loop_spec|].
  assert (Hloop : continueLoop (S fuel) sig0 tu p
                  = if leaves then Done (inr (threadID, tu1)) p1
                    else continueLoop fuel sig tu1 p1).
  { cbn [continueLoop]. unfold bind at 1. rewrite E.
    unfold bind, gets, ret. subst leaves tu1.
    destruct (leaves_loop sig (ctrlC p1) (isDebugserver (conn p1))); reflexivity. }
  split.
  - intros Hl. by rewrite Hloop, Hl.
  - intros Hl. split; [by rewrite Hloop, Hl|].
    intros r p2. apply continueLoop_first_request.
Qed.

End ContinueLoop.

(** ** The breakpoint table *)

Ltac run_engine :=
  repeat progress
    (unfold bind, ret, gets, modify, must, panic, out_of_fuel, consult, transact,
       go_range in *).

Section BreakpointTable.
Context {W : Type} `{!Stub W} `{!Runtime W}.
Local Open Scope engine_scope.

(** What a finished [SetBreakpoint] has done. *)
Lemma SetBreakpoint_cases p addr kind cond r err p' :
  SetBreakpoint addr kind cond p = Done (r, err) p' ->
  match err with
  | Some _ =>
      r = None /\ breakpoints p' = breakpoints p
      /\ breakpoint_store p' = breakpoint_store p
  | None =>
      exists b, r = Some b
        /\ breakpoints p !! addr = None
        /\ breakpoints p' = <[addr := b]> (breakpoints p)
        /\ (stub_setBreakpoint addr (stub (conn p))).1 = None
        /\ sent (conn p') = sent (conn p) ++ [PktSetBreakpoint addr]
  end.
Proof.
  unfold SetBreakpoint, breakpoint, put_breakpoint, conn_setBreakpoint. run_engine.
  intros E.
  destruct (breakpoints p !! addr) as [b|] eqn:Hb.
  - destruct (breakpoint_store p !! b); simplify_eq. done.
  - destruct (PCToLine (bi p) addr) as [[f l] [fn|]]; simplify_eq; [|done].
    destruct (decide (kind <> UserBreakpoint)); simpl in E.
    + destruct (stub_setBreakpoint addr (stub (conn p))) as [[e|] w] eqn:Hs;
        simpl in E; simplify_eq; simpl; [done|].
      eexists; repeat split; done.
    + destruct (stub_setBreakpoint addr (stub (conn p))) as [[e|] w] eqn:Hs;
        simpl in E; simplify_eq; simpl; [done|].
      eexists; repeat split; done.
Qed.

(** What a finished [ClearBreakpoint] has done. *)
Lemma ClearBreakpoint_cases p addr r err p' :
  ClearBreakpoint addr p = Done (r, err) p' ->
  match err with
  | Some _ =>
      r = None /\ breakpoints p' = breakpoints p
      /\ breakpoint_store p' = breakpoint_store p
  | None =>
      exists b, r = Some b
        /\ breakpoints p !! addr = Some b
        /\ breakpoints p' = delete addr (breakpoints p)
        /\ (stub_clearBreakpoint addr (stub (conn p))).1 = None
        /\ sent (conn p') = sent (conn p) ++ [PktClearBreakpoint addr]
  end.
Proof.
  unfold ClearBreakpoint, conn_clearBreakpoint. run_engine. intros E.
  destruct (exited p); simplify_eq; [done|].
  destruct (breakpoints p !! addr) as [b|] eqn:Hb; simplify_eq; [|done].
  destruct (stub_clearBreakpoint addr (stub (conn p))) as [[e|] w] eqn:Hs;
    simpl in E; simplify_eq; simpl; [done|].
  eexists; repeat split; done.
Qed.

(** C10.  [SetBreakpoint] and [ClearBreakpoint] change the breakpoint table
    all or nothing: a call that returns an error leaves the table (and the
    breakpoint objects) as they were; an entry is added only once the stub
    has accepted the [Z0] request, and removed only once it has accepted
    the [z0] request. *)
Theorem breakpoint_table_atomic_C10
    (p : GdbserverProcess W) (addr : Z) (kind : BreakpointKind) (cond : option Expr)
    (r : option loc) (err : option error) (p' : GdbserverProcess W) :
  (SetBreakpoint addr kind cond p = Done (r, err) p' ->
   match err with
   | Some _ =>
       r = None /\ breakpoints p' = breakpoints p
       /\ breakpoint_store p' = breakpoint_store p
   | None =>
       exists b, r = Some b
         /\ breakpoints p !! addr = None
         /\ breakpoints p' = <[addr := b]> (breakpoints p)
         /\ (stub_setBreakpoint addr (stub (conn p))).1 = None
         /\ sent (conn p') = sent (conn p) ++ [PktSetBreakpoint addr]
   end)
  /\ (ClearBreakpoint addr p = Done (r, err) p' ->
      match err with
      | Some _ =>
          r = None /\ breakpoints p' = breakpoints p
          /\ breakpoint_store p' = breakpoint_store p
      | None =>
          exists b, r = Some b
            /\ breakpoints p !! addr = Some b
            /\ breakpoints p' = delete addr (breakpoints p)
            /\ (stub_clearBreakpoint addr (stub (conn p))).1 = None
            /\ sent (conn p') = sent (conn p) ++ [PktClearBreakpoint addr]
      end).
Proof.
  split; [apply SetBreakpoint_cases | apply ClearBreakpoint_cases].
Qed.

(** A successful [SetBreakpoint] in full: the new object, where it is
    stored, and what else is left alone. *)
Lemma SetBreakpoint_success p addr kind cond b p' :
  SetBreakpoint addr kind cond p = Done (Some b, None) p' ->
  exists f l fn id,
    PCToLine (bi p) addr = (f, l, Some fn)
    /\ b = fresh (dom (breakpoint_store p))
    /\ id = (if decide (kind <> UserBreakpoint)
             then wrap_int (internalBreakpointIDCounter p + 1)
             else wrap_int (breakpointIDCounter p + 1))
    /\ breakpoints p !! addr = None
    /\ breakpoints p' = <[addr := b]> (breakpoints p)
    /\ breakpoint_store p' =
         <[b := {| FunctionName := fn_Name fn; File := f; Line := l; Addr := addr;
                   Kind := kind; Cond := cond; HitCount := ∅; TotalHitCount := 0;
                   Name := EmptyString; bp_ID := id |}]> (breakpoint_store p)
    /\ breakpointIDCounter p' =
         (if decide (kind <> UserBreakpoint) then breakpointIDCounter p else id)
    /\ internalBreakpointIDCounter p' =
         (if decide (kind <> UserBreakpoint) then id else internalBreakpointIDCounter p)
    /\ exited p' = exited p /\ bi p' = bi p /\ pid (conn p') = pid (conn p).
Proof.
  unfold SetBreakpoint, breakpoint, put_breakpoint, conn_setBreakpoint. run_engine.
  intros E.
  destruct (breakpoints p !! addr) as [b0|] eqn:Hb.
  { destruct (breakpoint_store p !! b0); simplify_eq. }
  destruct (PCToLine (bi p) addr) as [[f l] [fn|]]; simplify_eq.
  exists f, l, fn.
  destruct (decide (kind <> UserBreakpoint)); simpl in E;
    destruct (stub_setBreakpoint addr (stub (conn p))) as [[e|] w] eqn:Hs;
    simpl in E; simplify_eq; simpl; eexists; repeat split; done.
Qed.


End BreakpointTable.

(** ** The register bank

    Writing through a register's slice and reading it back. *)
Lemma read_write_window (b : list byte) (w : window) (data : list byte) :
  length data = length (read_window b w) ->
  read_window (write_window b w data) w = data
  /\ length (write_window b w data) = length b.
Proof.
  unfold read_window, write_window. intros Hlen.
  rewrite length_take, length_drop in Hlen.
  destruct (decide (w_off w <= length b)%nat) as [Hin|Hout].
  - assert (Htake : take (w_len w) data = data) by (apply take_ge; lia).
    rewrite Htake. split.
    + rewrite drop_app_length' by (rewrite length_take; lia).
      destruct (decide (w_off w + w_len w <= length b)%nat).
      * rewrite take_app_length' by lia. done.
      * rewrite (drop_ge b) by lia. rewrite app_nil_r. apply take_ge. lia.
    + rewrite !length_app, length_take, length_drop. lia.
  - assert (data = []) as -> by (apply nil_length_inv; lia).
    rewrite take_nil. simpl. rewrite (take_ge b) by lia.
    rewrite (drop_ge b) by lia. rewrite app_nil_r.
    split; [|done]. rewrite drop_ge by lia. by rewrite take_nil.
Qed.

Lemma Uint64_PutUint64 (b : list byte) (v : Z) :
  match PutUint64 b v with
  | Some b' => Uint64 b' = Some (v mod 2 ^ 64) /\ length b' = length b
  | None => Uint64 b = None
  end.
Proof.
  unfold PutUint64, Uint64. case_decide as Hb; [|done].
  assert (Hlen : length (le_encode 8 v ++ drop 8 b) = length b).
  { rewrite length_app, le_encode_length, length_drop. lia. }
  rewrite Hlen. rewrite decide_True by done. split; [|done].
  rewrite take_app_length' by (by rewrite le_encode_length).
  by rewrite le_decode_encode.
Qed.

Lemma put_u64_get_u64 (r : gdbRegisters) (name : string) (v : Z) :
  match put_u64 r name v with
  | Some r' =>
      get_u64 r' name = Some (v mod 2 ^ 64)
      /\ regs r' = regs r
      /\ length (buf r') = length (buf r)
  | None => get_u64 r name = None
  end.
Proof.
  unfold put_u64, get_u64.
  pose proof (Uint64_PutUint64 (read_window (buf r) (value (reg_index r name))) v) as H.
  destruct (PutUint64 _ v) as [bytes|]; [|done].
  destruct H as [Hread Hlen].
  destruct (read_write_window (buf r) (value (reg_index r name)) bytes Hlen)
    as [Hrw Hsame].
  unfold reg_index, reg_lookup, with_buf in *. simpl.
  by rewrite Hrw.
Qed.

(** X1.  [setPC] and [setCX] panic exactly when [PC()] and [CX()] do (the
    register is absent or narrower than 8 bytes); otherwise the register
    reads back as the value written, taken modulo 2^64, the register index
    is untouched and the buffer keeps its length. *)
Theorem put_u64_round_trip (r : gdbRegisters) (name : string) (v : Z) :
  match put_u64 r name v with
  | Some r' =>
      get_u64 r' name = Some (v mod 2 ^ 64)
      /\ regs r' = regs r
      /\ length (buf r') = length (buf r)
  | None => get_u64 r name = None
  end.
Proof.
  exact (put_u64_get_u64 r name v).
Qed.

Lemma read_window_disjoint (b : list byte) (w w' : window) (data : list byte) :
  length data = length (read_window b w) ->
  (w_off w' + w_len w' <= w_off w \/ w_off w + w_len w <= w_off w')%nat ->
  read_window (write_window b w data) w' = read_window b w'.
Proof.
  unfold read_window, write_window. intros Hlen Hdis.
  rewrite length_take, length_drop in Hlen.
  destruct (decide (w_off w <= length b)%nat) as [Hin|Hout].
  - assert (Htake : take (w_len w) data = data) by (apply take_ge; lia).
    rewrite Htake.
    destruct Hdis as [Hbefore|Hafter].
    + rewrite drop_app_le by (rewrite length_take; lia).
      rewrite take_app_le by (rewrite length_drop, length_take; lia).
      rewrite <- (take_drop (w_off w) b) at 2.
      rewrite drop_app_le by (rewrite length_take; lia).
      rewrite take_app_le by (rewrite length_drop, length_take; lia).
      done.
    + rewrite app_assoc.
      rewrite drop_app_ge by (rewrite length_app, length_take; lia).
      rewrite length_app, length_take.
      destruct (decide (w_off w + w_len w <= length b)%nat).
      * rewrite drop_drop. f_equal. f_equal. lia.
      * rewrite !(drop_ge b) by lia. by rewrite drop_nil.
  - assert (data = []) as -> by (apply nil_length_inv; lia).
    rewrite take_nil. simpl. rewrite (take_ge b) by lia.
    rewrite (drop_ge b _) by lia. by rewrite app_nil_r.
Qed.

Lemma put_u64_elsewhere (r r' : gdbRegisters) (name other : string) (v : Z) :
  put_u64 r name v = Some r' ->
  (w_off (value (reg_index r other)) + w_len (value (reg_index r other))
     <= w_off (value (reg_index r name))
   \/ w_off (value (reg_index r name)) + w_len (value (reg_index r name))
     <= w_off (value (reg_index r other)))%nat ->
  get_u64 r' other = get_u64 r other.
Proof.
  unfold put_u64, get_u64. intros Hput Hdis.
  pose proof (Uint64_PutUint64 (read_window (buf r) (value (reg_index r name))) v) as H.
  destruct (PutUint64 _ v) as [bytes|]; [|done].
  destruct H as [_ Hlen]. simplify_eq. 
  unfold reg_index, reg_lookup, with_buf in *. simpl.
  by rewrite read_window_disjoint.
Qed.

(** X2.  Writing a register leaves every register whose slice does not
    overlap it as it was: [setCX] does not disturb [PC()], and the other way
    round. *)
Theorem put_u64_other_register (r r' : gdbRegisters) (name other : string) (v : Z) :
  put_u64 r name v = Some r' ->
  (w_off (value (reg_index r other)) + w_len (value (reg_index r other))
     <= w_off (value (reg_index r name))
   \/ w_off (value (reg_index r name)) + w_len (value (reg_index r name))
     <= w_off (value (reg_index r other)))%nat ->
  get_u64 r' other = get_u64 r other.
Proof.
  exact (put_u64_elsewhere r r' name other v).
Qed.

(** The sixteen 64-bit containers, in the order of the x86 encoding. *)
Definition gp_registers : list string :=
  ["rax"; "rcx"; "rdx"; "rbx"; "rsp"; "rbp"; "rsi"; "rdi";
   "r8"; "r9"; "r10"; "r11"; "r12"; "r13"; "r14"; "r15"].

(** The value of the [i]-th container, passed through [f]; no error. *)
Definition read_container (r : gdbRegisters) (i : Z) (f : Z -> Z) : option (Z * option error) :=
  match byName r (gp_registers !!! Z.to_nat i) with
  | Some v => Some (f v, None)
  | None => None
  end.

Ltac Get_cases lo cnt :=
  match goal with
  | Hn : ?k = _ mod 256 |- _ =>
      let m := fresh "m" in
      let Hm := fresh "Hm" in
      assert (exists m : nat, k = lo + Z.of_nat m /\ (m < cnt)%nat) as (m & -> & Hm)
        by (exists (Z.to_nat (k - lo)); lia);
      repeat (destruct m as [|m];
              [ unfold Get, x86asm.Reg_of_int; rewrite <- Hn; reflexivity | ]);
      lia
  end.

(** X3.  [Get] as a table.  With [k] the identifier truncated to 8 bits:
    1..20 are the 8-bit forms, which read the container and keep its low
    FOUR bits (after a shift by 8 for ah, ch, dh, bh: 5..8); 21..36 the
    16-bit forms, which keep the low 8 bits; 37..52 the 32-bit forms, which
    keep the low 16 bits; 53..68 the 64-bit forms, the container itself;
    within each width the containers come in the order of the encoding.
    Every other identifier gives 0 and [UnknownRegisterError]. *)
Theorem Get_register_table (r : gdbRegisters) (n : Z) :
  let k := n mod 256 in
  (1 <= k <= 20 ->
   Get r n = read_container r (if decide (k <= 4) then k - 1 else k - 5)
               (fun v => Z.land (if decide (5 <= k <= 8) then Z.shiftr v 8 else v) 0xf))
  /\ (21 <= k <= 36 -> Get r n = read_container r (k - 21) (fun v => Z.land v 0xff))
  /\ (37 <= k <= 52 -> Get r n = read_container r (k - 37) (fun v => Z.land v 0xffff))
  /\ (53 <= k <= 68 -> Get r n = read_container r (k - 53) (fun v => v))
  /\ (k = 0 \/ 68 < k -> Get r n = Some (0, Some UnknownRegisterError)).
Proof.
  intros k. remember k as k' eqn:Hn. subst k. rename k' into k.
  repeat split; intros Hk.
  - Get_cases 1 20%nat.
  - Get_cases 21 16%nat.
  - Get_cases 37 16%nat.
  - Get_cases 53 16%nat.
  - unfold Get, x86asm.Reg_of_int. rewrite <- Hn.
    pose proof (Z.mod_pos_bound n 256 ltac:(lia)) as Hb.
    case_decide as H0; [done|].
    rewrite lookup_ge_None_2; [done|].
    change (length x86asm.table) with 68%nat. lia.
Qed.

(** X4.  A valid identifier whose container the bank does not hold (for
    one, the bank of a thread whose registers were never loaded) reads as 0
    without an error. *)
Theorem Get_absent_container (r : gdbRegisters) (n : Z) :
  (forall name, name ∈ gp_registers -> reg_lookup r name = None) ->
  1 <= n mod 256 <= 68 ->
  Get r n = Some (0, None).
Proof.
  intros Habsent Hk.
  assert (Hzero : forall i f, 0 <= i < 16 -> f 0 = 0 -> read_container r i f = Some (0, None)).
  { intros i f Hi Hf. unfold read_container, byName.
    rewrite Habsent; [by rewrite Hf|].
    apply list_elem_of_lookup. exists (Z.to_nat i).
    apply list_lookup_lookup_total_lt. simpl. lia. }
  destruct (Get_register_table r n) as (H8 & H16 & H32 & H64 & _).
  destruct (decide (n mod 256 <= 20)).
  { rewrite H8 by lia. apply Hzero; [case_decide; lia|]. by destruct (decide (5 <= n mod 256 <= 8)). }
  destruct (decide (n mod 256 <= 36)).
  { rewrite H16 by lia. by apply Hzero; [lia|]. }
  destruct (decide (n mod 256 <= 52)).
  { rewrite H32 by lia. by apply Hzero; [lia|]. }
  rewrite H64 by lia. by apply Hzero; [lia|].
Qed.

(** The buffer [reloadRegisters] allocates on its first call. *)
Lemma regs_size_foldl_ge (infos : list gdbRegisterInfo) (a : Z) :
  let f := fun regsz reginfo =>
             let endoff := ri_Offset reginfo + Z.quot (ri_Bitsize reginfo) 8 in
             if decide (endoff > regsz) then endoff else regsz in
  a <= foldl f a infos
  /\ forall ri, ri ∈ infos -> ri_Offset ri + Z.quot (ri_Bitsize ri) 8 <= foldl f a infos.
Proof.
  intros f. revert a. induction infos as [|ri0 rest IH]; intros a.
  - split; [simpl; lia|]. intros ri Hri. by apply elem_of_nil in Hri.
  - simpl. destruct (IH (f a ri0)) as [Hge Hall].
    assert (Ha : a <= f a ri0 /\ ri_Offset ri0 + Z.quot (ri_Bitsize ri0) 8 <= f a ri0).
    { unfold f. case_decide; lia. }
    split; [lia|]. intros ri Hri. apply elem_of_cons in Hri as [->|Hri]; [lia|].
    by apply Hall.
Qed.

Lemma regs_index_spec (infos : list gdbRegisterInfo) (acc : gmap string gdbRegister) :
  match regs_index infos acc with
  | Some m =>
      Forall (fun ri => 0 <= ri_Offset ri /\ 0 <= Z.quot (ri_Bitsize ri) 8) infos
      /\ (forall ri, ri ∈ infos -> is_Some (m !! ri_Name ri))
      /\ (forall name g, m !! name = Some g ->
            acc !! name = Some g
            \/ exists ri, ri ∈ infos /\ ri_Name ri = name /\ regnum g = ri_Regnum ri
                 /\ Z.of_nat (w_off (value g)) = ri_Offset ri
                 /\ Z.of_nat (w_len (value g)) = Z.quot (ri_Bitsize ri) 8)
      /\ (forall name, is_Some (acc !! name) -> is_Some (m !! name))
  | None => Exists (fun ri => ri_Offset ri < 0 \/ Z.quot (ri_Bitsize ri) 8 < 0) infos
  end.
Proof.
  revert acc. induction infos as [|ri0 rest IH]; intros acc; simpl.
  - split; [done|]. split; [intros ri Hri; by apply elem_of_nil in Hri|].
    split; [by left|done].
  - case_decide as Hok.
    + specialize (IH (<[ri_Name ri0 :=
               {| value := {| w_off := Z.to_nat (ri_Offset ri0);
                              w_len := Z.to_nat (Z.quot (ri_Bitsize ri0) 8) |};
                  regnum := ri_Regnum ri0 |}]> acc)).
      destruct (regs_index rest _) as [m|].
      * destruct IH as (Hall & Hin & Hfrom & Hkeep).
        split; [by constructor|]. split; [|split].
        -- intros ri Hri. apply elem_of_cons in Hri as [->|Hri]; [|by apply Hin].
           apply Hkeep. rewrite lookup_insert_eq. by eexists.
        -- intros name g Hg. destruct (Hfrom name g Hg) as [Hacc|(ri & Hri & ?)].
           ++ destruct (decide (ri_Name ri0 = name)) as [<-|Hne].
              ** rewrite lookup_insert_eq in Hacc. simplify_eq. right.
                 exists ri0. simpl. split; [by left|].
                 repeat split; try done; lia.
              ** rewrite lookup_insert_ne in Hacc by done. by left.
           ++ right. exists ri. split; [by right|done].
        -- intros name Hname. apply Hkeep.
           destruct (decide (ri_Name ri0 = name)) as [<-|Hne].
           ++ rewrite lookup_insert_eq. by eexists.
           ++ by rewrite lookup_insert_ne.
      * by apply Exists_cons_tl.
    + apply Exists_cons_hd. lia.
Qed.

(** X5.  The bank that [reloadRegisters] builds: unless a declared register
    has a negative offset or width (the slice expression then panics),
    every declared name gets a register, and every register's slice lies
    inside the buffer, whose size is the largest [Offset + Bitsize/8]. *)
Theorem register_slices_inside_buffer (infos : list gdbRegisterInfo) :
  match regs_index infos ∅ with
  | Some m =>
      (forall ri, ri ∈ infos -> is_Some (m !! ri_Name ri))
      /\ (forall name g, m !! name = Some g ->
            (w_off (value g) + w_len (value g) <= Z.to_nat (regs_size infos))%nat)
  | None => Exists (fun ri => ri_Offset ri < 0 \/ Z.quot (ri_Bitsize ri) 8 < 0) infos
  end.
Proof.
  pose proof (regs_index_spec infos ∅) as H.
  destruct (regs_index infos ∅) as [m|]; [|done].
  destruct H as (Hall & Hin & Hfrom & _). split; [done|].
  intros name g Hg. destruct (Hfrom name g Hg) as [Hacc|(ri & Hri & _ & _ & Hoff & Hlen)].
  { by rewrite lookup_empty in Hacc. }
  destruct (regs_size_foldl_ge infos 0) as [_ Hge]. specialize (Hge ri Hri).
  unfold regs_size. cbv zeta in Hge.
  remember (foldl _ 0 infos) as size. lia.
Qed.

(** Reading a field of a process after an assignment. *)
Ltac fields :=
  cbn [bi conn thread_store threads currentThread selectedGoroutine exited ctrlC
       breakpoint_store breakpoints breakpointIDCounter internalBreakpointIDCounter
       gcmdok threadStopInfo loadGInstrAddr allGCache
       set_bi set_conn set_thread_store set_threads set_currentThread
       set_selectedGoroutine set_exited set_ctrlC set_breakpoint_store
       set_breakpoints set_breakpointIDCounter set_internalBreakpointIDCounter
       set_gcmdok set_threadStopInfo set_loadGInstrAddr set_allGCache
       pid isDebugserver conn_regsInfo stub sent set_stub log_packet] in *.

(** ** The thread table *)
Section ThreadTable.
Context {W : Type} `{!Stub W} `{!Runtime W}.
Local Open Scope engine_scope.

(** Everything but the thread table, the thread objects and the current
    thread. *)
Definition same_outside_threads (p p' : GdbserverProcess W) : Prop :=
  bi p' = bi p /\ conn p' = conn p
  /\ selectedGoroutine p' = selectedGoroutine p
  /\ exited p' = exited p /\ ctrlC p' = ctrlC p
  /\ breakpoint_store p' = breakpoint_store p /\ breakpoints p' = breakpoints p
  /\ breakpointIDCounter p' = breakpointIDCounter p
  /\ internalBreakpointIDCounter p' = internalBreakpointIDCounter p
  /\ gcmdok p' = gcmdok p /\ threadStopInfo p' = threadStopInfo p
  /\ loadGInstrAddr p' = loadGInstrAddr p /\ allGCache p' = allGCache p.

Lemma same_outside_threads_refl p : same_outside_threads p p.
Proof. by repeat split. Qed.

Lemma same_outside_threads_trans p q r :
  same_outside_threads p q -> same_outside_threads q r -> same_outside_threads p r.
Proof.
  unfold same_outside_threads. intros H1 H2.
  destruct_and!. repeat split; congruence.
Qed.

(** What [Add] has done when it returns. *)
Lemma Add_loop_spec (ids : list string) :
  forall (sn : gset Z) p sn' err p',
    Add_loop sn ids p = Done (sn', err) p' ->
    same_outside_threads p p'
    /\ currentThread p' = currentThread p
    /\ threads p ⊆ threads p'
    /\ thread_store p ⊆ thread_store p'
    /\ sn ⊆ sn'
    /\ (forall tid, tid ∈ sn' -> tid ∈ sn \/ is_Some (threads p' !! tid))
    /\ (forall tid t, threads p' !! tid = Some t -> threads p !! tid = None ->
          exists id, id ∈ ids
            /\ ParseUint_16_32 (default id (after_period id)) = Some tid
            /\ thread_store p' !! t = Some (new_thread tid id))
    /\ match err with
       | None =>
           forall id, id ∈ ids ->
             exists tid, ParseUint_16_32 (default id (after_period id)) = Some tid
               /\ tid ∈ sn' /\ is_Some (threads p' !! tid)
       | Some e =>
           exists id, id ∈ ids /\ e = GdbMalformedThreadIDError id
             /\ ParseUint_16_32 (default id (after_period id)) = None
       end.
Proof.
  induction ids as [|id rest IH]; intros sn p sn' err p' E.
  - simpl in E. run_engine. simplify_eq.
    split; [apply same_outside_threads_refl|]. repeat split; try done.
    + intros tid Htid. by left.
    + intros tid t H1 H2. congruence.
    + intros id Hid. by apply elem_of_nil in Hid.
  - cbn [Add_loop] in E.
    destruct (ParseUint_16_32 (default id (after_period id))) as [tid|] eqn:Hparse.
    + run_engine.
      destruct (threads p !! tid) as [t0|] eqn:Hfound.
      * apply IH in E as (Hsame & Hcur & Hth & Hst & Hsn & Hseen & Hnew & Herr).
        split; [done|]. split; [done|]. split; [done|]. split; [done|].
        split; [set_solver|]. split; [|split].
        -- intros k Hk. destruct (Hseen k Hk) as [Hin|?]; [|by right].
           apply elem_of_union in Hin as [Hin|Hin]; [|by left].
           apply elem_of_singleton in Hin as ->. right.
           eapply lookup_weaken_is_Some; [|exact Hth]. by eexists.
        -- intros k t Hk Hnone. destruct (Hnew k t Hk Hnone) as (id' & ? & ?).
           exists id'. split; [by right|done].
        -- destruct err as [e|].
           ++ destruct Herr as (id' & ? & ?). exists id'. split; [by right|done].
           ++ intros id' Hid'. apply elem_of_cons in Hid' as [->|Hid']; [|by apply Herr].
              exists tid. split; [done|]. split; [set_solver|].
              eapply lookup_weaken_is_Some; [|exact Hth]. by eexists.
      * simpl in E.
        set (t := fresh (dom (thread_store p))) in *.
        assert (Hfresh : thread_store p !! t = None).
        { apply not_elem_of_dom. apply is_fresh. }
        apply IH in E as (Hsame & Hcur & Hth & Hst & Hsn & Hseen & Hnew & Herr).
        simpl in *.
        assert (Hth0 : threads p ⊆ threads p').
        { etransitivity; [|exact Hth]. by apply insert_subseteq. }
        assert (Hst0 : thread_store p ⊆ thread_store p').
        { etransitivity; [|exact Hst]. by apply insert_subseteq. }
        assert (Htid : threads p' !! tid = Some t).
        { eapply lookup_weaken; [|exact Hth]. apply lookup_insert_eq. }
        split. { unfold same_outside_threads in *. simpl in *. done. }
        split; [done|]. split; [done|]. split; [done|].
        split; [set_solver|]. split; [|split].
        -- intros k Hk. destruct (Hseen k Hk) as [Hin|?]; [|by right].
           apply elem_of_union in Hin as [Hin|Hin]; [|by left].
           apply elem_of_singleton in Hin as ->. right. by eexists.
        -- intros k t' Hk Hnone.
           destruct (decide (k = tid)) as [->|Hne].
           ++ exists id. split; [by left|]. split; [done|].
              assert (t' = t) as -> by congruence.
              eapply lookup_weaken; [|exact Hst]. apply lookup_insert_eq.
           ++ destruct (Hnew k t' Hk) as (id' & ? & ?).
              { by rewrite lookup_insert_ne. }
              exists id'. split; [by right|done].
        -- destruct err as [e|].
           ++ destruct Herr as (id' & ? & ?). exists id'. split; [by right|done].
           ++ intros id' Hid'. apply elem_of_cons in Hid' as [->|Hid']; [|by apply Herr].
              exists tid. split; [done|]. split; [set_solver|]. by eexists.
    + run_engine. simplify_eq.
      split; [apply same_outside_threads_refl|]. repeat split; try done.
      * intros tid Htid. by left.
      * intros tid t H1 H2. congruence.
      * exists id. split; [by left|done].
Qed.

(** X6.  [threadUpdater.Add].  It panics after [Finish]; otherwise it
    changes nothing but the thread table and the thread objects, and only
    by adding to them: a thread that is in the table keeps its object (and
    with it its registers and current breakpoint), a thread id that is new
    gets a fresh object with zeroed fields, keyed by the hexadecimal number
    after the first period of the id; every id it went through is recorded
    as seen.  It stops at the first id that is not such a number and
    returns [GdbMalformedThreadIDError] with that id. *)
Theorem Add_only_adds (tu : threadUpdater) (ids : list string) (p : GdbserverProcess W) :
  (done tu = true -> Add tu ids p = Panicked)
  /\ (forall tu' err p',
        Add tu ids p = Done (tu', err) p' ->
        done tu' = false
        /\ same_outside_threads p p'
        /\ currentThread p' = currentThread p
        /\ threads p ⊆ threads p'
        /\ thread_store p ⊆ thread_store p'
        /\ seen tu ⊆ seen tu'
        /\ (forall tid t, threads p' !! tid = Some t -> threads p !! tid = None ->
              exists id, id ∈ ids
                /\ ParseUint_16_32 (default id (after_period id)) = Some tid
                /\ thread_store p' !! t = Some (new_thread tid id))
        /\ match err with
           | None =>
               forall id, id ∈ ids ->
                 exists tid, ParseUint_16_32 (default id (after_period id)) = Some tid
                   /\ tid ∈ seen tu' /\ is_Some (threads p' !! tid)
           | Some e =>
               exists id, id ∈ ids /\ e = GdbMalformedThreadIDError id
                 /\ ParseUint_16_32 (default id (after_period id)) = None
           end).
Proof.
  split.
  - intros Hdone. unfold Add. by rewrite Hdone.
  - intros tu' err p' E. unfold Add in E.
    destruct (done tu) eqn:Hdone; [done|].
    unfold bind at 1 in E.
    destruct (Add_loop (seen tu) ids p) as [[sn' err'] p1| |] eqn:Hloop; try done.
    unfold ret in E. simplify_eq. simpl.
    apply Add_loop_spec in Hloop
      as (Hsame & Hcur & Hth & Hst & Hsn & Hseen & Hnew & Herr).
    split; [done|]. split; [done|]. repeat split; try done.
Qed.

(** The first loop of [Finish]: the entries it went through that were not
    seen are gone, the rest of the table is as it was. *)
Lemma Finish_loop_spec (sn : gset Z) (entries : list (Z * loc)) :
  forall p p',
    Finish_loop sn entries p = Done tt p' ->
    same_outside_threads p p'
    /\ thread_store p' = thread_store p
    /\ (forall k, threads p' !! k =
                    if decide (k ∈ entries.*1 /\ k ∉ sn) then None else threads p !! k).
Proof.
  induction entries as [|[threadID t] rest IH]; intros p p' E.
  - simpl in E. run_engine. simplify_eq.
    split; [apply same_outside_threads_refl|]. split; [done|].
    intros k. rewrite decide_False; [done|]. intros [Hk _]. by apply elem_of_nil in Hk.
  - cbn [Finish_loop] in E.
    destruct (decide (threadID ∈ sn)) as [Hseen|Hunseen].
    + run_engine. apply IH in E as (Hsame & Hst & Hth).
      split; [done|]. split; [done|].
      intros k. rewrite Hth. cbn [fmap list_fmap fst].
      destruct (decide (k ∈ rest.*1 /\ k ∉ sn)) as [[? ?]|Hno].
      * rewrite decide_True; [done|]. split; [by right|done].
      * rewrite decide_False; [done|]. intros [Hk ?].
        apply elem_of_cons in Hk as [->|Hk]; [done|]. by apply Hno.
    + unfold thread in E. run_engine. fields.
      destruct (currentThread p) as [c|] eqn:Hc; [|done]. fields.
      destruct (thread_store p !! c) as [th|] eqn:Hth0; [|done].
      assert (Hstep : exists q,
                 Finish_loop sn rest q = Done tt p'
                 /\ same_outside_threads p q
                 /\ thread_store q = thread_store p
                 /\ threads q = delete threadID (threads p)).
      { destruct (decide (ID th = threadID)); fields.
        - eexists. split; [exact E|]. by repeat split.
        - eexists. split; [exact E|]. by repeat split. }
      destruct Hstep as (q & Hq & Hsame0 & Hst0 & Hth1).
      apply IH in Hq as (Hsame & Hst & Hth).
      split; [by eapply same_outside_threads_trans|]. split; [congruence|].
      intros k. rewrite Hth, Hth1. cbn [fmap list_fmap fst].
      destruct (decide (k = threadID)) as [->|Hne].
      * rewrite lookup_delete_eq.
        destruct (decide (threadID ∈ threadID :: rest.*1 /\ threadID ∉ sn)) as [_|Hno].
        -- by destruct (decide (threadID ∈ rest.*1 /\ threadID ∉ sn)).
        -- exfalso. apply Hno. split; [by left|done].
      * rewrite lookup_delete_ne by done.
        destruct (decide (k ∈ rest.*1 /\ k ∉ sn)) as [[? ?]|Hno].
        -- rewrite decide_True; [done|]. split; [by right|done].
        -- rewrite decide_False; [done|]. intros [Hk ?].
           apply elem_of_cons in Hk as [->|Hk]; [done|]. by apply Hno.
Qed.

(** X7.  [threadUpdater.Finish].  When it returns, the updater is done, the
    table holds exactly the threads it held that were seen, the thread
    objects and everything outside the thread table are untouched, and a
    current thread is chosen whenever a thread is left. *)
Theorem Finish_keeps_seen (tu : threadUpdater) (p : GdbserverProcess W)
    (tu' : threadUpdater) (p' : GdbserverProcess W) :
  Finish tu p = Done tu' p' ->
  done tu' = true /\ seen tu' = seen tu
  /\ same_outside_threads p p'
  /\ thread_store p' = thread_store p
  /\ (forall k, threads p' !! k = if decide (k ∈ seen tu) then threads p !! k else None)
  /\ (currentThread p' = None -> threads p' = ∅).
Proof.
  unfold Finish. intros E.
  unfold bind at 1 in E. unfold go_range at 1 in E.
  unfold bind at 1 in E.
  set (entries := range_order (stub (conn p)) (map_to_list (threads p))) in *.
  destruct (Finish_loop (seen tu) entries p) as [[] p1| |] eqn:Hloop; try done.
  apply Finish_loop_spec in Hloop as (Hsame & Hst & Hth).
  assert (Hentries : forall k, k ∈ entries.*1 <-> is_Some (threads p !! k)).
  { intros k. unfold entries. rewrite range_order_perm.
    rewrite list_elem_of_fmap. split.
    - intros ([k' t] & -> & Hin). apply elem_of_map_to_list in Hin. by eexists.
    - intros [t Hk]. exists (k, t). split; [done|]. by apply elem_of_map_to_list. }
  assert (Hlookup : forall k, threads p1 !! k
                              = if decide (k ∈ seen tu) then threads p !! k else None).
  { intros k. rewrite Hth. destruct (decide (k ∈ seen tu)) as [Hk|Hk].
    - rewrite decide_False; [done|]. by intros [_ ?].
    - destruct (decide (k ∈ entries.*1 /\ k ∉ seen tu)) as [_|Hno]; [done|].
      destruct (threads p !! k) eqn:Hk'; [|done].
      exfalso. apply Hno. split; [|done]. apply Hentries. by eexists. }
  run_engine. simpl in E.
  destruct (currentThread p1) as [c|] eqn:Hc.
  - simplify_eq. simpl.
    split; [done|]. split; [done|]. split; [done|]. split; [done|]. split; [done|].
    intros Hnone. congruence.
  - set (entries' := range_order (stub (conn p1)) (map_to_list (threads p1))) in *.
    assert (Hperm : entries' ≡ₚ map_to_list (threads p1)) by apply range_order_perm.
    destruct entries' as [|[k t] rest] eqn:He; simplify_eq; simpl.
    + split; [done|]. split; [done|]. split; [done|]. split; [done|]. split; [done|].
      intros _. apply map_to_list_empty_iff. symmetry. by apply Permutation_nil_l.
    + split; [done|]. split; [done|].
      split. { unfold same_outside_threads in *. fields. done. }
      split; [done|]. split; [done|]. done.
Qed.

End ThreadTable.

(** ** Results of sequenced calls *)
Section Sequencing.
Context {W : Type} `{!Stub W} `{!Runtime W}.

Lemma bind_Done {A B : Type} (m : M W A) (f : A -> M W B) p b p' :
  bind m f p = Done b p' ->
  exists a p1, m p = Done a p1 /\ f a p1 = Done b p'.
Proof.
  unfold bind. destruct (m p) as [a p1| |]; [|done|done]. intros E. by exists a, p1.
Qed.

End Sequencing.

(** [carried R H] turns the run [H : m p = Done a p'] into [R p p'], for a
    relation that [m] preserves. *)
Ltac carried R H :=
  match type of H with
  | ?m ?p = Done _ _ =>
      let K := fresh "K" in
      assert (K : preserves R m) by (try unfold m; frame_all);
      apply K in H; clear K
  end.

(** ** A process that has exited *)
Section ProcessExit.
Context {W : Type} `{!Stub W} `{!Runtime W}.
Local Open Scope engine_scope.

(** X8.  Once the process is marked as exited, [ContinueOnce] and
    [ClearBreakpoint] refuse with a [ProcessExitedError] that carries the
    process id, [StepInstruction] on a goroutine that runs on a thread
    does the same after dropping the goroutine cache, [Kill] returns nil
    and [Detach] returns what closing the binary information returns; none
    of them sends anything to the stub or changes anything else. *)
Theorem exited_process_is_left_alone (p : GdbserverProcess W) :
  exited p = true ->
  let refusal := ProcessExitedError true (pid (conn p)) 0 in
  (forall fuel, ContinueOnce fuel p = Done (None, Some refusal) p)
  /\ (forall addr, ClearBreakpoint addr p = Done (None, Some refusal) p)
  /\ Kill p = Done None p
  /\ (forall kill, Detach kill p = Done (bi_Close (bi p)) p)
  /\ (forall g t, selectedGoroutine p = Some g -> g_thread g = Some t ->
        StepInstruction p = Done (Returns (Some refusal)) (set_allGCache [] p)).
Proof.
  intros Hex refusal. repeat split.
  - intros fuel. unfold ContinueOnce, refuse_exited. run_engine. by rewrite Hex.
  - intros addr. unfold ClearBreakpoint. run_engine. by rewrite Hex.
  - unfold Kill. run_engine. by rewrite Hex.
  - intros kill. unfold Detach, Kill. destruct kill; run_engine; by rewrite ?Hex.
  - intros g t Hg Ht. unfold StepInstruction, refuse_exited. run_engine.
    rewrite Hg, Ht. fields. by rewrite Hex.
Qed.

(** The mark is kept by everything that does not set it. *)
Definition exited_kept (p p' : GdbserverProcess W) : Prop := exited p' = exited p.

#[local] Instance exited_kept_core : FrameCore exited_kept.
Proof.
  split; [split|..]; unfold exited_kept.
  - by intros p.
  - intros p q r H1 H2. congruence.
  - done.
  - done.
  - done.
  - done.
  - done.
  - done.
  - done.
Qed.

#[local] Instance exited_kept_conn : FrameConn exited_kept.
Proof. split; by unfold exited_kept. Qed.

#[local] Instance exited_kept_flags : FrameFlags exited_kept.
Proof. split; by unfold exited_kept. Qed.

#[local] Instance exited_kept_breakpoints : FrameBreakpointFields exited_kept.
Proof. split; by unfold exited_kept. Qed.

(** The continue loop marks the process exactly when it ends on an exit
    reply. *)
Lemma continueLoop_exited fuel sig tu p r p' :
  continueLoop fuel sig tu p = Done r p' ->
  exited p' = exited p
              || match r with inl e => is_ProcessExitedError e | inr _ => false end.
Proof.
  revert sig tu p. induction fuel as [|fuel IH]; intros sig tu p E; [done|].
  cbn [continueLoop] in E.
  apply bind_Done in E as ([[[threadID sig'] err] tu'] & p1 & Hresume & E).
  assert (H1 : exited p1 = exited p).
  { by carried exited_kept Hresume. }
  destruct err as [e|].
  - run_engine. destruct (is_ProcessExitedError e) eqn:He; simplify_eq; fields.
    + by rewrite He, orb_true_r.
    + by rewrite He, H1, orb_false_r.
  - run_engine.
    destruct (leaves_loop sig' (ctrlC p1) (isDebugserver (conn p1))).
    + simplify_eq. by rewrite H1, orb_false_r.
    + apply IH in E. by rewrite E, H1.
Qed.

(** X9.  A [ContinueOnce] on a process that is not marked as exited leaves
    it marked only when its continue loop ended on a resume request that
    the stub answered with the exit of the process; it then returns that
    [ProcessExitedError] and no thread.  The requests it makes before and
    after the loop never set the mark. *)
Theorem ContinueOnce_marks_exit (fuel : nat) (p : GdbserverProcess W)
    (r : option loc) (err : option error) (p' : GdbserverProcess W) :
  ContinueOnce fuel p = Done (r, err) p' ->
  exited p = false ->
  exited p' = true ->
  r = None
  /\ exists e q, err = Some e /\ is_ProcessExitedError e = true
       /\ continueLoop fuel 0 new_threadUpdater q = Done (inl e) p'.
Proof.
  intros E Hlive Hdead. unfold ContinueOnce in E.
  apply bind_Done in E as (ex & q0 & Hex & E). unfold gets in Hex.
  injection Hex as <- <-. rewrite Hlive in E.
  apply bind_Done in E as (entries & q1 & Hrange & E).
  unfold go_range in Hrange. injection Hrange as _ <-.
  apply bind_Done in E as (err1 & q2 & Hstep & E).
  assert (H2 : exited q2 = exited p) by (by carried exited_kept Hstep).
  destruct err1 as [e1|].
  { unfold ret in E. simplify_eq. congruence. }
  apply bind_Done in E as ([] & q3 & Hcache & E). unfold modify in Hcache.
  injection Hcache as <-.
  apply bind_Done in E as (entries2 & q4 & Hrange & E).
  unfold go_range in Hrange. injection Hrange as _ <-.
  apply bind_Done in E as (err2 & q5 & Hclear & E).
  assert (H5 : exited q5 = exited q2) by (by carried exited_kept Hclear).
  apply bind_Done in E as ([] & q6 & Hctrl & E). unfold modify in Hctrl.
  injection Hctrl as <-.
  apply bind_Done in E as (res & q7 & Hloop & E).
  pose proof (continueLoop_exited _ _ _ _ _ _ Hloop) as H7. fields.
  destruct res as [e|[threadID tu]].
  - unfold ret in E. simplify_eq. split; [done|].
    exists e, (set_ctrlC false q5). split; [done|]. split; [|done].
    rewrite Hdead, H5, H2, Hlive in H7. by destruct (is_ProcessExitedError e).
  - exfalso. rewrite orb_false_r, H5, H2, Hlive in H7.
    apply bind_Done in E as (err3 & q8 & Hupd & E).
    assert (H8 : exited q8 = exited q7) by (by carried exited_kept Hupd).
    destruct err3 as [e3|].
    { unfold ret in E. simplify_eq. congruence. }
    apply bind_Done in E as (err4 & q9 & Hset & E).
    assert (H9 : exited q9 = exited q8) by (by carried exited_kept Hset).
    destruct err4 as [e4|].
    { unfold ret in E. simplify_eq. congruence. }
    apply bind_Done in E as (entries3 & q10 & Hrange & E).
    unfold go_range in Hrange. injection Hrange as _ <-.
    apply bind_Done in E as (found & q11 & Hfind & E).
    assert (H11 : exited q11 = exited q9) by (by carried exited_kept Hfind).
    destruct found; unfold ret in E; simplify_eq; congruence.
Qed.

End ProcessExit.

(** ** Threads blocked in the runtime *)
Section BlockedThreads.
Context {W : Type} `{!Stub W} `{!Runtime W}.
Local Open Scope engine_scope.

(** The functions in which a thread counts as blocked. *)
Definition blocked_functions : list string :=
  [ "runtime.futex"; "runtime.usleep"; "runtime.clone"; "runtime.kevent";
    "runtime.mach_semaphore_wait"; "runtime.mach_semaphore_timedwait" ].

Lemma blocked_function_spec (name : string) :
  blocked_function name = true <-> name ∈ blocked_functions.
Proof.
  unfold blocked_function, blocked_functions.
  rewrite !elem_of_cons, elem_of_nil.
  repeat case_decide; split; intros; try done; try tauto; naive_solver.
Qed.

(** X10.  For a thread whose PC lies in one of the runtime's blocking
    functions, both resolvers of the G address do nothing but record
    "no G" (tls 0, gaddr 0, hasgaddr true) in the thread's registers: no
    request is sent, the register bytes and everything else are kept and
    the result is nil.  [reloadGAtPC] asks for the MOV instruction before
    it looks at the thread, so it panics instead when the binary has an
    OS or a G offset without one. *)
Theorem blocked_thread_has_no_G (t : loc) (p : GdbserverProcess W)
    (th : GdbserverThread) (pc : Z) (fn : Func) :
  thread_store p !! t = Some th ->
  PC (t_regs th) = Some pc ->
  PCToFunc (bi p) pc = Some fn ->
  fn_Name fn ∈ blocked_functions ->
  let p' := set_thread_store
              (<[t := set_regs (with_gaddr (t_regs th) 0 0 true) th]> (thread_store p)) p in
  reloadGAlloc t p = Done None p'
  /\ reloadGAtPC t p = match loadGInstr_of (bi p) with
                       | Some _ => Done None p'
                       | None => Panicked
                       end.
Proof.
  intros Hth Hpc Hfn Hblocked p'. apply blocked_function_spec in Hblocked.
  split.
  - unfold reloadGAlloc, gdbserverThreadBlocked, no_G, regs_PC, thread_regs, put_regs,
      put_thread, thread.
    run_engine. by repeat (progress rewrite ?Hth, ?Hpc, ?Hfn, ?Hblocked; fields).
  - unfold reloadGAtPC, loadGInstr, gdbserverThreadBlocked, no_G, regs_PC, thread_regs,
      put_regs, put_thread, thread.
    run_engine. destruct (loadGInstr_of (bi p)); [|done].
    by repeat (progress rewrite ?Hth, ?Hpc, ?Hfn, ?Hblocked; fields).
Qed.

End BlockedThreads.

(** ** Looking up and recording the breakpoint of a thread *)
Section CurrentBreakpoints.
Context {W : Type} `{!Stub W} `{!Runtime W}.
Local Open Scope engine_scope.

(** X11.  [FindBreakpoint] reads the table and nothing else: it answers
    with the breakpoint one breakpoint-size before [pc] (modulo 2^64) when
    there is one, even if another one sits at [pc] itself, and with the one
    at [pc] otherwise. *)
Theorem FindBreakpoint_prefers_pc_minus_size (pc : Z) (p : GdbserverProcess W) :
  FindBreakpoint pc p
  = Done (match breakpoints p !! ((pc - BreakpointSize (bi p)) mod 2 ^ 64) with
          | Some b => Some b
          | None => breakpoints p !! pc
          end) p.
Proof.
  unfold FindBreakpoint. run_engine. unfold wrap64.
  rewrite Zminus_mod_idemp_r.
  destruct (breakpoints p !! _); [done|]. by destruct (breakpoints p !! pc).
Qed.

End CurrentBreakpoints.

(** ** Postconditions of finished runs

    [wp m Q p]: if [m] finishes from [p], its result and the process it
    leaves satisfy [Q].  The rules follow the constructs of the engine. *)
Section Postconditions.
Context {W : Type} `{!Stub W} `{!Runtime W}.

Definition wp {A : Type} (m : M W A) (Q : A -> GdbserverProcess W -> Prop)
    (p : GdbserverProcess W) : Prop :=
  match m p with
  | Done a p' => Q a p'
  | Panicked | OutOfFuel => True
  end.

Lemma wp_elim {A : Type} (m : M W A) Q p :
  wp m Q p -> forall a p', m p = Done a p' -> Q a p'.
Proof. unfold wp. intros H a p' E. by rewrite E in H. Qed.

Lemma wp_elim_unit (m : M W unit) (Q : GdbserverProcess W -> Prop) p :
  wp m (fun _ => Q) p -> forall p', m p = Done tt p' -> Q p'.
Proof. intros H p'. apply (wp_elim m (fun _ => Q) p H tt). Qed.

Lemma wp_elim_eq {A : Type} (m : M W A) p a p' (G : Prop) :
  m p = Done a p' -> wp m (fun a0 p0 => a0 = a -> p0 = p' -> G) p -> G.
Proof. intros E H. by apply (wp_elim _ _ _ H a p' E). Qed.

Lemma wp_intro {A : Type} (m : M W A) (Q : A -> GdbserverProcess W -> Prop) p :
  (forall a p', m p = Done a p' -> Q a p') -> wp m Q p.
Proof. unfold wp. intros H. destruct (m p); [by apply H|done|done]. Qed.

Lemma wp_mono {A : Type} (m : M W A) (Q Q' : A -> GdbserverProcess W -> Prop) p :
  wp m Q p -> (forall a p', Q a p' -> Q' a p') -> wp m Q' p.
Proof. unfold wp. intros H HQ. destruct (m p); [by apply HQ|done|done]. Qed.

Lemma wp_bind {A B : Type} (m : M W A) (f : A -> M W B) Q p :
  wp m (fun a p1 => wp (f a) Q p1) p -> wp (bind m f) Q p.
Proof. unfold wp, bind. by destruct (m p). Qed.

Lemma wp_ret {A : Type} (a : A) (Q : A -> GdbserverProcess W -> Prop) p :
  Q a p -> wp (ret a) Q p.
Proof. done. Qed.

Lemma wp_gets {A : Type} (f : GdbserverProcess W -> A) Q p :
  Q (f p) p -> wp (gets f) Q p.
Proof. done. Qed.

Lemma wp_modify (f : GdbserverProcess W -> GdbserverProcess W) Q p :
  Q tt (f p) -> wp (modify f) Q p.
Proof. done. Qed.

Lemma wp_panic {A : Type} (Q : A -> GdbserverProcess W -> Prop) p : wp panic Q p.
Proof. done. Qed.

Lemma wp_out_of_fuel {A : Type} (Q : A -> GdbserverProcess W -> Prop) p :
  wp out_of_fuel Q p.
Proof. done. Qed.

Lemma wp_must {A : Type} (o : option A) (Q : A -> GdbserverProcess W -> Prop) p :
  (forall a, o = Some a -> Q a p) -> wp (must o) Q p.
Proof. destruct o; simpl; [|done]. intros H. by apply H. Qed.

Lemma wp_consult {A : Type} (f : GdbserverProcess W -> A * W) Q p :
  (forall a w, f p = (a, w) -> Q a (set_conn (set_stub w (conn p)) p)) ->
  wp (consult f) Q p.
Proof. unfold wp, consult. destruct (f p) as [a w]. intros H. by apply H. Qed.

Lemma wp_transact {A : Type} (k : Packet) (f : W -> A * W) Q p :
  (forall a w, f (stub (conn p)) = (a, w) ->
     Q a (set_conn (set_stub w (log_packet k (conn p))) p)) ->
  wp (transact k f) Q p.
Proof. unfold wp, transact. destruct (f _) as [a w]. intros H. by apply H. Qed.

Lemma wp_go_range {A : Type} (m : GdbserverProcess W -> gmap Z A) Q p :
  Q (range_order (stub (conn p)) (map_to_list (m p))) p -> wp (go_range m) Q p.
Proof. done. Qed.

End Postconditions.

Create HintDb engine.
#[global] Hint Unfold thread put_thread thread_regs put_regs regs_PC regs_CX regs_setPC
  regs_setCX breakpoint put_breakpoint conn_setBreakpoint conn_clearBreakpoint
  conn_readRegisters conn_readRegister conn_writeRegisters conn_writeRegister
  conn_readMemory conn_writeMemory conn_allocMemory conn_queryThreads
  conn_threadStopInfo conn_kill conn_detach conn_sendCtrlC
  writeSomeRegisters readSomeRegisters readRegisters_buf readRegister_named
  writeRegister_named readRegister_info record_G no_G step_and_read
  restore_registers restore_at_pc : engine.

(** The fields of threads and register banks. *)
Ltac objects :=
  cbn [ID strID t_regs CurrentBreakpoint BreakpointConditionMet BreakpointConditionError
       setbp set_regs set_CurrentBreakpoint set_condition set_setbp
       regs regsInfo tls gaddr hasgaddr buf with_buf with_gaddr] in *.

(** One construct of the engine. *)
Ltac wp_step :=
  lazymatch goal with
  | |- wp (bind _ _) _ _ => apply wp_bind
  | |- wp (ret _) _ _ => apply wp_ret
  | |- wp (gets _) _ _ => apply wp_gets
  | |- wp (modify _) _ _ => apply wp_modify
  | |- wp panic _ _ => apply wp_panic
  | |- wp out_of_fuel _ _ => apply wp_out_of_fuel
  | |- wp (must _) _ _ => apply wp_must; intros ? ?; simplify_eq
  | |- wp (consult _) _ _ => apply wp_consult; intros ? ? ?
  | |- wp (transact _ _) _ _ => apply wp_transact; intros ? ? ?
  | |- wp (go_range _) _ _ => apply wp_go_range
  | |- wp (match ?x with _ => _ end) _ _ =>
      first [ match goal with H : x = _ |- _ => rewrite H end | destruct x eqn:? ]
  | |- wp (each _ _) _ _ => progress cbn [each]
  | |- wp _ _ _ => progress autounfold with engine
  end;
  fields; objects; rewrite ?lookup_insert_eq.

Ltac wp_run := repeat wp_step.

(** From a finished run to the postcondition it has to satisfy. *)
Ltac wp_of E := apply (wp_elim_eq _ _ _ _ _ E); clear E.

Section CurrentBreakpoints2.
Context {W : Type} `{!Stub W} `{!Runtime W}.
Local Open Scope engine_scope.

Definition found_at (p : GdbserverProcess W) (pc : Z) : option loc :=
  match breakpoints p !! ((pc - BreakpointSize (bi p)) mod 2 ^ 64) with
  | Some b => Some b
  | None => breakpoints p !! pc
  end.

Lemma wp_FindBreakpoint pc Q (p : GdbserverProcess W) :
  Q (found_at p pc) p -> wp (FindBreakpoint pc) Q p.
Proof.
  intros H. unfold FindBreakpoint. do 4 wp_step.
  unfold found_at, wrap64 in *. rewrite Zminus_mod_idemp_r.
  destruct (breakpoints p !! _); [done|]. by destruct (breakpoints p !! pc).
Qed.

(** The request that writes the PC of a thread back to the stub. *)
Definition write_PC_packet (gcmd : bool) (th : GdbserverThread) (r : gdbRegisters) : Packet :=
  if gcmd then PktWriteRegisters (strID th) (buf r)
  else PktWriteRegister (strID th) (regnum (reg_index r regnamePC)) (reg_value r regnamePC).

(** X12.  [SetCurrentBreakpoint] on a thread stopped at [pc].  The table is
    not changed.  When the lookup finds nothing the call only clears the
    current breakpoint of the thread.  When it finds a breakpoint at the PC
    itself nothing is sent; when it finds one before the PC, the PC of the
    thread is set to the address of the breakpoint and written back to the
    stub (all registers with [G], or the PC alone with [P]) before anything
    is recorded: if that write fails its error is returned and the thread
    has no current breakpoint, though its copy of the PC is already
    rewound.  Otherwise the breakpoint becomes the current one, and its hit
    counters are incremented exactly when its condition is met. *)
Theorem SetCurrentBreakpoint_rewinds (t : loc) (p : GdbserverProcess W)
    (th : GdbserverThread) (pc : Z) (err : option error) (p' : GdbserverProcess W) :
  thread_store p !! t = Some th ->
  PC (t_regs th) = Some pc ->
  SetCurrentBreakpoint t p = Done err p' ->
  breakpoints p' = breakpoints p
  /\ match found_at p pc with
     | None =>
         err = None
         /\ p' = set_thread_store
                   (<[t := set_CurrentBreakpoint None th]> (thread_store p)) p
     | Some b =>
         exists bp th',
           breakpoint_store p !! b = Some bp
           /\ thread_store p' !! t = Some th'
           /\ (if decide (pc = Addr bp)
               then err = None /\ t_regs th' = t_regs th
                    /\ sent (conn p') = sent (conn p)
               else exists r',
                      setPC (t_regs th) (Addr bp) = Some r'
                      /\ t_regs th' = r'
                      /\ PC r' = Some (Addr bp mod 2 ^ 64)
                      /\ sent (conn p')
                         = sent (conn p) ++ [write_PC_packet (gcmdok p) th r'])
           /\ match err with
              | Some _ =>
                  CurrentBreakpoint th' = None
                  /\ breakpoint_store p' = breakpoint_store p
              | None =>
                  CurrentBreakpoint th' = Some b
                  /\ if BreakpointConditionMet th'
                     then exists g,
                            breakpoint_store p' = <[b := count_hit g bp]> (breakpoint_store p)
                     else breakpoint_store p' = breakpoint_store p
              end
     end.
Proof.
  intros Hth Hpc. revert err p'.
  refine (wp_elim _ (fun err p' => _ /\ match found_at p pc with None => _ | Some b => _ end) _ _).
  unfold SetCurrentBreakpoint.
  wp_run. simplify_eq. apply wp_FindBreakpoint.
  change (found_at (set_thread_store _ p) pc) with (found_at p pc).
  destruct (found_at p pc) as [b|]; [|by wp_run].
  wp_run; simplify_eq.
  - assert (Hput : forall r', setPC (t_regs th) (Addr a) = Some r' ->
                     PC r' = Some (Addr a mod 2 ^ 64)).
    { intros r' Hr'. pose proof (put_u64_get_u64 (t_regs th) regnamePC (Addr a)) as Hrt.
      unfold setPC in Hr'. rewrite Hr' in Hrt. apply Hrt. }
    unfold SetPC. wp_run; simplify_eq.
    all: split; [done|]; eexists _, _; split; [done|]; split; [done|].
    all: rewrite decide_False by done; objects.
    all: try (split; [eexists; split; [done|]; split; [done|]; split;
                      [by apply Hput|]|]).
    all: try done; eauto.
  - split; [done|]. eexists _, _. split; [done|]. split; [done|].
    rewrite decide_True by (by destruct (decide (pc = Addr a))). objects. by eauto 10.
  - split; [done|]. eexists _, _. split; [done|]. split; [done|].
    rewrite decide_True by (by destruct (decide (pc = Addr a))). by objects.
Qed.
End CurrentBreakpoints2.

(** ** Identifiers of breakpoints *)
Section Identifiers.
Context {W : Type} `{!Stub W} `{!Runtime W}.
Local Open Scope engine_scope.

Lemma wrap_int_small (z : Z) : - 2 ^ 63 <= z < 2 ^ 63 -> wrap_int z = z.
Proof. intros Hz. unfold wrap_int. rewrite Z.mod_small; lia. Qed.

(** The identifiers a call to [SetBreakpoint] consumes: one when the address
    is free and lies in a function, whatever the stub answers then. *)
Definition ids_taken (p : GdbserverProcess W) (addr : Z) : Z :=
  match breakpoints p !! addr, (PCToLine (bi p) addr).2 with
  | None, Some _ => 1
  | _, _ => 0
  end.

Lemma SetBreakpoint_counters p addr kind cond r err p' :
  SetBreakpoint addr kind cond p = Done (r, err) p' ->
  0 <= breakpointIDCounter p < 2 ^ 63 - 1 ->
  0 <= internalBreakpointIDCounter p < 2 ^ 63 - 1 ->
  breakpointIDCounter p'
  = breakpointIDCounter p + (if decide (kind = UserBreakpoint) then ids_taken p addr else 0)
  /\ internalBreakpointIDCounter p'
     = internalBreakpointIDCounter p
       + (if decide (kind = UserBreakpoint) then 0 else ids_taken p addr)
  /\ forall b, r = Some b ->
       err = None
       /\ breakpoint_store p !! b = None
       /\ exists bp,
            breakpoint_store p' !! b = Some bp
            /\ Addr bp = addr /\ Kind bp = kind /\ Cond bp = cond
            /\ Name bp = EmptyString
            /\ 0 < bp_ID bp
            /\ bp_ID bp = if decide (kind = UserBreakpoint)
                          then breakpointIDCounter p'
                          else internalBreakpointIDCounter p'.
Proof.
  intros E Hu Hi. remember (r, err) as re eqn:Hre. revert re p' E Hre.
  refine (wp_elim _ (fun re p' => re = (r, err) -> _) _ _).
  unfold SetBreakpoint, ids_taken.
  wp_run; intros; simplify_eq; fields.
  all: repeat match goal with H : PCToLine _ _ = _ |- _ => rewrite H end; simpl.
  all: repeat case_decide; try done; rewrite ?wrap_int_small by lia; try lia.
  all: split; [lia|]; split; [lia|]; intros b Hb; simplify_eq.
  all: split; [done|]; split; [apply not_elem_of_dom, is_fresh|].
  all: rewrite lookup_insert_eq; eexists; split; [done|]; simpl.
  all: repeat split; try done; lia.
Qed.

(** X13.  [SetBreakpoint] numbers user breakpoints and internal ones from
    two counters that count up: while the counters are below the largest
    [int], a call whose address is free and lies in a function adds one to
    the counter of its kind, even when the stub then refuses the
    breakpoint, and leaves the other counter alone; a call that is refused
    before (the address is taken, or lies in no function) changes neither.
    The breakpoint of a successful call is a new object with the address,
    kind and condition asked for, and its id is the new value of its
    counter: positive for an internal breakpoint as for a user one. *)
Theorem SetBreakpoint_ids_count_up (p : GdbserverProcess W) (addr : Z)
    (kind : BreakpointKind) (cond : option Expr)
    (r : option loc) (err : option error) (p' : GdbserverProcess W) :
  SetBreakpoint addr kind cond p = Done (r, err) p' ->
  0 <= breakpointIDCounter p < 2 ^ 63 - 1 ->
  0 <= internalBreakpointIDCounter p < 2 ^ 63 - 1 ->
  breakpointIDCounter p'
  = breakpointIDCounter p + (if decide (kind = UserBreakpoint) then ids_taken p addr else 0)
  /\ internalBreakpointIDCounter p'
     = internalBreakpointIDCounter p
       + (if decide (kind = UserBreakpoint) then 0 else ids_taken p addr)
  /\ forall b, r = Some b ->
       err = None
       /\ breakpoint_store p !! b = None
       /\ exists bp,
            breakpoint_store p' !! b = Some bp
            /\ Addr bp = addr /\ Kind bp = kind /\ Cond bp = cond
            /\ Name bp = EmptyString
            /\ 0 < bp_ID bp
            /\ bp_ID bp = if decide (kind = UserBreakpoint)
                          then breakpointIDCounter p'
                          else internalBreakpointIDCounter p'.
Proof. apply SetBreakpoint_counters. Qed.

(** X14.  The breakpoint that [GdbserverConnect] sets on
    [runtime.startpanic]: when the address is free and [SetBreakpoint]
    succeeds, the table holds at that address a breakpoint of kind User
    named "unrecovered-panic" with id -1, and the counter of user ids is
    back to what it was; when [SetBreakpoint] fails, the table is unchanged
    and the id it may have taken is not given back. *)
Theorem panic_breakpoint_has_id_minus_one (pc : Z) (p p' : GdbserverProcess W) :
  set_panic_breakpoint (inr pc) p = Done tt p' ->
  0 <= breakpointIDCounter p < 2 ^ 63 - 1 ->
  0 <= internalBreakpointIDCounter p < 2 ^ 63 - 1 ->
  breakpoints p !! pc = None ->
  internalBreakpointIDCounter p' = internalBreakpointIDCounter p
  /\ match breakpoints p' !! pc with
     | Some b =>
         breakpoints p' = <[pc := b]> (breakpoints p)
         /\ breakpointIDCounter p' = breakpointIDCounter p
         /\ exists bp,
              breakpoint_store p' !! b = Some bp
              /\ Addr bp = pc /\ Kind bp = UserBreakpoint /\ Cond bp = None
              /\ Name bp = "unrecovered-panic" /\ bp_ID bp = -1
     | None =>
         breakpoints p' = breakpoints p
         /\ breakpoint_store p' = breakpoint_store p
         /\ breakpointIDCounter p' = breakpointIDCounter p + ids_taken p pc
     end.
Proof.
  intros E Hu Hi Hfree. unfold set_panic_breakpoint in E.
  apply bind_Done in E as ([r err] & p1 & Hset & E).
  pose proof (SetBreakpoint_counters _ _ _ _ _ _ _ Hset Hu Hi) as (Hc & Hci & Hnew).
  pose proof (SetBreakpoint_cases _ _ _ _ _ _ _ Hset) as Hcases.
  rewrite decide_True in Hc, Hci by done.
  destruct err as [e|].
  - unfold ret in E. simplify_eq. destruct Hcases as (-> & Hb & Hs).
    rewrite Hb, Hfree. split; [lia|]. done.
  - destruct Hcases as (b & -> & _ & Hb & _).
    destruct (Hnew b eq_refl) as (_ & Hold & bp & Hbp & Haddr & Hkind & Hcond & _).
    revert E. change (must (Some b)) with (@ret W _ b).
    revert p'. refine (wp_elim_unit _ (fun p' => _) _ _).
    wp_run. rewrite Hb, lookup_insert_eq.
    split; [lia|]. split; [done|].
    assert (Htaken : ids_taken p (Addr bp) = 1).
    { unfold ids_taken. rewrite Hfree.
      destruct (SetBreakpoint_success _ _ _ _ _ _ Hset) as (f & l & fn & id & -> & _).
      done. }
    split; [rewrite Hc, Htaken, wrap_int_small by lia; lia|].
    rewrite lookup_insert_eq. eexists. split; [done|]. simpl.
    by rewrite Hkind, Hcond.
Qed.

End Identifiers.

(** ** Stepping a thread *)
Section Stepping.
Context {W : Type} `{!Stub W} `{!Runtime W}.
Local Open Scope engine_scope.

Lemma wp_frame {A : Type} (R : relation (GdbserverProcess W)) (m : M W A) Q p :
  preserves R m -> (forall a p', R p p' -> Q a p') -> wp m Q p.
Proof. intros Hm HQ. apply wp_intro. intros a p' E. apply HQ. by apply (Hm p a p'). Qed.

(** What the bookkeeping of threads and goroutines leaves alone. *)
Definition bookkeeping_only (p p' : GdbserverProcess W) : Prop :=
  conn p' = conn p /\ bi p' = bi p /\ exited p' = exited p
  /\ breakpoints p' = breakpoints p /\ breakpoint_store p' = breakpoint_store p
  /\ breakpointIDCounter p' = breakpointIDCounter p
  /\ internalBreakpointIDCounter p' = internalBreakpointIDCounter p
  /\ gcmdok p' = gcmdok p /\ threadStopInfo p' = threadStopInfo p.

#[local] Instance bookkeeping_only_core : FrameCore bookkeeping_only.
Proof.
  split; [split|..]; unfold bookkeeping_only.
  - by intros p.
  - intros p q r H1 H2. destruct_and!. repeat split; congruence.
  - done.
  - done.
  - done.
  - done.
  - done.
  - done.
  - done.
Qed.

(** The error of a stop reply. *)
Definition reply_error (reply : StopReply) : option error :=
  match reply with
  | Stopped _ _ _ => None
  | StopFailed e => Some e
  end.

Lemma wp_conn_step (tid : string) (tu : option threadUpdater) Q (p : GdbserverProcess W) :
  (forall reply w r q,
     stub_step tid (stub (conn p)) = (reply, w) ->
     conn q = set_stub w (log_packet (PktStep tid) (conn p)) ->
     bookkeeping_only (set_conn (set_stub w (log_packet (PktStep tid) (conn p))) p) q ->
     r.1.2 = reply_error reply ->
     Q r q) ->
  wp (conn_step tid tu) Q p.
Proof.
  intros HQ. unfold conn_step. wp_run.
  - eapply (wp_frame bookkeeping_only).
    { unfold absorb_threads. frame_all. }
    intros u q Hq. wp_run. eapply HQ; [done| |done|done].
    by destruct Hq as [-> _].
  - eapply HQ; [done|done| |done]. reflexivity.
Qed.

(** X15.  [stepInstruction] lifts the breakpoint under the PC of the thread
    for the time of the step: with a breakpoint in the table at the PC it
    sends [z0], the step and [Z0], in this order; when the stub refuses
    [z0] it stops there with that error; the [Z0] is sent even when the
    step failed and its own answer is dropped, the result being the error
    of the step.  Without a breakpoint at the PC only the step is sent.
    The breakpoint table is the same afterwards. *)
Theorem stepInstruction_lifts_breakpoint (t : loc) (tu : threadUpdater)
    (p : GdbserverProcess W) (th : GdbserverThread) (pc : Z)
    (err : option error) (p' : GdbserverProcess W) :
  thread_store p !! t = Some th ->
  PC (t_regs th) = Some pc ->
  stepInstruction t tu p = Done err p' ->
  breakpoints p' = breakpoints p
  /\ match breakpoints p !! pc with
     | Some _ =>
         match stub_clearBreakpoint pc (stub (conn p)) with
         | (Some e, _) =>
             err = Some e
             /\ sent (conn p') = sent (conn p) ++ [PktClearBreakpoint pc]
         | (None, w) =>
             err = reply_error (stub_step (strID th) w).1
             /\ sent (conn p')
                = sent (conn p)
                  ++ [PktClearBreakpoint pc; PktStep (strID th); PktSetBreakpoint pc]
         end
     | None =>
         err = reply_error (stub_step (strID th) (stub (conn p))).1
         /\ sent (conn p') = sent (conn p) ++ [PktStep (strID th)]
     end.
Proof.
  intros Hth Hpc. revert err p'.
  refine (wp_elim _ (fun err p' => _) _ _).
  unfold stepInstruction. wp_run; simplify_eq.
  - by rewrite H.
  - rewrite H. apply wp_conn_step.
    intros reply w0 [[[tid sig] e] u] q Hstep Hconn Hq He.
    fields. simpl in He. subst e.
    destruct Hq as (_ & _ & _ & Hbps & _). fields.
    wp_run. rewrite Hconn, Hstep. fields. rewrite Hbps. simpl.
    split; [done|]. split; [done|]. by rewrite <- !app_assoc.
  - apply wp_conn_step. intros reply w0 [[[tid sig] e] u] q Hstep Hconn Hq He.
    fields. simpl in He. subst e.
    destruct Hq as (_ & _ & _ & Hbps & _). fields.
    wp_run. rewrite Hconn, Hstep. fields. by rewrite Hbps.
Qed.

End Stepping.

(** ** The breakpoint table along a session *)
Section TableInvariant.
Context {W : Type} `{!Stub W} `{!Runtime W}.
Local Open Scope engine_scope.

(** Every entry of the table is a breakpoint object stored under its own
    address. *)
Definition keyed_by_address (p : GdbserverProcess W) : Prop :=
  forall addr b, breakpoints p !! addr = Some b ->
    exists bp, breakpoint_store p !! b = Some bp /\ Addr bp = addr.

Definition keeps_keyed (p p' : GdbserverProcess W) : Prop :=
  keyed_by_address p -> keyed_by_address p'.

#[local] Instance keeps_keyed_preorder : PreOrder keeps_keyed.
Proof. split; unfold keeps_keyed; [by intros p|intros p q r; tauto]. Qed.

#[local] Instance keeps_keyed_core : FrameCore keeps_keyed.
Proof. split; [apply _|..]; by unfold keeps_keyed. Qed.

#[local] Instance keeps_keyed_conn : FrameConn keeps_keyed.
Proof. split; by unfold keeps_keyed. Qed.

#[local] Instance keeps_keyed_exited : FrameExited keeps_keyed.
Proof. split; by unfold keeps_keyed. Qed.

#[local] Instance keeps_keyed_flags : FrameFlags keeps_keyed.
Proof. split; by unfold keeps_keyed. Qed.

Lemma SetBreakpoint_keeps_keyed addr kind cond :
  preserves keeps_keyed (SetBreakpoint addr kind cond).
Proof.
  intros p [r err] p' E Hp.
  pose proof (SetBreakpoint_cases _ _ _ _ _ _ _ E) as Hcases.
  destruct err as [e|].
  { destruct Hcases as (_ & Hb & Hs). intros a b. rewrite Hb, Hs. apply Hp. }
  destruct Hcases as (b & -> & _).
  destruct (SetBreakpoint_success _ _ _ _ _ _ E)
    as (f & l & fn & id & _ & Hfresh & _ & _ & Hb & Hs & _).
  intros a b'. rewrite Hb, Hs. intros Ha.
  destruct (decide (a = addr)) as [->|Hne].
  - rewrite lookup_insert_eq in Ha. simplify_eq. rewrite lookup_insert_eq. by eexists.
  - rewrite lookup_insert_ne in Ha by done.
    destruct (Hp a b' Ha) as (bp & Hbp & Haddr).
    exists bp. split; [|done]. rewrite lookup_insert_ne; [done|].
    intros Heq. apply (is_fresh (dom (breakpoint_store p))).
    apply elem_of_dom. exists bp. congruence.
Qed.

Lemma ClearBreakpoint_keeps_keyed addr : preserves keeps_keyed (ClearBreakpoint addr).
Proof.
  intros p [r err] p' E Hp.
  pose proof (ClearBreakpoint_cases _ _ _ _ _ E) as Hcases.
  destruct err as [e|].
  { destruct Hcases as (_ & Hb & Hs). intros a b. rewrite Hb, Hs. apply Hp. }
  destruct Hcases as (b & -> & _ & Hb & _).
  assert (Hs : breakpoint_store p' = breakpoint_store p).
  { wp_of E. unfold ClearBreakpoint. wp_run; intros; by simplify_eq. }
  intros a b'. rewrite Hb, Hs. intros Ha.
  apply lookup_delete_Some in Ha as [_ Ha]. by apply Hp.
Qed.

(** A hit changes the counters of one breakpoint object and nothing else
    of the table. *)
Lemma SetCurrentBreakpoint_table t p err p' :
  SetCurrentBreakpoint t p = Done err p' ->
  breakpoints p' = breakpoints p
  /\ (breakpoint_store p' = breakpoint_store p
      \/ exists b bp g,
           breakpoint_store p !! b = Some bp
           /\ breakpoint_store p' = <[b := count_hit g bp]> (breakpoint_store p)).
Proof.
  revert err p'. refine (wp_elim _ (fun _ p' => _) _ _).
  unfold SetCurrentBreakpoint. wp_run. apply wp_FindBreakpoint.
  wp_run; try (unfold SetPC; wp_run); simplify_eq; (split; [done|]); eauto 10.
Qed.

Lemma SetCurrentBreakpoint_keeps_keyed t : preserves keeps_keyed (SetCurrentBreakpoint t).
Proof.
  intros p err p' E Hp.
  destruct (SetCurrentBreakpoint_table _ _ _ _ E) as [Hb [Hs|(b & bp & g & Hbp & Hs)]];
    intros a b'; rewrite Hb, Hs; [by apply Hp|].
  intros Ha. destruct (Hp a b' Ha) as (bp' & Hbp' & Haddr).
  destruct (decide (b' = b)) as [->|Hne].
  - rewrite lookup_insert_eq. eexists. split; [done|]. simpl. congruence.
  - rewrite lookup_insert_ne by done. by exists bp'.
Qed.

Lemma set_panic_breakpoint_keeps_keyed panicpc :
  preserves keeps_keyed (set_panic_breakpoint panicpc).
Proof.
  intros p [] p' E Hp. destruct panicpc as [e|pc]; simpl in E.
  { unfold ret in E. by simplify_eq. }
  apply bind_Done in E as ([r err] & p1 & Hset & E).
  pose proof (SetBreakpoint_keeps_keyed _ _ _ _ _ _ Hset Hp) as Hp1.
  revert p' E. destruct err as [e|].
  { intros p' E. unfold ret in E. by simplify_eq. }
  refine (wp_elim_unit _ (fun p' => _) _ _). wp_run.
  intros addr b'. fields. intros Ha.
  destruct (Hp1 addr b' Ha) as (bp' & Hbp' & Haddr).
  destruct (decide (b' = a)) as [->|Hne].
  - rewrite lookup_insert_eq. eexists. split; [done|]. simpl. congruence.
  - rewrite lookup_insert_ne by done. by exists bp'.
Qed.

#[local] Instance keeps_keyed_breakpoints : FrameBreakpoints keeps_keyed.
Proof.
  split.
  - apply SetBreakpoint_keeps_keyed.
  - apply ClearBreakpoint_keeps_keyed.
  - apply SetCurrentBreakpoint_keeps_keyed.
  - apply set_panic_breakpoint_keeps_keyed.
Qed.

Lemma session_keeps (Inv : GdbserverProcess W -> Prop) :
  (forall op p r p', run op p = Done r p' -> Inv p -> Inv p') ->
  forall ops p, Inv p -> Forall Inv (session ops p).
Proof.
  intros Hrun ops. induction ops as [|op rest IH]; intros p Hp; simpl.
  - by constructor.
  - constructor; [done|].
    destruct (run op p) as [r p'| |] eqn:E; [|done|done].
    apply IH. by eapply Hrun.
Qed.

(** X16.  In every process a session of calls goes through from the
    process [GdbserverConnect] builds, every entry of the breakpoint table
    points to a breakpoint object whose [Addr] is the address it is stored
    under; so what [FindBreakpoint(pc)] finds is a breakpoint at [pc] or one
    breakpoint-size before it, and the lookup never finds an entry without
    its object. *)
Theorem breakpoints_keyed_by_address (c : gdbConn W) (b : BinaryInfo)
    (ops : list Operation) (p : GdbserverProcess W) :
  p ∈ session ops (new_GdbserverProcess c b) ->
  keyed_by_address p
  /\ forall pc found,
       FindBreakpoint pc p = Done (Some found) p ->
       exists bp,
         breakpoint_store p !! found = Some bp
         /\ (Addr bp = (pc - BreakpointSize (bi p)) mod 2 ^ 64 \/ Addr bp = pc).
Proof.
  intros Hp.
  assert (Hkeyed : keyed_by_address p).
  { revert p Hp. apply Forall_forall. apply session_keeps.
    - intros op q r q' E. apply (frame_run keeps_keyed op q r q' E).
    - intros addr b'. simpl. by rewrite lookup_empty. }
  split; [done|]. intros pc found E.
  assert (Hfound : found_at p pc = Some found).
  { wp_of E. apply wp_FindBreakpoint. intros. by simplify_eq. }
  unfold found_at in Hfound.
  destruct (breakpoints p !! ((pc - BreakpointSize (bi p)) mod 2 ^ 64)) as [b1|] eqn:H1.
  - simplify_eq. destruct (Hkeyed _ _ H1) as (bp & Hbp & Haddr). eauto.
  - destruct (Hkeyed _ _ Hfound) as (bp & Hbp & Haddr). eauto.
Qed.

End TableInvariant.

(** ** What [ContinueOnce] returns *)
Section ContinueResult.
Context {W : Type} `{!Stub W} `{!Runtime W}.
Local Open Scope engine_scope.

Lemma wp_any {A : Type} (m : M W A) (Q : A -> GdbserverProcess W -> Prop) p :
  (forall a p', Q a p') -> wp m Q p.
Proof. intros HQ. apply wp_intro. intros a p' _. apply HQ. Qed.

Lemma wp_find_thread threadID entries Q (p : GdbserverProcess W) :
  (forall r,
     match r with
     | Some t => exists tid th, (tid, t) ∈ entries /\ thread_store p !! t = Some th
                                /\ strID th = threadID
     | None => True
     end -> Q r p) ->
  wp (find_thread threadID entries) Q p.
Proof.
  revert Q. induction entries as [|[tid t] rest IH]; intros Q HQ; simpl.
  - wp_run. by apply HQ.
  - wp_run.
    + apply HQ. exists tid, a. split; [apply list_elem_of_here|done].
    + apply IH. intros r Hr. apply HQ. destruct r as [t'|]; [|done].
      destruct Hr as (tid' & th & Hin & Hth). exists tid', th.
      split; [by apply list_elem_of_further|done].
Qed.

(** X17.  [ContinueOnce] returns a thread or an error, never both and never
    neither; the thread it returns is an entry of the thread table it
    leaves. *)
Theorem ContinueOnce_returns_thread_or_error (fuel : nat) (p : GdbserverProcess W)
    (r : option loc) (err : option error) (p' : GdbserverProcess W) :
  ContinueOnce fuel p = Done (r, err) p' ->
  match r, err with
  | Some t, None =>
      exists tid th, threads p' !! tid = Some t /\ thread_store p' !! t = Some th
  | None, Some _ => True
  | _, _ => False
  end.
Proof.
  intros E. wp_of E. unfold ContinueOnce, refuse_exited.
  wp_run; try by (intros; simplify_eq).
  apply wp_any. intros err1 p1. wp_run; try by (intros; simplify_eq).
  apply wp_any. intros err2 p2. wp_run; try by (intros; simplify_eq).
  apply wp_any. intros r3 p3. wp_run; try by (intros; simplify_eq).
  apply wp_any. intros err4 p4. wp_run; try by (intros; simplify_eq).
  apply wp_any. intros err5 p5. wp_run; try by (intros; simplify_eq).
  apply wp_find_thread. intros found Hfound. wp_run; try by (intros; simplify_eq).
  intros; simplify_eq.
  destruct Hfound as (tid & th & Hin & Hth & _). exists tid, th. split; [|done].
  apply elem_of_map_to_list. by rewrite range_order_perm in Hin.
Qed.

End ContinueResult.

(** ** Clearing the internal breakpoints *)
Section InternalBreakpoints.
Context {W : Type} `{!Stub W} `{!Runtime W}.
Local Open Scope engine_scope.

(** The breakpoint object at [b] is an internal one. *)
Definition internal_at (p : GdbserverProcess W) (b : loc) : Prop :=
  exists bp, breakpoint_store p !! b = Some bp /\ Internal bp = true.

Lemma ClearBreakpoint_store addr p r p' :
  ClearBreakpoint addr p = Done r p' -> breakpoint_store p' = breakpoint_store p.
Proof. intros E. wp_of E. unfold ClearBreakpoint. wp_run; intros; by simplify_eq. Qed.

Lemma clear_internal_spec entries p err p' :
  keyed_by_address p ->
  clear_internal entries p = Done err p' ->
  breakpoint_store p' = breakpoint_store p
  /\ keyed_by_address p'
  /\ breakpoints p' ⊆ breakpoints p
  /\ (err = None ->
      forall addr b,
        breakpoints p' !! addr = Some b
        <-> breakpoints p !! addr = Some b /\ ~ (addr ∈ entries.*1 /\ internal_at p b)).
Proof.
  revert p. induction entries as [|[addr b0] rest IH]; intros p Hp E; simpl in E.
  { unfold ret in E. simplify_eq. split; [done|]. split; [done|]. split; [done|].
    intros _ addr b. rewrite fmap_nil, elem_of_nil. tauto. }
  apply bind_Done in E as (cur & q & Hcur & E). unfold gets in Hcur. simplify_eq.
  assert (Hskip : (forall b, breakpoints q !! addr = Some b -> ~ internal_at q b) ->
                  clear_internal rest q = Done err p' ->
                  breakpoint_store p' = breakpoint_store q
                  /\ keyed_by_address p'
                  /\ breakpoints p' ⊆ breakpoints q
                  /\ (err = None ->
                      forall a b,
                        breakpoints p' !! a = Some b
                        <-> breakpoints q !! a = Some b
                            /\ ~ (a ∈ ((addr, b0) :: rest).*1 /\ internal_at q b))).
  { intros Hnot E'. destruct (IH q Hp E') as (Hs & Hk & Hsub & Hiff).
    split; [done|]. split; [done|]. split; [done|].
    intros -> a b. rewrite (Hiff eq_refl a b), fmap_cons, elem_of_cons. simpl.
    split; intros [Ha Hn]; (split; [done|]).
    - intros [[->|Hin] Hint]; [by apply (Hnot b)|tauto].
    - tauto. }
  destruct (breakpoints q !! addr) as [b|] eqn:Hb; [|by apply Hskip].
  apply bind_Done in E as (bp & q1 & Hbp & E).
  assert (breakpoint_store q !! b = Some bp /\ q1 = q) as [Hbp' ->].
  { wp_of Hbp. wp_run. intros. by simplify_eq. }
  destruct (Internal bp) eqn:Hint.
  2:{ apply Hskip; [|done]. intros b' Hb' (bp' & Hbp'' & Hint'). congruence. }
  destruct (Hp addr b Hb) as (bp' & Hbp'' & Haddr).
  assert (bp' = bp) as -> by congruence. rewrite Haddr in E.
  apply bind_Done in E as ([r cerr] & q1 & Hclear & E).
  pose proof (ClearBreakpoint_cases _ _ _ _ _ Hclear) as Hcases.
  pose proof (ClearBreakpoint_store _ _ _ _ Hclear) as Hstore.
  pose proof (ClearBreakpoint_keeps_keyed _ _ _ _ Hclear Hp) as Hq1.
  destruct cerr as [e|].
  { unfold ret in E. simplify_eq. destruct Hcases as (_ & Hbs & _).
    split; [done|]. split; [done|]. split; [by rewrite Hbs|]. done. }
  destruct Hcases as (b' & _ & _ & Hbs & _).
  destruct (IH q1 Hq1 E) as (Hs & Hk & Hsub & Hiff).
  split; [congruence|]. split; [done|].
  split; [etransitivity; [exact Hsub|]; rewrite Hbs; apply delete_subseteq|].
  intros -> a b1. rewrite (Hiff eq_refl a b1), Hbs, fmap_cons, elem_of_cons. simpl.
  rewrite lookup_delete_Some. unfold internal_at. rewrite Hstore.
  split.
  - intros [[Hne Ha] Hn]. split; [done|]. intros [[->|Hin] Hi]; [done|tauto].
  - intros [Ha Hn]. split; [split; [|done]|tauto].
    intros ->. apply Hn. split; [by left|]. exists bp. split; [congruence|done].
Qed.

(** The current breakpoint of a thread object is not an internal one. *)
Definition no_internal_current (p : GdbserverProcess W) (t : loc) : Prop :=
  forall th b, thread_store p !! t = Some th -> CurrentBreakpoint th = Some b ->
    ~ internal_at p b.

Lemma drop_internal_current_spec t p err p' :
  drop_internal_current t p = Done err p' ->
  err = None
  /\ breakpoints p' = breakpoints p /\ breakpoint_store p' = breakpoint_store p
  /\ threads p' = threads p
  /\ no_internal_current p' t
  /\ forall t', no_internal_current p t' -> no_internal_current p' t'.
Proof.
  intros E. wp_of E. unfold drop_internal_current. wp_run; intros; simplify_eq.
  all: split; [done|]; split; [done|]; split; [done|]; split; [done|].
  all: unfold no_internal_current, internal_at; fields.
  - split.
    + intros th b. rewrite lookup_insert_eq. intros; by simplify_eq.
    + intros t' Ht' th b. destruct (decide (t' = t)) as [->|Hne].
      * rewrite lookup_insert_eq. intros; by simplify_eq.
      * rewrite lookup_insert_ne by done. apply Ht'.
  - split; [|done]. intros th b Hth Hb (bp & Hbp & Hint). congruence.
  - split; [|done]. intros th b Hth Hb. congruence.
Qed.

Lemma drop_internal_loop entries p err p' :
  each_thread drop_internal_current entries p = Done err p' ->
  err = None
  /\ breakpoints p' = breakpoints p /\ breakpoint_store p' = breakpoint_store p
  /\ threads p' = threads p
  /\ (forall tid t, (tid, t) ∈ entries -> threads p !! tid = Some t ->
        no_internal_current p' t)
  /\ forall t', no_internal_current p t' -> no_internal_current p' t'.
Proof.
  revert p. induction entries as [|[tid t0] rest IH]; intros p E; simpl in E.
  { unfold ret in E. simplify_eq. repeat split; try done.
    intros tid t Hin. by apply elem_of_nil in Hin. }
  apply bind_Done in E as (cur & q & Hcur & E). unfold gets in Hcur. simplify_eq.
  destruct (threads q !! tid) as [t|] eqn:Ht.
  - apply bind_Done in E as (err1 & q1 & Hdrop & E).
    destruct (drop_internal_current_spec _ _ _ _ Hdrop)
      as (-> & Hb1 & Hs1 & Ht1 & Hdone & Hkeep1).
    destruct (IH _ E) as (-> & Hb & Hs & Hts & Hrest & Hkeep).
    split; [done|]. split; [congruence|]. split; [congruence|]. split; [congruence|].
    split; [|by auto].
    intros tid' t' Hin Ht'. apply elem_of_cons in Hin as [Heq|Hin].
    + simplify_eq. by apply Hkeep.
    + apply (Hrest tid'); [done|congruence].
  - destruct (IH _ E) as (-> & Hb & Hs & Hts & Hrest & Hkeep).
    repeat split; try done.
    intros tid' t' Hin Ht'. apply elem_of_cons in Hin as [Heq|Hin].
    + simplify_eq.
    + by apply (Hrest tid').
Qed.

(** X18.  On a table whose entries are stored under their own addresses, a
    [ClearInternalBreakpoints] that returns nil leaves exactly the entries
    of user breakpoints in the table, and no thread of the thread table
    with an internal breakpoint as its current breakpoint; the breakpoint
    objects are not changed.  With or without an error the table only
    loses entries. *)
Theorem ClearInternalBreakpoints_leaves_user_breakpoints
    (p : GdbserverProcess W) (err : option error) (p' : GdbserverProcess W) :
  keyed_by_address p ->
  ClearInternalBreakpoints p = Done err p' ->
  breakpoint_store p' = breakpoint_store p
  /\ breakpoints p' ⊆ breakpoints p
  /\ (err = None ->
      (forall addr b,
         breakpoints p' !! addr = Some b
         <-> breakpoints p !! addr = Some b /\ ~ internal_at p b)
      /\ forall tid t, threads p' !! tid = Some t -> no_internal_current p' t).
Proof.
  intros Hp E. unfold ClearInternalBreakpoints in E.
  apply bind_Done in E as (entries & q & Hentries & E).
  unfold go_range in Hentries. simplify_eq.
  apply bind_Done in E as (err1 & q1 & Hclear & E).
  destruct (clear_internal_spec _ _ _ _ Hp Hclear) as (Hs & Hk & Hsub & Hiff).
  destruct err1 as [e|].
  { unfold ret in E. by simplify_eq. }
  apply bind_Done in E as (ths & q2 & Hths & E).
  unfold go_range in Hths. simplify_eq.
  destruct (drop_internal_loop _ _ _ _ E) as (-> & Hb2 & Hs2 & Ht2 & Hall & _).
  split; [congruence|]. split; [by rewrite Hb2|]. intros _. split.
  - intros addr b. rewrite Hb2, (Hiff eq_refl addr b).
    split; intros [Ha Hn]; (split; [done|]); [|tauto].
    intros Hint. apply Hn. split; [|done].
    apply list_elem_of_fmap. exists (addr, b). split; [done|].
    rewrite range_order_perm. by apply elem_of_map_to_list.
  - intros tid t Ht. rewrite Ht2 in Ht. apply (Hall tid); [|done].
    rewrite range_order_perm. by apply elem_of_map_to_list.
Qed.

End InternalBreakpoints.

(** ** Leaving the process *)
Section Leaving.
Context {W : Type} `{!Stub W} `{!Runtime W}.
Local Open Scope engine_scope.

(** What [Detach] returns once the stub has answered [detach_err] to its
    [D] request. *)
Definition detach_result (p : GdbserverProcess W) (detach_err : option error) : option error :=
  match detach_err with
  | Some e => Some e
  | None => bi_Close (bi p)
  end.

(** X19.  [Detach] on a process that is not marked as exited.  Without
    [kill] it sends [D].  With [kill] it sends [k] first: an error other
    than the exit of the process ends the call with that error; the exit
    of the process marks the process as exited and no [D] follows; a kill
    that the stub acknowledges does not mark the process, and [D] is sent
    after it.  An error of [D] is returned, otherwise the result of closing
    the binary information. *)
Theorem Detach_requests (kill : bool) (p : GdbserverProcess W)
    (err : option error) (p' : GdbserverProcess W) :
  exited p = false ->
  Detach kill p = Done err p' ->
  if kill then
    match stub_kill (stub (conn p)) with
    | (Some e, _) =>
        sent (conn p') = sent (conn p) ++ [PktKill]
        /\ if is_ProcessExitedError e
           then exited p' = true /\ err = bi_Close (bi p)
           else exited p' = false /\ err = Some e
    | (None, w) =>
        sent (conn p') = sent (conn p) ++ [PktKill; PktDetach]
        /\ exited p' = false
        /\ err = detach_result p (stub_detach w).1
    end
  else
    sent (conn p') = sent (conn p) ++ [PktDetach]
    /\ exited p' = false
    /\ err = detach_result p (stub_detach (stub (conn p))).1.
Proof.
  intros Hlive E. wp_of E. unfold Detach, Kill.
  destruct kill; wp_run; intros; simplify_eq; fields;
    repeat match goal with
    | H : stub_kill _ = _ |- _ => rewrite H; clear H
    | H : stub_detach _ = _ |- _ => rewrite H; clear H
    | H : is_ProcessExitedError _ = _ |- _ => rewrite H; clear H
    end; simpl; rewrite <- ?app_assoc; try done.

Qed.

End Leaving.

(** ** The resolvers of the G address *)
Section Resolvers.
Context {W : Type} `{!Stub W} `{!Runtime W}.
Local Open Scope engine_scope.

Lemma get_u64_range (r : gdbRegisters) (name : string) (v : Z) :
  get_u64 r name = Some v -> 0 <= v < 2 ^ 64.
Proof.
  unfold get_u64, Uint64. case_decide; [|done]. intros [= <-].
  pose proof (le_decode_range (take 8 (read_window (buf r) (value (reg_index r name))))) as Hr.
  rewrite length_take in Hr.
  replace (8 `min` length (read_window (buf r) (value (reg_index r name))))%nat
    with 8%nat in Hr by lia.
  exact Hr.
Qed.

(** The slices of the PC and of rcx do not overlap. *)
Definition PC_CX_apart (r : gdbRegisters) : Prop :=
  let wpc := value (reg_index r regnamePC) in
  let wcx := value (reg_index r regnameCX) in
  (w_off wpc + w_len wpc <= w_off wcx \/ w_off wcx + w_len wcx <= w_off wpc)%nat.

Lemma put_u64_keeps (r r' : gdbRegisters) (name : string) (v : Z) :
  put_u64 r name v = Some r' ->
  regs r' = regs r /\ tls r' = tls r /\ gaddr r' = gaddr r /\ hasgaddr r' = hasgaddr r.
Proof.
  unfold put_u64. destruct (PutUint64 _ v); [|done]. by intros [= <-].
Qed.

Lemma PC_CX_apart_regs (r r' : gdbRegisters) :
  regs r' = regs r -> PC_CX_apart r -> PC_CX_apart r'.
Proof. unfold PC_CX_apart, reg_index, reg_lookup. by intros ->. Qed.

Lemma restore_bank (r0 r1 r2 r3 : gdbRegisters) (pc cx : Z) :
  PC_CX_apart r0 -> regs r1 = regs r0 ->
  setPC r1 pc = Some r2 -> setCX r2 cx = Some r3 ->
  0 <= pc < 2 ^ 64 -> 0 <= cx < 2 ^ 64 ->
  PC r3 = Some pc /\ CX r3 = Some cx /\ hasgaddr r3 = hasgaddr r1.
Proof.
  unfold setPC, setCX, PC, CX. intros Hapart Hregs H2 H3 Hpc Hcx.
  pose proof (put_u64_get_u64 r1 regnamePC pc) as G2. rewrite H2 in G2.
  pose proof (put_u64_get_u64 r2 regnameCX cx) as G3. rewrite H3 in G3.
  destruct G2 as (Gpc & Gregs2 & _). destruct G3 as (Gcx & Gregs3 & _).
  destruct (put_u64_keeps _ _ _ _ H2) as (_ & _ & _ & Hh2).
  destruct (put_u64_keeps _ _ _ _ H3) as (_ & _ & _ & Hh3).
  rewrite Z.mod_small in Gpc, Gcx by done.
  split; [|split; [done|congruence]].
  rewrite <- Gpc. apply (put_u64_elsewhere r2 r3 regnameCX regnamePC cx H3).
  apply (PC_CX_apart_regs r0 r2); [congruence|done].
Qed.

(** A request that writes registers. *)
Definition writes_registers (k : Packet) : Prop :=
  match k with
  | PktWriteRegisters _ _ | PktWriteRegister _ _ _ => True
  | _ => False
  end.

(** X20.  [reloadGAlloc] on a thread that is not blocked, whose PC and rcx
    occupy separate slices of the register buffer.  It first points the PC
    at the MOV instruction and writes it to the stub; when that write is
    refused the call ends with the error, and the engine's copy of the PC
    stays at the address of the instruction.  Otherwise the step follows,
    and whatever the step and the read after it return, the engine's copy
    of the PC and of rcx is back to the values from before the call and the
    last request is a write of registers; a nil result means the G address
    has been recorded. *)
Theorem reloadGAlloc_restores_registers (t : loc) (p : GdbserverProcess W)
    (th : GdbserverThread) (pc cx : Z) (err : option error) (p' : GdbserverProcess W) :
  thread_store p !! t = Some th ->
  PC (t_regs th) = Some pc ->
  CX (t_regs th) = Some cx ->
  match PCToFunc (bi p) pc with
  | Some fn => blocked_function (fn_Name fn) = false
  | None => True
  end ->
  PC_CX_apart (t_regs th) ->
  reloadGAlloc t p = Done err p' ->
  exists th' log,
    thread_store p' !! t = Some th'
    /\ sent (conn p') = sent (conn p) ++ log
    /\ match log with
       | [] => False
       | [first] =>
           writes_registers first /\ err <> None
           /\ PC (t_regs th') = Some (loadGInstrAddr p mod 2 ^ 64)
       | first :: second :: rest =>
           writes_registers first /\ second = PktStep (strID th)
           /\ PC (t_regs th') = Some pc /\ CX (t_regs th') = Some cx
           /\ (exists k, last rest = Some k /\ writes_registers k)
           /\ (err = None -> hasgaddr (t_regs th') = true)
       end.
Proof.
  intros Hth Hpc Hcx Hblocked Hapart E. wp_of E.
  unfold reloadGAlloc, gdbserverThreadBlocked.
  repeat (progress (wp_run; unfold conn_step, absorb_threads)).
  all: intros; simplify_eq.
  all: fields; rewrite ?lookup_insert_eq; eexists _, _; (split; [reflexivity|]).
  all: (split; [rewrite <- ?app_assoc; reflexivity|]); cbn [app]; objects.
  all: pose proof (get_u64_range _ _ _ Hpc) as Rpc.
  all: pose proof (get_u64_range _ _ _ Hcx) as Rcx.
  all: match goal with
       | H : setPC (t_regs ?th0) ?v = Some ?a |- _ =>
           pose proof (put_u64_get_u64 (t_regs th0) regnamePC v) as Gfirst;
           pose proof (put_u64_keeps _ _ _ _ H) as (Hregs & _);
           unfold setPC in H; rewrite H in Gfirst; destruct Gfirst as (Gfirst & _)
       end.
  all: try match goal with
       | H1 : setPC ?r1 ?v1 = Some ?r2, H2 : setCX ?r2 ?v2 = Some ?r3 |- _ =>
           destruct (restore_bank _ r1 r2 r3 v1 v2 Hapart Hregs H1 H2 Rpc Rcx)
             as (Gpc & Gcx & Ghas)
       end.
  all: repeat split; simpl; try done; eauto.
  all: eexists; split; [reflexivity|exact I].
Qed.

(** A connection that differs from [c] by the state of the stub and by the
    requests [log] at the end of its record. *)
Definition conn_after (c : gdbConn W) (log : list Packet) (c' : gdbConn W) : Prop :=
  pid c' = pid c /\ isDebugserver c' = isDebugserver c
  /\ conn_regsInfo c' = conn_regsInfo c /\ sent c' = sent c ++ log.

Lemma set_conn_id (p : GdbserverProcess W) : set_conn (conn p) p = p.
Proof. by destruct p. Qed.

(** The addresses [reloadGAtPC] lifts breakpoints from. *)
Definition under_instruction (pc : Z) (n : nat) (a : Z) : Prop :=
  a >= pc /\ a <= wrap64 (pc + Z.of_nat n).

Lemma wp_clear_under pc n entries pushed0 Q (p : GdbserverProcess W) :
  (forall cerr cleared refused c,
     conn_after (conn p) (PktClearBreakpoint <$> (cleared ++ refused)) c ->
     match cerr with
     | Some _ => exists a, refused = [a]
     | None => refused = []
               /\ forall a, a ∈ entries.*1 -> under_instruction pc n a -> a ∈ cleared
     end ->
     Forall (fun a => under_instruction pc n a /\ a ∈ entries.*1) cleared ->
     Q (cerr, reverse cleared ++ pushed0) (set_conn c p)) ->
  wp (clear_under pc n entries pushed0) Q p.
Proof.
  revert pushed0 Q p. induction entries as [|[addr b] rest IH]; intros pushed0 Q p HQ.
  - simpl. wp_run.
    specialize (HQ None [] [] (conn p)). rewrite set_conn_id in HQ. apply HQ.
    + unfold conn_after. by rewrite app_nil_r.
    + split; [done|]. intros a Ha. by apply elem_of_nil in Ha.
    + constructor.
  - cbn [clear_under]. wp_run.
    + apply (HQ (Some e) [] [addr]).
      * unfold conn_after. by fields.
      * by exists addr.
      * constructor.
    + apply IH. intros cerr cleared refused c (Hpid & Hdbg & Hinfo & Hsent) Hshape Hall.
      fields.
      replace (reverse cleared ++ addr :: pushed0)
        with (reverse (addr :: cleared) ++ pushed0)
        by (by rewrite reverse_cons, <- app_assoc).
      apply (HQ cerr (addr :: cleared) refused c).
      * unfold conn_after. rewrite Hpid, Hdbg, Hinfo, Hsent. fields.
        by rewrite <- app_assoc.
      * destruct cerr; [done|]. destruct Hshape as [-> Hcomplete]. split; [done|].
        intros a' Ha'. rewrite fmap_cons in Ha'. apply elem_of_cons in Ha' as [->|Ha'].
        -- intros _. apply list_elem_of_here.
        -- intros Hu. apply list_elem_of_further. by apply Hcomplete.
      * constructor.
        -- split; [done|]. rewrite fmap_cons. apply list_elem_of_here.
        -- eapply Forall_impl; [exact Hall|]. intros a' [Hu Hin]. split; [done|].
           rewrite fmap_cons. by apply list_elem_of_further.
    + apply IH. intros cerr cleared refused c Hc Hshape Hall.
      apply (HQ cerr cleared refused c); [done| |].
      * destruct cerr; [done|]. destruct Hshape as [-> Hcomplete]. split; [done|].
        intros a' Ha'. rewrite fmap_cons in Ha'. apply elem_of_cons in Ha' as [->|Ha'].
        -- intros Hu. done.
        -- by apply Hcomplete.
      * eapply Forall_impl; [exact Hall|]. intros a' [Hu Hin]. split; [done|].
        rewrite fmap_cons. by apply list_elem_of_further.
Qed.

Lemma wp_run_deferred_setBreakpoint pushed Q (p : GdbserverProcess W) :
  (forall c, conn_after (conn p) (PktSetBreakpoint <$> pushed) c -> Q tt (set_conn c p)) ->
  wp (run_deferred_setBreakpoint pushed) Q p.
Proof.
  revert Q p. induction pushed as [|addr rest IH]; intros Q p HQ; simpl.
  - wp_run. specialize (HQ (conn p)). rewrite set_conn_id in HQ. apply HQ.
    unfold conn_after. by rewrite app_nil_r.
  - wp_run. apply IH. intros c (Hpid & Hdbg & Hinfo & Hsent). fields.
    apply (HQ c). unfold conn_after. rewrite Hpid, Hdbg, Hinfo, Hsent. fields.
    by rewrite <- app_assoc.
Qed.

Lemma range_order_keys {A : Type} (w : W) (m : gmap Z A) (a : Z) :
  a ∈ (range_order w (map_to_list m)).*1 <-> is_Some (m !! a).
Proof.
  rewrite range_order_perm, list_elem_of_fmap. split.
  - intros ([k v] & -> & Hin). apply elem_of_map_to_list in Hin. by exists v.
  - intros [v Hv]. exists (a, v). split; [done|]. by apply elem_of_map_to_list.
Qed.

Lemma fill_length (data answer : list byte) : length (fill data answer) = length data.
Proof.
  unfold fill. rewrite length_take, length_app, length_drop. lia.
Qed.

Lemma middle_cons {A : Type} (k : A) (rest m S : list A) :
  rest = m ++ S -> k :: rest = (k :: m) ++ S.
Proof. by intros ->. Qed.

(** A request that reads registers. *)
Definition reads_registers (k : Packet) : Prop :=
  match k with
  | PktReadRegisters _ | PktReadRegister _ _ => True
  | _ => False
  end.

(** The requests of [reloadGAtPC] between the [z0] requests for the
    breakpoints under the instruction and the [Z0] requests that put them
    back, with what they leave of the thread [th'] and of the result. *)
Definition reloadGAtPC_requests (th th' : GdbserverThread) (pc cx : Z)
    (movinstr : list byte) (err : option error) (middle : list Packet) : Prop :=
  let n := length movinstr in
  ((exists a, middle = [PktClearBreakpoint a])
   /\ err <> None /\ t_regs th' = t_regs th)
  \/ (middle = [PktReadMemory pc n] /\ err <> None /\ t_regs th' = t_regs th)
  \/ (middle = [PktReadMemory pc n; PktWriteMemory pc movinstr]
      /\ err <> None /\ t_regs th' = t_regs th)
  \/ exists reads saved writes,
       middle = PktReadMemory pc n :: PktWriteMemory pc movinstr :: PktStep (strID th)
                  :: reads ++ PktWriteMemory pc saved :: writes
       /\ length saved = n
       /\ Forall reads_registers reads
       /\ writes <> [] /\ Forall writes_registers writes
       /\ PC (t_regs th') = Some pc /\ CX (t_regs th') = Some cx
       /\ (err = None -> hasgaddr (t_regs th') = true).

(** X21.  [reloadGAtPC] on a thread that is not blocked, whose PC and rcx
    occupy separate slices of the register buffer.  Its requests are: [z0]
    for breakpoints of the table under the instruction; then the requests
    of [reloadGAtPC_requests]; then [Z0] for every breakpoint whose [z0] was
    accepted, last one first, whatever happened in between.  Unless a [z0]
    was refused, every breakpoint of the table under the instruction was
    lifted.  Once the MOV instruction has been written and the step sent,
    the saved bytes are written back to the PC and the registers are
    written back before the call returns, and the engine's copy of the PC
    and of rcx is back to the values from before the call.  The breakpoint
    table is not changed. *)
Theorem reloadGAtPC_puts_back (t : loc) (p : GdbserverProcess W)
    (th : GdbserverThread) (pc cx : Z) (movinstr : list byte)
    (err : option error) (p' : GdbserverProcess W) :
  thread_store p !! t = Some th ->
  PC (t_regs th) = Some pc ->
  CX (t_regs th) = Some cx ->
  loadGInstr_of (bi p) = Some movinstr ->
  match PCToFunc (bi p) pc with
  | Some fn => blocked_function (fn_Name fn) = false
  | None => True
  end ->
  PC_CX_apart (t_regs th) ->
  reloadGAtPC t p = Done err p' ->
  exists th' cleared middle,
    thread_store p' !! t = Some th'
    /\ breakpoints p' = breakpoints p
    /\ sent (conn p')
       = sent (conn p) ++ (PktClearBreakpoint <$> cleared) ++ middle
           ++ (PktSetBreakpoint <$> reverse cleared)
    /\ Forall (fun a => under_instruction pc (length movinstr) a
                        /\ is_Some (breakpoints p !! a)) cleared
    /\ ((forall a, middle <> [PktClearBreakpoint a]) ->
        forall a, is_Some (breakpoints p !! a) ->
                  under_instruction pc (length movinstr) a -> a ∈ cleared)
    /\ reloadGAtPC_requests th th' pc cx movinstr err middle.
Proof.
  intros Hth Hpc Hcx Hmov Hblocked Hapart E. wp_of E.
  unfold reloadGAtPC, loadGInstr, gdbserverThreadBlocked.
  wp_run.
  all: apply wp_clear_under; intros cerr cleared refused c0 Hc0 Hshape Hall.
  all: repeat (progress (wp_run; unfold conn_step, absorb_threads)).
  all: apply wp_run_deferred_setBreakpoint; intros c1 Hc1; wp_run.
  all: intros; simplify_eq.
  all: destruct Hc0 as (_ & _ & _ & Hs0); destruct Hc1 as (_ & _ & _ & Hs1).
  all: fields; rewrite ?lookup_insert_eq; rewrite ?app_nil_r in Hs1.
  all: rewrite ?Hth.
  all: rewrite ?Hs0 in Hs1.
  all: first [ destruct Hshape as [a0 ->] | destruct Hshape as [-> Hcomplete] ].
  all: rewrite ?app_nil_r, ?fmap_app, <- ?app_assoc in Hs1; cbn [fmap list_fmap app] in Hs1.
  all: eexists _, cleared, _; (split; [reflexivity|]); (split; [reflexivity|]).
  all: split;
    [ etransitivity; [exact Hs1|]; do 2 f_equal;
      repeat first [ exact (eq_sym (app_nil_l _)) | apply middle_cons ] | ].
  all: split;
    [ eapply Forall_impl; [exact Hall|]; intros a' [Hu Hin]; split; [done|];
      by apply range_order_keys in Hin | ].
  all: split;
    [ first [ intros Hne; by destruct (Hne a0)
            | intros _ a' Ha' Hu; apply Hcomplete; [by apply range_order_keys|done] ] | ].
  all: unfold reloadGAtPC_requests; cbn zeta.
  all: objects.
  all: try (left; split; [by eexists|done]).
  all: try (right; left; done).
  all: try (right; right; left; done).
  all: right; right; right.
  all: first
    [ exists []; eexists _, _; split; [reflexivity|]
    | eexists [_]; eexists _, _; split; [reflexivity|]
    | eexists [_; _]; eexists _, _; split; [reflexivity|] ].
  all: (split; [by rewrite fill_length, length_replicate|]).
  all: (split; [repeat constructor|]).
  all: (split; [done|]).
  all: (split; [repeat constructor|]).
  all: pose proof (get_u64_range _ _ _ Hpc) as Rpc.
  all: pose proof (get_u64_range _ _ _ Hcx) as Rcx.
  all: match goal with
       | H1 : setPC ?r1 ?v1 = Some ?r2, H2 : setCX ?r2 ?v2 = Some ?r3 |- _ =>
           destruct (restore_bank _ r1 r2 r3 v1 v2 Hapart eq_refl H1 H2 Rpc Rcx)
             as (Gpc & Gcx & Ghas)
       end.
  all: (split; [done|]); (split; [done|]); try done.
Qed.



End Resolvers.

(** ** Runs on the simulated stub *)

(** A stub that reports signal 0x1e (not one the loop leaves on) and then a
    breakpoint trap. *)
Definition sim_two_stops : sim :=
  sim_set_replies [Stopped "1" 0x1e None; Stopped "1" 0x5 None] (sim_at 0x401000 0 0).

Lemma continue_loop_decision_C2_witness :
  exists p1 tu',
    conn_resume 0 (Some {| seen := ∅; done := false |}) (sim_process sim_two_stops)
      = Done ("1", 0x1e, None, tu') p1
    /\ leaves_loop 0x1e (ctrlC p1) (isDebugserver (conn p1)) = false
    /\ continueLoop 2 0 new_threadUpdater (sim_process sim_two_stops)
       = continueLoop 1 0x1e (default {| seen := ∅; done := false |} tu') p1
    /\ exists r p2 rest,
         continueLoop 1 0x1e (default {| seen := ∅; done := false |} tu') p1 = Done r p2
         /\ sent (conn p2) = sent (conn p1) ++ PktResume 0x1e :: rest.
Proof.
  eexists _, _.
  split; [reflexivity|].
  split; [reflexivity|].
  pose proof (continue_loop_decision_C2 1 0 new_threadUpdater
                (sim_process sim_two_stops) "1" 0x1e _ _ eq_refl) as [_ [_ Hgo]].
  destruct (Hgo eq_refl) as [Hloop Hsent].
  split; [exact Hloop|].
  eexists _, _.
  match goal with
  | |- exists rest, ?run = Done ?r ?p2 /\ _ =>
      assert (Hrun : run = Done r p2) by reflexivity
  end.
  destruct (Hsent _ _ Hrun) as [rest Hrest].
  exists rest. split; [exact Hrun | exact Hrest].
Defined.

(** The process a call leaves behind. *)
Definition after {A : Type} (m : M sim A) (p : GdbserverProcess sim) : GdbserverProcess sim :=
  match m p with
  | Done _ p' => p'
  | Panicked | OutOfFuel => p
  end.

(** The engine once it has listed the threads of an inferior stopped at
    0x401000, as [GdbserverConnect] does after the handshake. *)
Definition sim_connected : GdbserverProcess sim :=
  after (updateThreadList 3 new_threadUpdater) (sim_process (sim_at 0x401000 0 7)).





Lemma breakpoint_table_atomic_C10_witness :
  SetBreakpoint 0x401000 UserBreakpoint None sim_connected
  = Done (Some (fresh (dom (breakpoint_store sim_connected))), None)
      (after (SetBreakpoint 0x401000 UserBreakpoint None) sim_connected)
  /\ exists b,
       Some (fresh (dom (breakpoint_store sim_connected))) = Some b
       /\ breakpoints sim_connected !! 0x401000 = None
       /\ breakpoints (after (SetBreakpoint 0x401000 UserBreakpoint None) sim_connected)
          = <[0x401000 := b]> (breakpoints sim_connected)
       /\ (stub_setBreakpoint 0x401000 (stub (conn sim_connected))).1 = None
       /\ sent (conn (after (SetBreakpoint 0x401000 UserBreakpoint None) sim_connected))
          = sent (conn sim_connected) ++ [PktSetBreakpoint 0x401000].
Proof.
  assert (E : SetBreakpoint 0x401000 UserBreakpoint None sim_connected
              = Done (Some (fresh (dom (breakpoint_store sim_connected))), None)
                  (after (SetBreakpoint 0x401000 UserBreakpoint None) sim_connected))
    by (vm_compute; reflexivity).
  split; [exact E|].
  exact (proj1 (breakpoint_table_atomic_C10 sim_connected 0x401000 UserBreakpoint None
                  (Some (fresh (dom (breakpoint_store sim_connected)))) None
                  (after (SetBreakpoint 0x401000 UserBreakpoint None) sim_connected)) E).
Defined.
